(** * Path-addressed JSON editing: node modal and editor page

    A shallow embedding of the editing logic of the JSON visualisation
    editor:

    - [src/features/modals/NodeModal/index.tsx]: [readValueAtPath],
      [writeJsonAtPath], [coerceInputValue] and the [commitEdit] handler
      of the node modal; and what the modal shows and how it is driven:
      [normalizeNodeData], [jsonPathToString], the effect that refreshes
      its contents, [beginEdit], [revertEdit] and the key listener;
    - the editor page: [setAtPath] and the [handleNodeSave] listener.

    ** Modelling conventions

    - A JavaScript value is a tree ([value]): [undefined], [null],
      booleans, numbers, strings, arrays and plain objects.  An object is
      an association list in the engine's own-key order.  A hole of a
      sparse array reads as [undefined] and is represented by it.
    - A number is a scaled decimal ([number]); the rounding of IEEE
      doubles is not modelled.  No function below computes with numbers.
    - A string is a Rocq [string]; the characters of a string are its
      8-bit characters (exact for ASCII text).
    - Property access is modelled on the own data properties that JSON
      text denotes: the entries of an object, the elements of an array
      and the characters of a string ([get_own], [put_own]).  The
      engine's accesses [v[k]] and [c[k] = x] do more: a read finds the
      [length] of an array or of a string and the members that a value
      inherits ([toString], [constructor], [__proto__], ...); an
      assignment to [__proto__] runs the setter of [Object.prototype],
      an assignment to the [length] of an array resizes it, a name that
      is no index is attached to an array without being an element of
      it, and a numeral is ordered as an index only below 2^32 - 1.
      These are outside the model.  A statement about an access that
      could be one of them carries, as a hypothesis, that it is not
      ([plain_path], [compatible], [plain_walk], [plain_write],
      [present]); the prototypes are taken to be as the engine creates
      them.
    - The module is strict-mode code: assigning to a property of a
      primitive throws a [TypeError].
    - The limits of the engine's resources (the longest string, the
      depth of the stack) are not modelled.
    - [JSON.parse], [JSON.stringify(_, null, 2)] and
      [String.prototype.trim] belong to the engine.  The functions of the
      program are defined over an arbitrary engine ([JsEngine]); the
      module [Reference] gives an executable one, used to run the
      program on concrete documents.
    - Exceptions, the three stores, the console and the alert box are
      explicit: a computation is a function from a [World] to a
      [result] and a [World]. *)

From Stdlib Require Import ZArith Decimal DecimalString DecimalNat DecimalPos
  DecimalFacts Ascii String.
From stdpp Require Import base list strings.

Set Warnings "-register-all".
Local Open Scope string_scope.
Local Open Scope list_scope.

(* ===================================================================== *)
(** * JavaScript values *)
(* ===================================================================== *)

(** A number [unscaled / 10 ^ scale]. *)
Record number : Type := Number { unscaled : Z; scale : nat }.

Definition int (z : Z) : number := Number z 0.

Inductive value : Type :=
| VUndefined
| VNull
| VBool (b : bool)
| VNum (n : number)
| VStr (s : string)
| VArr (elems : list value)
| VObj (props : list (string * value)).

(** The type [any] of the source. *)
Abbreviation any := value (only parsing).

(** A path segment: [string | number]. *)
Inductive segment : Type :=
| SKey (k : string)
| SIdx (n : nat).

(** [NodeData["path"]]. *)
Definition path : Type := list segment.

(** ** Tests the source applies to values *)

(** ToBoolean. *)
Definition truthy (v : value) : bool :=
  match v with
  | VUndefined | VNull => false
  | VBool b => b
  | VNum n => negb (unscaled n =? 0)%Z
  | VStr s => negb (String.eqb s EmptyString)
  | VArr _ | VObj _ => true
  end.

(** [typeof v === "object"]. *)
Definition typeof_object (v : value) : bool :=
  match v with
  | VNull | VArr _ | VObj _ => true
  | _ => false
  end.

(** [Array.isArray(v)]. *)
Definition isArray (v : value) : bool :=
  match v with VArr _ => true | _ => false end.

(** [typeof seg === "number"]. *)
Definition typeof_number (s : segment) : bool :=
  match s with SIdx _ => true | SKey _ => false end.

(** [v === null || v === undefined]. *)
Definition nullish (v : value) : bool :=
  match v with VUndefined | VNull => true | _ => false end.

(** Arrays and plain objects: the values that own assignable slots. *)
Definition is_container (v : value) : bool :=
  match v with VArr _ | VObj _ => true | _ => false end.

(** ** Property keys *)

(** ToPropertyKey of an index: its canonical decimal numeral. *)
Definition index_key (n : nat) : string :=
  NilEmpty.string_of_uint (Nat.to_uint n).

(** ToPropertyKey. *)
Definition prop_key (s : segment) : string :=
  match s with SKey k => k | SIdx n => index_key n end.

(** The index a key denotes, if it is a canonical numeral.  The engine
    takes such a key for an array index only below 2^32 - 1; the bound
    is part of [plain_key]. *)
Definition array_index (k : string) : option nat :=
  match NilEmpty.uint_of_string k with
  | Some d => if uint_eq_dec (unorm d) d then Some (Nat.of_uint d) else None
  | None => None
  end.

(** ** Containers

    The slots of plain objects and arrays, whatever they hold ([A]):
    objects keep their own properties in the engine's key order. *)

Section Containers.
Context {A : Type} (undef : A).

Fixpoint obj_lookup (k : string) (props : list (string * A)) : option A :=
  match props with
  | [] => None
  | (k', v) :: tl => if String.eqb k k' then Some v else obj_lookup k tl
  end.

Fixpoint obj_replace (k : string) (v : A) (props : list (string * A))
  : list (string * A) :=
  match props with
  | [] => []
  | (k', v') :: tl =>
      if String.eqb k k' then (k', v) :: tl else (k', v') :: obj_replace k v tl
  end.

(** A new integer-like key goes among the integer-like keys, in
    ascending order; these come before every other key. *)
Fixpoint obj_insert_index (n : nat) (k : string) (v : A)
    (props : list (string * A)) : list (string * A) :=
  match props with
  | [] => [(k, v)]
  | (k', v') :: tl =>
      match array_index k' with
      | Some n' =>
          if (n' <? n)%nat then (k', v') :: obj_insert_index n k v tl
          else (k, v) :: props
      | None => (k, v) :: props
      end
  end.

(** [o[k] = v] on a plain object: an existing key keeps its place, a
    new one is created. *)
Definition obj_define (k : string) (v : A) (props : list (string * A))
  : list (string * A) :=
  match obj_lookup k props with
  | Some _ => obj_replace k v props
  | None =>
      match array_index k with
      | Some n => obj_insert_index n k v props
      | None => props ++ [(k, v)]
      end
  end.

(** [{ ...acc, ...src }] for a plain object [src]: each own key of
    [src], in order, is read from [src] and defined on the copy. *)
Definition spread (src acc : list (string * A)) : list (string * A) :=
  fold_left
    (fun acc k => obj_define k (default undef (obj_lookup k src)) acc)
    (map fst src) acc.

Definition arr_get (xs : list A) (n : nat) : A :=
  default undef (xs !! n).

(** [a[n] = v]: in range the slot is overwritten; past the end the
    array grows and the skipped slots are holes. *)
Definition arr_set (xs : list A) (n : nat) (v : A) : list A :=
  if (n <? length xs)%nat then <[n := v]> xs
  else xs ++ replicate (n - length xs) undef ++ [v].
End Containers.

(** Two objects with the same keys in the same order, their values
    related by [R]. *)
Definition entry_related {A B : Type} (R : A -> B -> Prop)
    (ka : string * A) (kb : string * B) : Prop :=
  ka.1 = kb.1 /\ R ka.2 kb.2.

(** ** Strings *)

Definition str_get (s : string) (n : nat) : value :=
  match String.get n s with
  | Some c => VStr (String c EmptyString)
  | None => VUndefined
  end.

(** ** Reading and writing a property *)

(** The own slot [s] of a value that is neither [null] nor
    [undefined]: an entry of an object, an element of an array, a
    character of a string; [undefined] where there is none.  The
    engine's read [v[s]] is this where it reads a slot or finds nothing
    ([plain_read]). *)
Definition get_own (v : value) (s : segment) : value :=
  match v with
  | VObj props => default VUndefined (obj_lookup (prop_key s) props)
  | VArr xs =>
      match array_index (prop_key s) with
      | Some n => arr_get VUndefined xs n
      | None => VUndefined
      end
  | VStr str =>
      match array_index (prop_key s) with
      | Some n => str_get str n
      | None => VUndefined
      end
  | _ => VUndefined
  end.

(** [c[s] = x] on a container, where the assignment defines a slot: an
    entry of an object, an element of an array ([plain_assign]).  A name
    that is no index is attached to an array without being an element of
    it. *)
Definition put_own (c : value) (s : segment) (x : value) : value :=
  match c with
  | VObj props => VObj (obj_define (prop_key s) x props)
  | VArr xs =>
      match array_index (prop_key s) with
      | Some n => VArr (arr_set VUndefined xs n x)
      | None => VArr xs
      end
  | _ => c
  end.

(* ===================================================================== *)
(** * Exceptions *)
(* ===================================================================== *)

Inductive exn : Type :=
| SyntaxError
| TypeError.

Inductive result (A : Type) : Type :=
| Ok (a : A)
| Throw (e : exn).

Arguments Ok {A} a.
Arguments Throw {A} e.

(** [v[s]]. *)
Definition member (v : value) (s : segment) : result value :=
  if nullish v then Throw TypeError else Ok (get_own v s).

(** [v?.[s]]. *)
Definition member_opt (v : value) (s : segment) : value :=
  if nullish v then VUndefined else get_own v s.

(** [v[s] = x] in strict mode. *)
Definition assign (v : value) (s : segment) (x : value) : result value :=
  if is_container v then Ok (put_own v s x) else Throw TypeError.

(* ===================================================================== *)
(** * The engine and the world *)
(* ===================================================================== *)

(** The built-ins the program calls.  [JSON_parse] gives [None] where
    [JSON.parse] throws a [SyntaxError]; [JSON_stringify v] is
    [JSON.stringify(v, null, 2)]. *)
Class JsEngine : Type := {
  JSON_parse : string -> option value;
  JSON_stringify : value -> string;
  trim : string -> string
}.

(** [useFile]: the text-buffer store. *)
Record FileState : Type := { contents : string; hasChanges : bool }.

(** What [useGraph.setGraph] was last given. *)
Inductive GraphData : Type :=
| GraphValue (v : value)
| GraphText (s : string).

Record World : Type := {
  useJson : string;            (* useJson.getState().json *)
  useFile : FileState;         (* useFile.getState() *)
  useGraph : GraphData;        (* useGraph.getState() *)
  editing : bool;              (* component state of the modal *)
  draft : string;
  baseline : string;
  console : list string;       (* console.error, oldest first *)
  alerts : list string         (* alert, oldest first *)
}.

(** The three stores of a world. *)
Definition stores (w : World) : string * FileState * GraphData :=
  (useJson w, useFile w, useGraph w).

(** A computation: it ends normally or throws, and leaves a world. *)
Definition M (A : Type) : Type := World -> result A * World.

#[global] Instance M_ret : MRet M := fun A a w => (Ok a, w).

#[global] Instance M_bind : MBind M := fun A B f m w =>
  match m w with
  | (Ok a, w') => f a w'
  | (Throw e, w') => (Throw e, w')
  end.

Definition throw {A : Type} (e : exn) : M A := fun w => (Throw e, w).

(** [try { body } catch (e) { handler e }]. *)
Definition try_catch {A : Type} (body : M A) (handler : exn -> M A) : M A :=
  fun w =>
    match body w with
    | (Ok a, w') => (Ok a, w')
    | (Throw e, w') => handler e w'
    end.

Definition lift {A : Type} (r : result A) : M A := fun w => (r, w).

Definition gets {A : Type} (f : World -> A) : M A := fun w => (Ok (f w), w).

Definition modify (f : World -> World) : M unit := fun w => (Ok tt, f w).

(** ** Writes to the world *)

Definition log_error (msg : string) (w : World) : World :=
  {| useJson := useJson w; useFile := useFile w; useGraph := useGraph w;
     editing := editing w; draft := draft w; baseline := baseline w;
     console := console w ++ [msg]; alerts := alerts w |}.

Definition show_alert (msg : string) (w : World) : World :=
  {| useJson := useJson w; useFile := useFile w; useGraph := useGraph w;
     editing := editing w; draft := draft w; baseline := baseline w;
     console := console w; alerts := alerts w ++ [msg] |}.

Definition with_json (json : string) (w : World) : World :=
  {| useJson := json; useFile := useFile w; useGraph := useGraph w;
     editing := editing w; draft := draft w; baseline := baseline w;
     console := console w; alerts := alerts w |}.

Definition with_file (f : FileState) (w : World) : World :=
  {| useJson := useJson w; useFile := f; useGraph := useGraph w;
     editing := editing w; draft := draft w; baseline := baseline w;
     console := console w; alerts := alerts w |}.

Definition with_graph (g : GraphData) (w : World) : World :=
  {| useJson := useJson w; useFile := useFile w; useGraph := g;
     editing := editing w; draft := draft w; baseline := baseline w;
     console := console w; alerts := alerts w |}.

Definition with_editing (b : bool) (w : World) : World :=
  {| useJson := useJson w; useFile := useFile w; useGraph := useGraph w;
     editing := b; draft := draft w; baseline := baseline w;
     console := console w; alerts := alerts w |}.

Definition with_baseline (s : string) (w : World) : World :=
  {| useJson := useJson w; useFile := useFile w; useGraph := useGraph w;
     editing := editing w; draft := draft w; baseline := s;
     console := console w; alerts := alerts w |}.

(** [console.error(msg, error)]. *)
Definition console_error (msg : string) : M unit := modify (log_error msg).

(** [alert(msg)]. *)
Definition alert (msg : string) : M unit := modify (show_alert msg).

(** [useJson.getState().setJson(json)]. *)
Definition setJson (json : string) : M unit := modify (with_json json).

(** [useFile.getState().setContents({ contents, hasChanges })]. *)
Definition setContents (f : FileState) : M unit := modify (with_file f).

(** [useGraph.getState().setGraph(g)]. *)
Definition setGraph (g : GraphData) : M unit := modify (with_graph g).

Definition setEditing (b : bool) : M unit := modify (with_editing b).

Definition setBaseline (s : string) : M unit := modify (with_baseline s).

(* ===================================================================== *)
(** * The node modal *)
(* ===================================================================== *)

Section Program.
Context `{JsEngine}.

(** [JSON.parse(text)]. *)
Definition parse (text : string) : M value :=
  match JSON_parse text with
  | Some v => mret v
  | None => throw SyntaxError
  end.

(** The loop of [readValueAtPath]:
    [for (...) current = current?.[path[i]]]. *)
Definition read_loop (obj : value) (segs : path) : value :=
  fold_left member_opt segs obj.

(** The [try] block of [readValueAtPath]. *)
Definition readValueAtPath_try (json : string) (p : option path) : M value :=
  obj ← parse json;
  match p with
  | None | Some [] => mret obj
  | Some segs => mret (read_loop obj segs)
  end.

Definition readValueAtPath (json : string) (p : option path) : M value :=
  try_catch (readValueAtPath_try json p)
    (fun error =>
       console_error "Error retrieving value from JSON path:";;
       mret VNull).

(** The body of [writeJsonAtPath] after the guard: the loop
    [current = current[path[i]]] walks down references into [obj], and
    [current[last] = newValue] updates the object reached, which is part
    of [obj].  On a tree this is the rebuilt spine: the updated child is
    put back where it was read. *)
Fixpoint write_loop (current : value) (segs : path) (newValue : value)
  : result value :=
  match segs with
  | [] => Ok current                       (* the guard excludes it *)
  | [last] => assign current last newValue
  | s :: rest =>
      match member current s with
      | Throw e => Throw e
      | Ok next =>
          match write_loop next rest newValue with
          | Throw e => Throw e
          | Ok next' => Ok (put_own current s next')
          end
      end
  end.

(** The [try] block of [writeJsonAtPath]. *)
Definition writeJsonAtPath_try (json : string) (p : option path)
    (newValue : value) : M string :=
  obj ← parse json;
  match p with
  | None | Some [] => mret (JSON_stringify newValue)
  | Some segs =>
      obj' ← lift (write_loop obj segs newValue);
      mret (JSON_stringify obj')
  end.

Definition writeJsonAtPath (json : string) (p : option path) (newValue : value)
  : M string :=
  try_catch (writeJsonAtPath_try json p newValue)
    (fun error =>
       console_error "Error applying changes to JSON path:";;
       mret json).

Definition coerceInputValue (content : string) : M value :=
  let trimmed := trim content in
  if String.eqb trimmed EmptyString then mret (VStr EmptyString)
  else try_catch (parse trimmed) (fun _ => mret (VStr content)).

(** The own properties an object spread copies. *)
Definition own_props (v : value) : list (string * value) :=
  match v with VObj props => props | _ => [] end.

(** The [merged] constant of [commitEdit]. *)
Definition merged (originalFull newValue : value) : value :=
  if truthy originalFull
     && typeof_object originalFull
     && negb (isArray originalFull)
     && truthy newValue
     && typeof_object newValue
     && negb (isArray newValue)
  then VObj (spread VUndefined (own_props newValue)
              (spread VUndefined (own_props originalFull) []))
  else newValue.

(** [useGraph(state => state.selectedNode)]. *)
Record NodeData : Type := { node_path : option path }.

(** [nodeData?.path]. *)
Definition path_of (nodeData : option NodeData) : option path :=
  match nodeData with Some n => node_path n | None => None end.

Definition commitEdit (nodeData : option NodeData) : M unit :=
  try_catch
    (draft ← gets draft;
     newValue ← coerceInputValue draft;
     jsonStr ← gets useJson;
     originalFull ← readValueAtPath jsonStr (path_of nodeData);
     let merged := merged originalFull newValue in
     updated ← writeJsonAtPath jsonStr (path_of nodeData) merged;
     setJson updated;;
     setContents {| contents := updated; hasChanges := true |};;
     try_catch
       (g ← parse updated; setGraph (GraphValue g))
       (fun _ => setGraph (GraphText updated));;
     setEditing false;;
     setBaseline draft)
    (fun error =>
       console_error "Error when saving node changes:";;
       alert "An issue occurred while saving your changes").

(* =================================================================== *)
(** * The editor page *)
(* =================================================================== *)

(** [{ ...root }]. *)
Definition clone_object (root : value) : value :=
  VObj (spread VUndefined (own_props root) []).

(** [typeof head === "number" ? [] : {}]. *)
Definition fresh_container (head : segment) : any :=
  if typeof_number head then VArr [] else VObj [].

(** The value of [cloned]: [root.slice()], [{ ...root }], or an empty
    container chosen by [head]. *)
Definition clone (root : any) (head : segment) : any :=
  if isArray root then root
  else if truthy root && typeof_object root then clone_object root
  else fresh_container head.

Fixpoint setAtPath (root : any) (tokens : path) (value : any) : any :=
  match tokens with
  | [] => value
  | head :: rest =>
      let cloned := clone root head in
      match rest with
      | [] => put_own cloned head value
      | _ =>
          let nextLevel := get_own cloned head in
          put_own cloned head (setAtPath nextLevel rest value)
      end
  end.

(** The listener of the [nodeModalSave] event, applied to the event's
    [detail]. *)
Definition handleNodeSave (path : path) (value : value) : M unit :=
  try_catch
    (currentContents ← gets (fun w => contents (useFile w));
     currentJson ← parse currentContents;
     let updated := setAtPath currentJson path value in
     let newContents := JSON_stringify updated in
     setContents {| contents := newContents; hasChanges := true |})
    (fun error => console_error "Failed to apply node edit:").
End Program.

(* ===================================================================== *)
(** * [setAtPath] on a store of objects *)
(* ===================================================================== *)

(** Arrays and objects are references in JavaScript.  Here a container is
    a cell of a store, a value holds a primitive or the location of a
    cell, and [setAtPath] allocates its copies in the store: what it
    shares with its input and what it writes are then visible. *)
Module Heap.

Abbreviation loc := nat (only parsing).

Inductive hval : Type :=
| HUndefined
| HNull
| HBool (b : bool)
| HNum (n : number)
| HStr (s : string)
| HRef (l : loc).

Inductive cell : Type :=
| CArr (elems : list hval)
| CObj (props : list (string * hval)).

(** Allocation appends a cell: a location is fresh when it is at least
    the length of the store. *)
Abbreviation heap := (list cell) (only parsing).

Definition cell_get (c : cell) (s : segment) : hval :=
  match c with
  | CObj props => default HUndefined (obj_lookup (prop_key s) props)
  | CArr xs =>
      match array_index (prop_key s) with
      | Some n => arr_get HUndefined xs n
      | None => HUndefined
      end
  end.

Definition cell_put (s : segment) (x : hval) (c : cell) : cell :=
  match c with
  | CObj props => CObj (obj_define (prop_key s) x props)
  | CArr xs =>
      match array_index (prop_key s) with
      | Some n => CArr (arr_set HUndefined xs n x)
      | None => CArr xs
      end
  end.

(** [o[s]] for a container [o]; nothing for a primitive. *)
Definition own (h : heap) (v : hval) (s : segment) : hval :=
  match v with
  | HRef l =>
      match h !! l with
      | Some c => cell_get c s
      | None => HUndefined
      end
  | _ => HUndefined
  end.

(** [typeof head === "number" ? [] : {}]. *)
Definition fresh_cell (head : segment) : cell :=
  if typeof_number head then CArr [] else CObj [].

(** The contents of [cloned]: [root.slice()], [{ ...root }], or an
    empty container. *)
Definition clone (h : heap) (root : hval) (head : segment) : cell :=
  match root with
  | HRef l =>
      match h !! l with
      | Some (CArr xs) => CArr xs
      | Some (CObj props) => CObj (spread HUndefined props [])
      | None => fresh_cell head
      end
  | _ => fresh_cell head
  end.

Fixpoint setAtPath (h : heap) (root : hval) (tokens : path) (value : hval)
  : hval * heap :=
  match tokens with
  | [] => (value, h)
  | head :: rest =>
      let cloned := length h in
      let h1 := (h ++ [clone h root head])%list in
      match rest with
      | [] => (HRef cloned, alter (cell_put head value) cloned h1)
      | _ =>
          let nextLevel := own h1 (HRef cloned) head in
          let '(r, h2) := setAtPath h1 nextLevel rest value in
          (HRef cloned, alter (cell_put head r) cloned h2)
      end
  end.

(** The substructure at a position: the containers' own slots are
    followed from [v]. *)
Definition subtree (h : heap) (v : hval) (position : path) : hval :=
  fold_left (own h) position v.

(** A position that leaves the path before the path ends: it is
    neither above, at, nor below the target. *)
Fixpoint off_path (tokens position : path) : bool :=
  match tokens, position with
  | p :: tokens', q :: position' =>
      if String.eqb (prop_key p) (prop_key q) then off_path tokens' position'
      else true
  | _, _ => false
  end.

(** References below [n]. *)
Definition val_closed (n : nat) (v : hval) : bool :=
  match v with HRef l => (l <? n)%nat | _ => true end.

Definition cell_closed (n : nat) (c : cell) : bool :=
  match c with
  | CArr xs => forallb (val_closed n) xs
  | CObj props => forallb (fun kv => val_closed n kv.2) props
  end.

(** The first [n] cells refer to each other only. *)
Definition closed_below (n : nat) (h : heap) : bool :=
  forallb (cell_closed n) (take n h).

(** No dangling reference in the store. *)
Definition heap_closed (h : heap) : bool := closed_below (length h) h.

(** The segment names a slot the cell can hold: an array takes indices
    only. *)
Definition cell_fits (c : cell) (s : segment) : bool :=
  match c with
  | CArr _ => bool_decide (is_Some (array_index (prop_key s)))
  | CObj _ => true
  end.

(** A value of the store stands for a tree: a primitive for itself, a
    reference for the container whose slots its cell's slots stand
    for. *)
Inductive denotes (h : heap) : hval -> value -> Prop :=
| denotes_undefined : denotes h HUndefined VUndefined
| denotes_null : denotes h HNull VNull
| denotes_bool b : denotes h (HBool b) (VBool b)
| denotes_num n : denotes h (HNum n) (VNum n)
| denotes_str s : denotes h (HStr s) (VStr s)
| denotes_arr l xs vs :
    h !! l = Some (CArr xs) ->
    Forall2 (denotes h) xs vs ->
    denotes h (HRef l) (VArr vs)
| denotes_obj l props vprops :
    h !! l = Some (CObj props) ->
    Forall2 (entry_related (denotes h)) props vprops ->
    denotes h (HRef l) (VObj vprops).

(** A value of the store that stands for a tree, with its references
    below [n]. *)
Definition denotes_below (n : nat) (h : heap) (x : hval) (t : value) : Prop :=
  denotes h x t /\ val_closed n x = true.

(** A cell's slots are related to a container's slots. *)
Definition cell_related (R : hval -> value -> Prop) (c : cell) (t : value)
  : Prop :=
  match c, t with
  | CArr xs, VArr vs => Forall2 R xs vs
  | CObj props, VObj vprops => Forall2 (entry_related R) props vprops
  | _, _ => False
  end.

(** The store's reading of [compatible]: wherever the path meets an
    array, its segment is an index. *)
Fixpoint compatible (h : heap) (root : hval) (tokens : path) : bool :=
  match tokens with
  | [] => true
  | head :: rest =>
      cell_fits (clone h root head) head && compatible h (own h root head) rest
  end.
End Heap.

(* ===================================================================== *)
(** * A reference engine *)
(* ===================================================================== *)

(** An executable reading of [JSON.parse], [JSON.stringify(_, null, 2)]
    and [trim], after the JSON grammar and the engine's serialisation
    rules. *)
Module Reference.

Local Open Scope char_scope.

Definition code (c : ascii) : nat := nat_of_ascii c.

(** JSON white space. *)
Definition is_ws (c : ascii) : bool :=
  match code c with 32 | 9 | 10 | 13 => true | _ => false end.

(** The white space [trim] strips, among the ASCII characters. *)
Definition is_space (c : ascii) : bool :=
  match code c with 32 | 9 | 10 | 11 | 12 | 13 => true | _ => false end.

Definition is_digit (c : ascii) : bool :=
  (48 <=? code c)%nat && (code c <=? 57)%nat.

Definition digit_val (c : ascii) : Z := Z.of_nat (code c - 48).

Fixpoint skip_ws (s : string) : string :=
  match s with
  | String c tl => if is_ws c then skip_ws tl else s
  | EmptyString => s
  end.

(** ** Numbers *)

(** The longest prefix of digits, and what follows it. *)
Fixpoint span_digits (s : string) : list ascii * string :=
  match s with
  | String c tl =>
      if is_digit c then let '(ds, rest) := span_digits tl in (c :: ds, rest)
      else ([], s)
  | EmptyString => ([], s)
  end.

Definition digits_val (ds : list ascii) : Z :=
  fold_left (fun acc c => (10 * acc + digit_val c)%Z) ds 0%Z.

(** [m / 10 ^ sc] with the least scale. *)
Fixpoint normalize (m : Z) (sc : nat) : number :=
  match sc with
  | O => Number m 0
  | S sc' =>
      if (m mod 10 =? 0)%Z then normalize (m / 10) sc' else Number m sc
  end.

(** [m * 10 ^ e] as a number. *)
Definition scaled (m e : Z) : number :=
  if (0 <=? e)%Z then Number (m * 10 ^ e) 0 else normalize m (Z.to_nat (- e)).

(** The integer part: a lone [0], or a digit string not starting
    with [0]. *)
Definition parse_int_part (s : string) : option (list ascii * string) :=
  match s with
  | String c tl =>
      if negb (is_digit c) then None
      else if (code c =? 48)%nat then Some ([c], tl)
      else Some (span_digits s)
  | EmptyString => None
  end.

Definition parse_frac_part (s : string) : option (list ascii * string) :=
  match s with
  | String c tl =>
      if (code c =? 46)%nat then
        match span_digits tl with
        | ([], _) => None
        | r => Some r
        end
      else Some ([], s)
  | EmptyString => Some ([], s)
  end.

Definition parse_exp_digits (neg : bool) (s : string) : option (Z * string) :=
  match span_digits s with
  | ([], _) => None
  | (ds, rest) =>
      Some (if neg then (- digits_val ds)%Z else digits_val ds, rest)
  end.

Definition parse_exp_sign (s : string) : option (Z * string) :=
  match s with
  | String c tl =>
      if (code c =? 45)%nat then parse_exp_digits true tl
      else if (code c =? 43)%nat then parse_exp_digits false tl
      else parse_exp_digits false s
  | EmptyString => None
  end.

Definition parse_exp_part (s : string) : option (Z * string) :=
  match s with
  | String c tl =>
      if (code c =? 101)%nat || (code c =? 69)%nat then parse_exp_sign tl
      else Some (0%Z, s)
  | EmptyString => Some (0%Z, s)
  end.

(** A leading minus sign. *)
Definition split_sign (s : string) : bool * string :=
  match s with
  | String c tl => if (code c =? 45)%nat then (true, tl) else (false, s)
  | EmptyString => (false, s)
  end.

Definition parse_number (s : string) : option (number * string) :=
  let '(neg, s1) := split_sign s in
  '(ip, s2) ← parse_int_part s1;
  '(fp, s3) ← parse_frac_part s2;
  '(e, s4) ← parse_exp_part s3;
  let m := digits_val (ip ++ fp) in
  let m := if neg then (- m)%Z else m in
  Some (scaled m (e - Z.of_nat (length fp)), s4).

(** ** Strings *)

Definition hex_val (c : ascii) : option nat :=
  let n := code c in
  if (48 <=? n)%nat && (n <=? 57)%nat then Some (n - 48)
  else if (97 <=? n)%nat && (n <=? 102)%nat then Some (n - 87)
  else if (65 <=? n)%nat && (n <=? 70)%nat then Some (n - 55)
  else None.

Definition hex4 (a b c d : ascii) : option nat :=
  x ← hex_val a; y ← hex_val b; z ← hex_val c; w ← hex_val d;
  Some (((x * 16 + y) * 16 + z) * 16 + w).

(** A code unit as characters: itself below 128, its UTF-8 bytes above. *)
Definition unit_chars (u : nat) : list ascii :=
  if (u <? 128)%nat then [ascii_of_nat u]
  else if (u <? 2048)%nat then
    [ascii_of_nat (192 + u / 64); ascii_of_nat (128 + u mod 64)]
  else
    [ascii_of_nat (224 + u / 4096); ascii_of_nat (128 + (u / 64) mod 64);
     ascii_of_nat (128 + u mod 64)].

Definition prepend (cs : list ascii) (r : option (string * string))
  : option (string * string) :=
  match r with
  | Some (str, rest) => Some (fold_right String str cs, rest)
  | None => None
  end.

(** The character an escape letter stands for. *)
Definition unescape (e : ascii) : option ascii :=
  let n := code e in
  if (n =? 34)%nat || (n =? 92)%nat || (n =? 47)%nat then Some e
  else if (n =? 98)%nat then Some (ascii_of_nat 8)
  else if (n =? 102)%nat then Some (ascii_of_nat 12)
  else if (n =? 110)%nat then Some (ascii_of_nat 10)
  else if (n =? 114)%nat then Some (ascii_of_nat 13)
  else if (n =? 116)%nat then Some (ascii_of_nat 9)
  else None.

(** The characters of a string literal, after its opening quote. *)
Fixpoint parse_chars (s : string) : option (string * string) :=
  match s with
  | EmptyString => None
  | String c tl =>
      if (code c =? 34)%nat then Some (EmptyString, tl)
      else if (code c =? 92)%nat then
        match tl with
        | String e tl' =>
            if (code e =? 117)%nat then
              match tl' with
              | String h1 (String h2 (String h3 (String h4 tl''))) =>
                  match hex4 h1 h2 h3 h4 with
                  | Some u => prepend (unit_chars u) (parse_chars tl'')
                  | None => None
                  end
              | _ => None
              end
            else
              match unescape e with
              | Some c' => prepend [c'] (parse_chars tl')
              | None => None
              end
        | EmptyString => None
        end
      else if (code c <? 32)%nat then None
      else prepend [c] (parse_chars tl)
  end.

(** ** Values *)

(** A literal name: the characters [lit], then the rest. *)
Fixpoint expect (lit : list ascii) (v : value) (s : string)
  : option (value * string) :=
  match lit with
  | [] => Some (v, s)
  | c :: lit' =>
      match s with
      | String c' tl => if Ascii.eqb c c' then expect lit' v tl else None
      | EmptyString => None
      end
  end.

(** The closing bracket of an empty array or object, after white space. *)
Definition closes (bracket : nat) (s : string) : option string :=
  match skip_ws s with
  | String c rest => if (code c =? bracket)%nat then Some rest else None
  | EmptyString => None
  end.

Fixpoint parse_value (fuel : nat) (s : string) : option (value * string) :=
  match fuel with
  | O => None
  | S fuel =>
      match skip_ws s with
      | EmptyString => None
      | String c tl =>
          if (code c =? 123)%nat then
            match closes 125 tl with
            | Some rest => Some (VObj [], rest)
            | None => parse_members fuel [] tl
            end
          else if (code c =? 91)%nat then
            match closes 93 tl with
            | Some rest => Some (VArr [], rest)
            | None => parse_elements fuel [] tl
            end
          else if (code c =? 34)%nat then
            '(str, rest) ← parse_chars tl; Some (VStr str, rest)
          else if (code c =? 116)%nat then
            expect ["r"; "u"; "e"] (VBool true) tl
          else if (code c =? 102)%nat then
            expect ["a"; "l"; "s"; "e"] (VBool false) tl
          else if (code c =? 110)%nat then
            expect ["u"; "l"; "l"] VNull tl
          else
            '(n, rest) ← parse_number (String c tl); Some (VNum n, rest)
      end
  end
with parse_elements (fuel : nat) (acc : list value) (s : string)
  : option (value * string) :=
  match fuel with
  | O => None
  | S fuel =>
      match parse_value fuel s with
      | Some (v, rest) =>
          match skip_ws rest with
          | String c rest' =>
              if (code c =? 44)%nat then parse_elements fuel (acc ++ [v]) rest'
              else if (code c =? 93)%nat then Some (VArr (acc ++ [v]), rest')
              else None
          | EmptyString => None
          end
      | None => None
      end
  end
with parse_members (fuel : nat) (acc : list (string * value)) (s : string)
  : option (value * string) :=
  match fuel with
  | O => None
  | S fuel =>
      match skip_ws s with
      | String q tl =>
          if negb (code q =? 34)%nat then None
          else
            match parse_chars tl with
            | Some (k, rest) =>
                match skip_ws rest with
                | String c rest' =>
                    if negb (code c =? 58)%nat then None
                    else
                      match parse_value fuel rest' with
                      | Some (v, rest'') =>
                          match skip_ws rest'' with
                          | String d r =>
                              if (code d =? 44)%nat then
                                parse_members fuel (obj_define k v acc) r
                              else if (code d =? 125)%nat then
                                Some (VObj (obj_define k v acc), r)
                              else None
                          | EmptyString => None
                          end
                      | None => None
                      end
                | EmptyString => None
                end
            | None => None
            end
      | EmptyString => None
      end
  end.

(** [JSON.parse]. *)
Definition parse_text (s : string) : option value :=
  match parse_value (2 * String.length s + 2) s with
  | Some (v, rest) =>
      match skip_ws rest with
      | EmptyString => Some v
      | _ => None
      end
  | None => None
  end.
(** ** Serialisation

    Every function writes its text in front of [rest]. *)

Definition dquote : ascii := ascii_of_nat 34.
Definition backslash : ascii := ascii_of_nat 92.
Definition newline : ascii := ascii_of_nat 10.

Definition emit (cs : list ascii) (rest : string) : string :=
  fold_right String rest cs.

Definition hex_digit (n : nat) : ascii :=
  if (n <? 10)%nat then ascii_of_nat (48 + n) else ascii_of_nat (87 + n).

(** QuoteJSONString, one character. *)
Definition escape_char (c : ascii) : list ascii :=
  match code c with
  | 34 => [backslash; dquote]
  | 92 => [backslash; backslash]
  | 8 => [backslash; "b"]
  | 12 => [backslash; "f"]
  | 10 => [backslash; "n"]
  | 13 => [backslash; "r"]
  | 9 => [backslash; "t"]
  | n =>
      if (n <? 32)%nat
      then [backslash; "u"; "0"; "0"; hex_digit (n / 16); hex_digit (n mod 16)]
      else [c]
  end.

Fixpoint emit_escaped (s : string) (rest : string) : string :=
  match s with
  | EmptyString => rest
  | String c tl => emit (escape_char c) (emit_escaped tl rest)
  end.

Definition emit_quoted (s : string) (rest : string) : string :=
  String dquote (emit_escaped s (String dquote rest)).

(** A number as it is written: sign, integer digits, fraction digits,
    exponent with its sign. *)
Record literal : Type := {
  lit_neg : bool;
  lit_int : list ascii;
  lit_frac : list ascii;
  lit_exp : option (bool * list ascii)
}.

Definition sign_chars (neg : bool) : list ascii :=
  if neg then ["-"] else [].

Definition frac_chars (fp : list ascii) : list ascii :=
  match fp with [] => [] | _ => "." :: fp end.

Definition exp_chars (ex : option (bool * list ascii)) : list ascii :=
  match ex with
  | None => []
  | Some (neg, ds) => "e" :: (if neg then "-" else "+") :: ds
  end.

Definition render (l : literal) : list ascii :=
  sign_chars (lit_neg l) ++ lit_int l ++ frac_chars (lit_frac l)
  ++ exp_chars (lit_exp l).

Definition digits_of (p : positive) : list ascii :=
  list_ascii_of_string (NilEmpty.string_of_uint (Pos.to_uint p)).

(** The digits without their trailing zeros, and how many were dropped. *)
Fixpoint strip_zeros (ds : list ascii) : list ascii * nat :=
  match ds with
  | [] => ([], 0)
  | c :: tl =>
      match strip_zeros tl with
      | ([], t) => if (code c =? 48)%nat then ([], S t) else ([c], t)
      | (r, t) => (c :: r, t)
      end
  end.

Definition zeros (n : nat) : list ascii := replicate n "0".

(** Number::toString on the significant digits [ds] of a number whose
    decimal point stands [n] places to the right of the first digit's
    left. *)
Definition number_literal (neg : bool) (ds : list ascii) (n : Z) : literal :=
  let k := Z.of_nat (length ds) in
  if (k <=? n)%Z && (n <=? 21)%Z then
    {| lit_neg := neg; lit_int := ds ++ zeros (Z.to_nat (n - k));
       lit_frac := []; lit_exp := None |}
  else if (0 <? n)%Z && (n <=? 21)%Z then
    {| lit_neg := neg; lit_int := take (Z.to_nat n) ds;
       lit_frac := drop (Z.to_nat n) ds; lit_exp := None |}
  else if (-6 <? n)%Z && (n <=? 0)%Z then
    {| lit_neg := neg; lit_int := ["0"];
       lit_frac := zeros (Z.to_nat (- n)) ++ ds; lit_exp := None |}
  else
    let e := (n - 1)%Z in
    {| lit_neg := neg; lit_int := take 1 ds; lit_frac := drop 1 ds;
       lit_exp := Some ((e <? 0)%Z,
                        match Z.abs e with
                        | Zpos p => digits_of p
                        | _ => ["0"]
                        end) |}.

Definition number_chars (x : number) : list ascii :=
  let lit neg p :=
    let '(ds, t) := strip_zeros (digits_of p) in
    number_literal neg ds
      (Z.of_nat (length ds) + Z.of_nat t - Z.of_nat (scale x)) in
  match unscaled x with
  | Z0 => ["0"]
  | Zpos p => render (lit false p)
  | Zneg p => render (lit true p)
  end.

(** Two spaces for each level. *)
Definition emit_indent (depth : nat) (rest : string) : string :=
  emit (replicate (2 * depth) " ") rest.

(** What precedes an item: a line break, after a comma unless the item
    is the first. *)
Definition emit_sep (first : bool) (depth : nat) (rest : string) : string :=
  if first then String newline (emit_indent depth rest)
  else String "," (String newline (emit_indent depth rest)).

(** The closing bracket: at once if nothing was written, on a line of
    its own otherwise. *)
Definition emit_close (first : bool) (depth : nat) (r : ascii) (rest : string)
  : string :=
  if first then String r rest
  else String newline (emit_indent depth (String r rest)).

(** The elements of an array at [depth]. *)
Definition emit_elems (emit_item : value -> string -> string) (depth : nat)
    (rest : string) : bool -> list value -> string :=
  fix go (first : bool) (xs : list value) : string :=
    match xs with
    | [] => emit_close first depth "]" rest
    | x :: tl => emit_sep first (S depth) (emit_item x (go false tl))
    end.

(** The entries of an object at [depth]; an [undefined] entry is left
    out. *)
Definition emit_entries (emit_item : value -> string -> string) (depth : nat)
    (rest : string) : bool -> list (string * value) -> string :=
  fix go (first : bool) (props : list (string * value)) : string :=
    match props with
    | [] => emit_close first depth "}" rest
    | (k, VUndefined) :: tl => go first tl
    | (k, x) :: tl =>
        emit_sep first (S depth)
          (emit_quoted k (String ":" (String " " (emit_item x (go false tl)))))
    end.

(** SerializeJSONProperty with a gap of two spaces; an [undefined] array
    element is written [null]. *)
Fixpoint emit_value (depth : nat) (v : value) (rest : string) : string :=
  match v with
  | VUndefined | VNull => emit ["n"; "u"; "l"; "l"] rest
  | VBool true => emit ["t"; "r"; "u"; "e"] rest
  | VBool false => emit ["f"; "a"; "l"; "s"; "e"] rest
  | VNum n => emit (number_chars n) rest
  | VStr s => emit_quoted s rest
  | VArr xs => String "[" (emit_elems (emit_value (S depth)) depth rest true xs)
  | VObj props =>
      String "{" (emit_entries (emit_value (S depth)) depth rest true props)
  end.

(** [JSON.stringify(v, null, 2)].  Applied to [undefined] itself the
    engine returns [undefined] where a text is expected; it is
    rendered by its name. *)
Definition stringify (v : value) : string :=
  match v with
  | VUndefined => "undefined"%string
  | _ => emit_value 0 v EmptyString
  end.

(** ** [String.prototype.trim] *)

Fixpoint trim_start (s : string) : string :=
  match s with
  | String c tl => if is_space c then trim_start tl else s
  | EmptyString => s
  end.

Fixpoint trim_end (s : string) : string :=
  match s with
  | String c tl =>
      match trim_end tl with
      | EmptyString => if is_space c then EmptyString else String c EmptyString
      | r => String c r
      end
  | EmptyString => s
  end.

Definition trim_text (s : string) : string := trim_end (trim_start s).

#[export] Instance engine : JsEngine := {|
  JSON_parse := parse_text;
  JSON_stringify := stringify;
  trim := trim_text
|}.

(** JSON text written with single quotes for readability. *)
Definition js (s : string) : string :=
  string_of_list_ascii
    (map (fun c => if (code c =? 39)%nat then dquote else c)
       (list_ascii_of_string s)).

(** ** Vocabulary for what the serialiser writes *)


(** The text continues no number: it does not start with a digit, a
    point or an exponent mark. *)
Definition ends_number (rest : string) : bool :=
  match rest with
  | EmptyString => true
  | String c _ =>
      negb (is_digit c) && negb (code c =? 46)%nat
      && negb (code c =? 101)%nat && negb (code c =? 69)%nat
  end.



(** The fuel the items of an array and of an object take. *)
Definition need_elems (need : value -> nat) : list value -> nat :=
  fix go (xs : list value) : nat :=
    match xs with
    | [] => 0
    | x :: tl => S (need x + go tl)
    end.

Definition need_entries (need : value -> nat) : list (string * value) -> nat :=
  fix go (props : list (string * value)) : nat :=
    match props with
    | [] => 0
    | (_, VUndefined) :: tl => go tl
    | (_, x) :: tl => S (need x + go tl)
    end.

(** Fuel that suffices to parse the text of a value. *)
Fixpoint need (v : value) : nat :=
  match v with
  | VArr xs => S (need_elems need xs)
  | VObj props => S (need_entries need props)
  | _ => 1
  end.


End Reference.

(* ===================================================================== *)
(** * The node modal: what it shows, and its buttons *)
(* ===================================================================== *)

(** The built-ins that the display code calls beside those of
    [JsEngine]: [JSON.stringify(v)], which writes no white space, and
    the text [String(n)] of a number. *)
Class JsText : Type := {
  JSON_stringify_flat : value -> string;
  Number_toString : number -> string
}.

(** A row of a node, [NodeData["text"][i]]: the program reads its [key],
    a string or [null], and its [value]. *)
Record NodeRow : Type := { row_key : option string; row_value : value }.

(** [row.key] where it is taken as a condition: a key that is neither
    [null] nor empty. *)
Definition key_of (row : NodeRow) : option string :=
  match row_key row with
  | Some k => if String.eqb k EmptyString then None else Some k
  | None => None
  end.

Definition quote_char : ascii := ascii_of_nat 34.

(** The template [`"${seg}"`]. *)
Definition quoted (seg : string) : string :=
  String quote_char (seg +:+ String quote_char EmptyString).

(** [xs.join(sep)]: the elements as strings, [sep] between them.  On a
    string and on an index ToString is ToPropertyKey. *)
Definition join (sep : string) (xs : list segment) : string :=
  String.concat sep (map prop_key xs).

Definition with_draft (s : string) (w : World) : World :=
  {| useJson := useJson w; useFile := useFile w; useGraph := useGraph w;
     editing := editing w; draft := s; baseline := baseline w;
     console := console w; alerts := alerts w |}.

Definition setDraft (s : string) : M unit := modify (with_draft s).

Section Display.
Context `{JsEngine} `{JsText}.

(** The rows of a node as JSON text: nothing for no rows, the bare value
    of a single row without a key, and otherwise the object that the
    rows with a key fill, [obj[row.key] = row.value], row after row. *)
Definition normalizeNodeData (nodeRows : option (list NodeRow)) : string :=
  match nodeRows with
  | None | Some [] => "{}"
  | Some ((row0 :: _) as rows) =>
      if (length rows =? 1)%nat && negb (bool_decide (is_Some (key_of row0)))
      then JSON_stringify_flat (row_value row0)
      else
        let obj :=
          fold_left
            (fun obj row =>
               match key_of row with
               | Some k => obj_define k (row_value row) obj
               | None => obj
               end)
            rows [] in
        JSON_stringify (VObj obj)
  end.

(** The path of a node in a notation like JSONPath:
    [`$[${segments.join("][")}]`]. *)
Definition jsonPathToString (p : option path) : string :=
  match p with
  | None | Some [] => "$"
  | Some path =>
      let segments :=
        map (fun seg => if typeof_number seg then seg
                        else SKey (quoted (prop_key seg))) path in
      "$[" +:+ join "][" segments +:+ "]"
  end.

(** [String(v)]; an array is joined with commas, its [null] and
    [undefined] elements left empty. *)
Fixpoint String_of (v : value) : string :=
  match v with
  | VUndefined => "undefined"
  | VNull => "null"
  | VBool true => "true"
  | VBool false => "false"
  | VNum n => Number_toString n
  | VStr s => s
  | VArr xs =>
      String.concat ","
        (map (fun x => if nullish x then EmptyString else String_of x) xs)
  | VObj _ => "[object Object]"
  end.

(** The constant [initialText] of the effect that refreshes the modal,
    for the value [full] read at the node's path and the rows
    [nodeData.text]. *)
Definition initialText (full : value) (text : option (list NodeRow))
  : string :=
  if negb (nullish full)
  then if typeof_object full then JSON_stringify full else String_of full
  else normalizeNodeData (Some (default [] text)).

(** The effect on [[nodeData, opened]]: it refreshes the contents of the
    modal when a node is opened or selected.  The rows [nodeData.text]
    of the selected node, which [NodeData] leaves out, are given beside
    it. *)
Definition refreshContents (nodeData : option NodeData)
    (text : option (list NodeRow)) : M unit :=
  match nodeData with
  | Some node =>
      jsonStr ← gets useJson;
      full ← readValueAtPath jsonStr (node_path node);
      let initialText := initialText full text in
      setDraft initialText;;
      setBaseline initialText
  | None => mret tt
  end.

(** The Edit button. *)
Definition beginEdit : M unit := setEditing true.

(** The Cancel button: the draft is the baseline again. *)
Definition revertEdit : M unit :=
  baseline ← gets baseline;
  setDraft baseline;;
  setEditing false.

(** The [keydown] listener, which the effect on [editing] installs while
    the modal is in edit mode. *)
Definition onKey (key : string) : M unit :=
  if String.eqb key "Escape" then revertEdit else mret tt.

(** What reaches the modal: its effect runs for a node, the user
    presses a button, types in the text area or presses a key. *)
Inductive event : Type :=
| NodeShown (nodeData : option NodeData) (text : option (list NodeRow))
| EditClicked
| CancelClicked
| SaveClicked (nodeData : option NodeData)
| DraftChanged (text : string)
| KeyDown (key : string).

(** An event is handled as the modal is rendered: the text area, the
    Cancel and Save buttons and the key listener exist while [editing],
    the Edit button otherwise, and Save is disabled while the draft is
    the baseline. *)
Definition handle (e : event) : M unit := fun w =>
  match e with
  | NodeShown nodeData text => refreshContents nodeData text w
  | EditClicked => if editing w then (Ok tt, w) else beginEdit w
  | CancelClicked => if editing w then revertEdit w else (Ok tt, w)
  | SaveClicked nodeData =>
      if editing w && negb (String.eqb (draft w) (baseline w))
      then commitEdit nodeData w
      else (Ok tt, w)
  | DraftChanged text => if editing w then setDraft text w else (Ok tt, w)
  | KeyDown key => if editing w then onKey key w else (Ok tt, w)
  end.

(** The world after a sequence of events. *)
Definition run (events : list event) (w : World) : World :=
  fold_left (fun w e => (handle e w).2) events w.
End Display.

(** The reference engine's [JSON.stringify(v)] and [String(n)]. *)
Module ReferenceText.
Import Reference.

Definition emit_comma (first : bool) (rest : string) : string :=
  if first then rest else String "," rest.

Fixpoint emit_flat (v : value) (rest : string) : string :=
  match v with
  | VUndefined | VNull => emit ["n"; "u"; "l"; "l"]%char rest
  | VBool true => emit ["t"; "r"; "u"; "e"]%char rest
  | VBool false => emit ["f"; "a"; "l"; "s"; "e"]%char rest
  | VNum n => emit (number_chars n) rest
  | VStr s => emit_quoted s rest
  | VArr xs =>
      String "["
        ((fix go (first : bool) (xs : list value) : string :=
            match xs with
            | [] => String "]" rest
            | x :: tl => emit_comma first (emit_flat x (go false tl))
            end) true xs)
  | VObj props =>
      String "{"
        ((fix go (first : bool) (props : list (string * value)) : string :=
            match props with
            | [] => String "}" rest
            | (k, VUndefined) :: tl => go first tl
            | (k, x) :: tl =>
                emit_comma first
                  (emit_quoted k (String ":" (emit_flat x (go false tl))))
            end) true props)
  end.

Definition stringify_flat (v : value) : string :=
  match v with
  | VUndefined => "undefined"
  | _ => emit_flat v EmptyString
  end.

Definition number_string (n : number) : string :=
  string_of_list_ascii (number_chars n).

#[export] Instance text : JsText := {|
  JSON_stringify_flat := stringify_flat;
  Number_toString := number_string
|}.
End ReferenceText.


(* ===================================================================== *)
(** * Vocabulary of the statements *)
(* ===================================================================== *)

(** The segment names a slot the value can hold once it is cloned: an
    array takes indices only. *)
Definition fits (c : value) (s : segment) : bool :=
  match c with
  | VArr _ => bool_decide (is_Some (array_index (prop_key s)))
  | _ => true
  end.

(** The document is container-compatible with the path: wherever the
    path meets an array of the document, its segment is an index. *)
Fixpoint compatible (root : value) (tokens : path) : bool :=
  match tokens with
  | [] => true
  | head :: rest =>
      fits root head
      && compatible (if is_container root then get_own root head
                     else VUndefined) rest
  end.

(** A mapping: a plain object, neither an array nor [null]. *)
Definition is_mapping (v : value) : bool :=
  match v with VObj _ => true | _ => false end.

(** The value has an own slot for the segment: a key of an object, an
    index within an array or a string. *)
Definition has_slot (v : value) (s : segment) : bool :=
  match v with
  | VObj props => bool_decide (is_Some (obj_lookup (prop_key s) props))
  | VArr xs =>
      match array_index (prop_key s) with
      | Some n => (n <? length xs)%nat
      | None => false
      end
  | VStr str =>
      match array_index (prop_key s) with
      | Some n => (n <? String.length str)%nat
      | None => false
      end
  | _ => false
  end.

(** A world to run the handlers in: an empty document, the modal closed. *)
Definition world0 : World :=
  {| useJson := "{}";
     useFile := {| contents := "{}"; hasChanges := false |};
     useGraph := GraphValue (VObj []);
     editing := false; draft := EmptyString; baseline := EmptyString;
     console := []; alerts := [] |}.

(** The modal while the user edits [text] over the document [doc], the
    graph store holding [g]. *)
Definition editing_world (doc text : string) (g : GraphData) : World :=
  {| useJson := doc;
     useFile := {| contents := doc; hasChanges := false |};
     useGraph := g;
     editing := true; draft := text; baseline := EmptyString;
     console := []; alerts := [] |}.

(** What the [try] block of [writeJsonAtPath] yields once the document
    is parsed. *)
Definition written `{JsEngine} (obj : value) (p : option path)
    (newValue : value) : result string :=
  match p with
  | None | Some [] => Ok (JSON_stringify newValue)
  | Some segs =>
      match write_loop obj segs newValue with
      | Ok obj' => Ok (JSON_stringify obj')
      | Throw e => Throw e
      end
  end.

(** The value [coerceInputValue] gives. *)
Definition coerced `{JsEngine} (content : string) : value :=
  if String.eqb (trim content) EmptyString then VStr EmptyString
  else match JSON_parse (trim content) with
       | Some v => v
       | None => VStr content
       end.

(** The world after [commitEdit] has pushed [updated] to the stores and
    left edit mode. *)
Definition published `{JsEngine} (updated draft : string) (w : World) : World :=
  with_baseline draft
    (with_editing false
       (with_graph
          match JSON_parse updated with
          | Some g => GraphValue g
          | None => GraphText updated
          end
          (with_file {| contents := updated; hasChanges := true |}
             (with_json updated w)))).


(** ** Objects as the engine keeps them *)

(** The own keys of an object in the engine's order: the integer-like
    keys ascending from [lo], then the other keys; no key twice. *)
Fixpoint ascending (lo : nat) (ks : list string) : bool :=
  match ks with
  | [] => true
  | k :: tl =>
      match array_index k with
      | Some n => (lo <=? n)%nat && ascending (S n) tl
      | None =>
          forallb (fun k' => bool_decide (array_index k' = None)) tl
          && bool_decide (NoDup ks)
      end
  end.

Definition engine_order {A : Type} (props : list (string * A)) : bool :=
  ascending 0 (map fst props).

(** A value all of whose objects list their keys in the engine's order,
    as every value that the engine has built does ([JSON.parse] of the
    reference engine among them). *)
Fixpoint well_kept (v : value) : bool :=
  match v with
  | VArr xs => forallb well_kept xs
  | VObj props =>
      engine_order props && forallb (fun kv => well_kept kv.2) props
  | _ => true
  end.

(** The path exists in the document: every segment names a slot of the
    container reached so far. *)
Fixpoint present (root : value) (tokens : path) : bool :=
  match tokens with
  | [] => true
  | head :: rest =>
      is_container root && has_slot root head
      && present (get_own root head) rest
  end.

(** The parents of the path's target exist: every segment but the last
    leads from a container to a container. *)
Fixpoint reachable (root : value) (tokens : path) : bool :=
  match tokens with
  | [] => true
  | [last] => is_container root
  | head :: rest => is_container root && reachable (get_own root head) rest
  end.

(** The own keys of the value, if it is an object, are in the engine's
    order. *)
Definition own_order (v : value) : bool :=
  match v with VObj props => engine_order props | _ => true end.

(** ** Vocabulary of the display's statements *)

(** The character occurs in the string. *)
Fixpoint mentions (c : ascii) (s : string) : bool :=
  match s with
  | EmptyString => false
  | String c' tl => Ascii.eqb c c' || mentions c tl
  end.

(** A segment whose key holds no double quote. *)
Definition quote_free (seg : segment) : bool :=
  match seg with
  | SKey k => negb (mentions quote_char k)
  | SIdx _ => true
  end.

(** The rows that have a key, as entries. *)
Definition keyed (rows : list NodeRow) : list (string * value) :=
  omap (fun row => k ← key_of row; Some (k, row_value row)) rows.

(** No [SaveClicked] among the events. *)
Definition no_save (events : list event) : bool :=
  forallb (fun e => match e with SaveClicked _ => false | _ => true end)
    events.

(** Each text in brackets, one after the other. *)
Fixpoint bracketed (xs : list string) : string :=
  match xs with
  | [] => EmptyString
  | x :: tl => "[" +:+ x +:+ "]" +:+ bracketed tl
  end.

(** A segment as [jsonPathToString] writes it. *)
Definition segment_text (seg : segment) : string :=
  match seg with
  | SKey k => quoted k
  | SIdx n => index_key n
  end.

(** The object that [normalizeNodeData] fills from the rows. *)
Definition rows_object (rows : list NodeRow) (obj : list (string * value))
  : list (string * value) :=
  fold_left
    (fun obj row =>
       match key_of row with
       | Some k => obj_define k (row_value row) obj
       | None => obj
       end)
    rows obj.

(** ** Where a property access is the access of a JSON slot

    [get_own] and [put_own] describe the slots of JSON data.  A read
    [v[k]] of the program finds more: the [length] of an array or of a
    string, and the members that a value inherits from its prototype
    ([constructor], [toString], [__proto__], ...); an assignment
    [c[k] = x] does other than define a slot when [k] is [__proto__]
    (the setter of [Object.prototype] takes it), when [c] is an array
    and [k] is [length] or no array index, and the engine orders a
    numeral key as an index only below 2^32 - 1.  A statement that
    depends on an access says, as a hypothesis, that the access is one
    of a slot. *)

(** A key that an assignment defines as an entry of a plain object, and
    that the engine orders as [obj_define] does: not [__proto__], and
    if a canonical numeral (as for [array_index]), an array index.  The
    bound is tested on the numeral itself. *)
Definition plain_key (k : string) : bool :=
  negb (String.eqb k "__proto__")
  && match NilEmpty.uint_of_string k with
     | Some d =>
         if uint_eq_dec (unorm d) d then (N.of_uint d <? 4294967295)%N
         else true
     | None => true
     end.

(** A path of such keys. *)
Definition plain_path (tokens : path) : bool :=
  forallb (fun s => plain_key (prop_key s)) tokens.

(** The key of the segment is the one [prop_key] gives: a number up to
    2^53 is written as its decimal numeral, as [index_key] writes every
    number. *)
Definition exact_key (s : segment) : bool :=
  match s with
  | SKey _ => true
  | SIdx n => (N.of_nat n <=? 9007199254740992)%N
  end.

(** What values inherit: [inherits v k] says that a prototype of [v]
    has a member named [k], as every object inherits [toString] and
    [constructor] and every array [push].  It is the engine's to say,
    and depends on the kind of [v] only. *)
Class JsInheritance : Type := { inherits : value -> string -> bool }.

(** The own slot that a segment names: an entry of an object, an
    element of an array, a character of a string. *)
Definition own_slot (v : value) (s : segment) : option value :=
  match v with
  | VObj props => obj_lookup (prop_key s) props
  | VArr xs => n ← array_index (prop_key s); xs !! n
  | VStr str =>
      n ← array_index (prop_key s);
      c ← String.get n str;
      Some (VStr (String c EmptyString))
  | _ => None
  end.

Section PlainAccess.
Context `{JsInheritance}.

(** The key names something of the value that is no slot of JSON data. *)
Definition beyond_data (v : value) (k : string) : bool :=
  String.eqb k "__proto__"
  || (String.eqb k "length"
      && match v with VArr _ | VStr _ => true | _ => false end)
  || inherits v k.

(** The read [v[s]] reads a slot, or finds nothing; the key read is the
    one that [prop_key] gives. *)
Definition plain_read (v : value) (s : segment) : bool :=
  exact_key s
  && (bool_decide (is_Some (own_slot v s))
      || negb (beyond_data v (prop_key s))).

(** Every read of the walk [current = current?.[path[i]]] from [v] is
    plain; from [null] and [undefined] nothing is read. *)
Fixpoint plain_walk (v : value) (segs : path) : bool :=
  match segs with
  | [] => true
  | s :: rest =>
      (nullish v || plain_read v s) && plain_walk (member_opt v s) rest
  end.

(** The assignment [v[s] = x] defines a slot of a container, or has no
    effect on what [JSON.stringify] writes (a name attached to an
    array); on a primitive it throws, which [__proto__] alone does
    not. *)
Definition plain_assign (v : value) (s : segment) : bool :=
  let k := prop_key s in
  match v with
  | VObj _ => bool_decide (is_Some (own_slot v s)) || plain_key k
  | VArr _ =>
      match array_index k with
      | Some _ => plain_key k
      | None => negb (String.eqb k "length") && plain_key k
      end
  | _ => negb (String.eqb k "__proto__")
  end.

(** Every access of the loop of [writeJsonAtPath] from [current] is
    plain, up to the access at which it throws. *)
Fixpoint plain_write (current : value) (segs : path) : bool :=
  match segs with
  | [] => true
  | [last] => nullish current || plain_assign current last
  | s :: rest =>
      nullish current
      || (plain_read current s && plain_write (get_own current s) rest)
  end.
End PlainAccess.

(** The position is the target of the path or above it. *)
Fixpoint above_or_at (tokens position : path) : bool :=
  match position, tokens with
  | [], _ => true
  | q :: position', p :: tokens' =>
      String.eqb (prop_key p) (prop_key q) && above_or_at tokens' position'
  | _ :: _, [] => false
  end.

(** The members of the prototypes of ECMAScript 2023, for the reference
    engine. *)
Module ReferenceInheritance.

Definition object_members : list string :=
  ["constructor"; "hasOwnProperty"; "isPrototypeOf"; "propertyIsEnumerable";
   "toLocaleString"; "toString"; "valueOf"; "__proto__";
   "__defineGetter__"; "__defineSetter__"; "__lookupGetter__";
   "__lookupSetter__"].

Definition array_members : list string :=
  ["at"; "concat"; "copyWithin"; "entries"; "every"; "fill"; "filter";
   "find"; "findIndex"; "findLast"; "findLastIndex"; "flat"; "flatMap";
   "forEach"; "includes"; "indexOf"; "join"; "keys"; "lastIndexOf"; "map";
   "pop"; "push"; "reduce"; "reduceRight"; "reverse"; "shift"; "slice";
   "some"; "sort"; "splice"; "toReversed"; "toSorted"; "toSpliced";
   "unshift"; "values"; "with"].

Definition string_members : list string :=
  ["anchor"; "at"; "big"; "blink"; "bold"; "charAt"; "charCodeAt";
   "codePointAt"; "concat"; "endsWith"; "fixed"; "fontcolor"; "fontsize";
   "includes"; "indexOf"; "isWellFormed"; "italics"; "lastIndexOf"; "link";
   "localeCompare"; "match"; "matchAll"; "normalize"; "padEnd"; "padStart";
   "repeat"; "replace"; "replaceAll"; "search"; "slice"; "small"; "split";
   "startsWith"; "strike"; "sub"; "substr"; "substring"; "sup";
   "toLocaleLowerCase"; "toLocaleUpperCase"; "toLowerCase"; "toUpperCase";
   "toWellFormed"; "trim"; "trimEnd"; "trimLeft"; "trimRight"; "trimStart"].

Definition number_members : list string :=
  ["toExponential"; "toFixed"; "toPrecision"].

Definition members (v : value) : list string :=
  match v with
  | VUndefined | VNull => []
  | VBool _ => object_members
  | VNum _ => number_members ++ object_members
  | VStr _ => string_members ++ object_members
  | VArr _ => array_members ++ object_members
  | VObj _ => object_members
  end.

#[export] Instance inheritance : JsInheritance := {|
  inherits v k := existsb (String.eqb k) (members v)
|}.
End ReferenceInheritance.

(* ===================================================================== *)
(** * Property keys and containers: basic facts *)
(* ===================================================================== *)

Lemma unorm_to_uint (n : nat) : unorm (Nat.to_uint n) = Nat.to_uint n.
Proof.
  rewrite <- (DecimalNat.Unsigned.of_to n) at 2.
  now rewrite DecimalNat.Unsigned.to_of.
Qed.

Lemma array_index_index_key (n : nat) : array_index (index_key n) = Some n.
Proof.
  unfold array_index, index_key.
  rewrite NilEmpty.usu, unorm_to_uint.
  destruct (uint_eq_dec _ _) as [_|Hne]; [|congruence].
  now rewrite DecimalNat.Unsigned.of_to.
Qed.

Lemma array_index_Some (k : string) (n : nat) :
  array_index k = Some n -> k = index_key n.
Proof.
  unfold array_index, index_key.
  destruct (NilEmpty.uint_of_string k) as [d|] eqn:Hk; [|discriminate].
  destruct (uint_eq_dec _ _) as [Hd|]; [|discriminate].
  intros [= <-].
  rewrite DecimalNat.Unsigned.to_of, Hd.
  symmetry. now apply NilEmpty.sus.
Qed.

Lemma array_index_inj (k k' : string) (n : nat) :
  array_index k = Some n -> array_index k' = Some n -> k = k'.
Proof.
  intros Hk Hk'.
  apply array_index_Some in Hk. apply array_index_Some in Hk'. congruence.
Qed.

Section ContainerFacts.
Context {A : Type} (undef : A).
Implicit Types (k : string) (v : A) (props : list (string * A)).

Lemma obj_lookup_replace_eq k v props :
  is_Some (obj_lookup k props) ->
  obj_lookup k (obj_replace k v props) = Some v.
Proof.
  induction props as [|[k' v'] tl IH]; simpl.
  - intros [? [=]].
  - destruct (String.eqb_spec k k') as [->|Hne]; simpl.
    + now rewrite String.eqb_refl.
    + intros Hs. destruct (String.eqb_spec k k'); [done|]. now apply IH.
Qed.

Lemma obj_lookup_replace_ne k k' v props :
  k <> k' -> obj_lookup k' (obj_replace k v props) = obj_lookup k' props.
Proof.
  intros Hne. induction props as [|[k0 v0] tl IH]; simpl; [done|].
  destruct (String.eqb_spec k k0) as [->|Hk]; simpl.
  - destruct (String.eqb_spec k' k0); [congruence|done].
  - now rewrite IH.
Qed.

Lemma obj_lookup_insert_index_eq n k v props :
  array_index k = Some n ->
  obj_lookup k (obj_insert_index n k v props) = Some v.
Proof.
  intros Hk. induction props as [|[k' v'] tl IH]; simpl.
  - now rewrite String.eqb_refl.
  - destruct (array_index k') as [n'|] eqn:Hk'; simpl.
    + destruct (n' <? n)%nat eqn:Hlt; simpl.
      * destruct (String.eqb_spec k k') as [->|_]; [|done].
        rewrite Hk in Hk'. injection Hk' as ->.
        apply Nat.ltb_lt in Hlt. lia.
      * now rewrite String.eqb_refl.
    + now rewrite String.eqb_refl.
Qed.

Lemma obj_lookup_insert_index_ne n k k' v props :
  k <> k' ->
  obj_lookup k' (obj_insert_index n k v props) = obj_lookup k' props.
Proof.
  intros Hne. induction props as [|[k0 v0] tl IH]; simpl.
  - destruct (String.eqb_spec k' k); [congruence|done].
  - destruct (array_index k0) as [n0|]; simpl.
    + destruct (n0 <? n)%nat; simpl.
      * now rewrite IH.
      * destruct (String.eqb_spec k' k); [congruence|done].
    + destruct (String.eqb_spec k' k); [congruence|done].
Qed.

Lemma obj_lookup_app k props props' :
  obj_lookup k (props ++ props') =
  match obj_lookup k props with
  | Some v => Some v
  | None => obj_lookup k props'
  end.
Proof.
  induction props as [|[k' v'] tl IH]; simpl; [done|].
  now destruct (String.eqb k k').
Qed.

(** Reading back the key just defined. *)
Lemma obj_lookup_define_eq k v props :
  obj_lookup k (obj_define k v props) = Some v.
Proof.
  unfold obj_define.
  destruct (obj_lookup k props) as [x|] eqn:Hk.
  - apply obj_lookup_replace_eq. now rewrite Hk.
  - destruct (array_index k) as [n|] eqn:Hi.
    + now apply obj_lookup_insert_index_eq.
    + rewrite obj_lookup_app, Hk. simpl. now rewrite String.eqb_refl.
Qed.

(** The other keys keep their values. *)
Lemma obj_lookup_define_ne k k' v props :
  k <> k' -> obj_lookup k' (obj_define k v props) = obj_lookup k' props.
Proof.
  intros Hne. unfold obj_define.
  destruct (obj_lookup k props) as [x|] eqn:Hk.
  - now apply obj_lookup_replace_ne.
  - destruct (array_index k) as [n|] eqn:Hi.
    + now apply obj_lookup_insert_index_ne.
    + rewrite obj_lookup_app. simpl.
      destruct (String.eqb_spec k' k); [congruence|].
      now destruct (obj_lookup k' props).
Qed.

Lemma obj_lookup_In k props :
  k ∈ map fst props <-> is_Some (obj_lookup k props).
Proof.
  induction props as [|[k' v'] tl IH]; simpl.
  - split; [intros Hin; inversion Hin|intros [? [=]]].
  - destruct (String.eqb_spec k k') as [->|Hne].
    + split; [eauto|intros _; left].
    + rewrite <- IH. split.
      * intros Hin. inversion Hin; subst; [done|assumption].
      * intros Hin. now right.
Qed.

Lemma obj_lookup_spread_keys k src (keys : list string) acc :
  obj_lookup k
    (fold_left
       (fun acc k => obj_define k (default undef (obj_lookup k src)) acc)
       keys acc) =
  if decide (k ∈ keys) then Some (default undef (obj_lookup k src))
  else obj_lookup k acc.
Proof.
  revert acc. induction keys as [|k0 keys IH]; intros acc; simpl.
  - destruct (decide (k ∈ [])) as [Hin|]; [inversion Hin|done].
  - rewrite IH.
    destruct (decide (k ∈ keys)) as [Hin|Hnin].
    + destruct (decide (k ∈ k0 :: keys)) as [|Hn]; [done|].
      exfalso. apply Hn. now right.
    + destruct (decide (k = k0)) as [->|Hne].
      * rewrite obj_lookup_define_eq.
        destruct (decide (k0 ∈ k0 :: keys)) as [|Hn]; [done|].
        exfalso. apply Hn. left.
      * rewrite obj_lookup_define_ne by congruence.
        destruct (decide (k ∈ k0 :: keys)) as [Hin|]; [|done].
        inversion Hin; subst; done.
Qed.

(** A spread copies every own property of its source over the
    accumulated object: the source's keys win, the others stay. *)
Lemma obj_lookup_spread k src acc :
  obj_lookup k (spread undef src acc) =
  match obj_lookup k src with
  | Some v => Some v
  | None => obj_lookup k acc
  end.
Proof.
  unfold spread. rewrite obj_lookup_spread_keys.
  destruct (decide (k ∈ map fst src)) as [Hin|Hnin].
  - apply obj_lookup_In in Hin as [x Hx]. now rewrite Hx.
  - destruct (obj_lookup k src) as [x|] eqn:Hx; [|done].
    exfalso. apply Hnin, obj_lookup_In. now rewrite Hx.
Qed.

Lemma arr_get_set_eq (xs : list A) n v :
  arr_get undef (arr_set undef xs n v) n = v.
Proof.
  unfold arr_get, arr_set.
  destruct (n <? length xs)%nat eqn:Hlt.
  - apply Nat.ltb_lt in Hlt. now rewrite list_lookup_insert_eq.
  - apply Nat.ltb_ge in Hlt.
    rewrite lookup_app_r by done.
    rewrite lookup_app_r by (rewrite length_replicate; lia).
    rewrite length_replicate.
    now replace (n - length xs - (n - length xs)) with 0 by lia.
Qed.

Lemma arr_get_set_ne (xs : list A) n n' v :
  n <> n' -> arr_get undef (arr_set undef xs n v) n' = arr_get undef xs n'.
Proof.
  intros Hne. unfold arr_get, arr_set.
  destruct (n <? length xs)%nat eqn:Hlt.
  - now rewrite list_lookup_insert_ne.
  - apply Nat.ltb_ge in Hlt.
    destruct (decide (n' < length xs)) as [Hin|Hout].
    + now rewrite lookup_app_l.
    + rewrite (lookup_ge_None_2 xs n') by lia.
      rewrite lookup_app_r by lia.
      destruct (decide (n' - length xs < n - length xs)) as [Hl|Hg].
      * rewrite lookup_app_l by (rewrite length_replicate; lia).
        now rewrite lookup_replicate_2.
      * rewrite lookup_app_r by (rewrite length_replicate; lia).
        rewrite length_replicate.
        rewrite lookup_ge_None_2; [done|simpl; lia].
Qed.
End ContainerFacts.

(* ===================================================================== *)
(** * Values: reading back what was written *)
(* ===================================================================== *)

Lemma get_own_put_own_eq (c : value) (s : segment) (x : value) :
  is_container c = true -> fits c s = true ->
  get_own (put_own c s x) s = x.
Proof.
  destruct c; try discriminate; intros _ Hfit; simpl in *.
  - apply bool_decide_eq_true in Hfit as [n Hn]. rewrite Hn. simpl.
    rewrite Hn. apply arr_get_set_eq.
  - now rewrite obj_lookup_define_eq.
Qed.

Lemma get_own_put_own_ne (c : value) (s s' : segment) (x : value) :
  prop_key s <> prop_key s' ->
  get_own (put_own c s x) s' = get_own c s'.
Proof.
  intros Hne. destruct c; simpl; try done.
  - destruct (array_index (prop_key s)) as [n|] eqn:Hn; simpl; [|done].
    destruct (array_index (prop_key s')) as [n'|] eqn:Hn'; [|done].
    apply arr_get_set_ne. intros ->. apply Hne.
    eapply array_index_inj; eauto.
  - now rewrite obj_lookup_define_ne.
Qed.

Lemma put_own_container (c : value) (s : segment) (x : value) :
  is_container (put_own c s x) = is_container c.
Proof. destruct c; simpl; try done. now destruct (array_index _). Qed.

Lemma clone_container (root : value) (head : segment) :
  is_container (clone root head) = true.
Proof.
  unfold clone.
  destruct root; simpl; rewrite ?andb_false_r; try done; now destruct head.
Qed.

(** The clone holds what the original holds; a fresh container holds
    nothing. *)
Lemma get_own_clone (root : value) (head s : segment) :
  get_own (clone root head) s =
  if is_container root then get_own root s else VUndefined.
Proof.
  unfold clone.
  destruct root; simpl; rewrite ?andb_false_r; try done;
    try (destruct head; simpl; try done; now destruct (array_index _)).
  rewrite obj_lookup_spread. now destruct (obj_lookup _ _).
Qed.

Lemma fits_clone (root : value) (head : segment) :
  fits root head = true -> fits (clone root head) head = true.
Proof.
  unfold clone.
  destruct root; simpl; rewrite ?andb_false_r; try done;
    destruct head; simpl; try done;
    intros _; apply bool_decide_eq_true; rewrite array_index_index_key; eauto.
Qed.

Lemma setAtPath_cons (root : value) (head : segment) (rest : path) (v : value) :
  setAtPath root (head :: rest) v =
  put_own (clone root head) head
    (setAtPath (get_own (clone root head) head) rest v).
Proof. now destruct rest. Qed.

Lemma read_loop_cons (obj : value) (s : segment) (segs : path) :
  read_loop obj (s :: segs) = read_loop (member_opt obj s) segs.
Proof. done. Qed.

Lemma member_opt_container (c : value) (s : segment) :
  is_container c = true -> member_opt c s = get_own c s.
Proof. now destruct c. Qed.

(** C3, on the paths whose keys are plain.  Round trip: for a document
    that is container-compatible with the path (wherever the path meets
    an array of the document, its segment is an index), and a path none
    of whose keys is [__proto__] or a numeral that is no array index,
    reading at the path after setting a value there returns exactly that
    value.  The statement covers every such path, the non-empty ones in
    particular.  At the key [__proto__] the program does otherwise:
    [cloned["__proto__"] = value] on a container without such an entry
    stores nothing and the read finds [Object.prototype]. *)
Theorem setAtPath_round_trip (D : value) (P : path) (V : value) :
  plain_path P = true ->
  compatible D P = true ->
  read_loop (setAtPath D P V) P = V.
Proof.
  intros _.
  revert D. induction P as [|head rest IH]; intros D Hc; [done|].
  simpl in Hc. apply andb_prop in Hc as [Hfit Hrest].
  rewrite setAtPath_cons, read_loop_cons.
  rewrite member_opt_container
    by (rewrite put_own_container; apply clone_container).
  rewrite get_own_put_own_eq
    by (apply clone_container || now apply fits_clone).
  apply IH. now rewrite get_own_clone.
Qed.

Lemma setAtPath_round_trip_witness :
  let D := VObj [("user", VObj [("name", VStr "Alice"); ("tags", VArr [VNull])])] in
  let P := [SKey "user"; SKey "tags"; SIdx 2; SKey "x"] in
  plain_path P = true /\ compatible D P = true /\
  read_loop (setAtPath D P (VNum (int 7))) P = VNum (int 7).
Proof.
  split; [reflexivity|]. split; [reflexivity|].
  apply setAtPath_round_trip; reflexivity.
Defined.

(* ===================================================================== *)
(** * Plain keys *)
(* ===================================================================== *)

Lemma tail_mul_10 (n : nat) : Nat.tail_mul 10 n = 10 * n.
Proof. now rewrite Nat.tail_mul_spec. Qed.

Lemma N_of_uint_acc (d : uint) (p : positive) :
  N.of_nat (Nat.of_uint_acc d (Pos.to_nat p)) = N.pos (Pos.of_uint_acc d p).
Proof.
  revert p. induction d; intros p; cbn [Nat.of_uint_acc Pos.of_uint_acc];
    rewrite ?tail_mul_10; [apply positive_nat_N|..];
    match goal with
    | |- _ = N.pos (Pos.of_uint_acc _ ?q) =>
        rewrite <- (IHd q); do 2 f_equal; lia
    end.
Qed.

(** A numeral read as a natural number and as a binary number. *)
Lemma N_of_uint (d : uint) : N.of_nat (Nat.of_uint d) = N.of_uint d.
Proof.
  unfold Nat.of_uint, N.of_uint.
  induction d; cbn [Nat.of_uint_acc Pos.of_uint]; rewrite ?tail_mul_10;
    [done|exact IHd|..];
    match goal with
    | |- _ = N.pos (Pos.of_uint_acc _ ?q) =>
        rewrite <- (N_of_uint_acc d q); do 2 f_equal; lia
    end.
Qed.

(** The numerals among the plain keys are the keys that [array_index]
    reads as an index below 2^32 - 1. *)
Lemma plain_key_array_index (k : string) :
  plain_key k =
  negb (String.eqb k "__proto__")
  && match array_index k with
     | Some n => (N.of_nat n <? 4294967295)%N
     | None => true
     end.
Proof.
  unfold plain_key, array_index. f_equal.
  destruct (NilEmpty.uint_of_string k) as [d|]; [|done].
  destruct (uint_eq_dec (unorm d) d); [|done]. now rewrite N_of_uint.
Qed.

(** An index segment below 2^32 - 1 is a plain key. *)
Lemma plain_key_index (n : nat) :
  (N.of_nat n <? 4294967295)%N = true -> plain_key (index_key n) = true.
Proof.
  intros Hn. rewrite plain_key_array_index, array_index_index_key, Hn.
  rewrite andb_true_r. apply negb_true_iff, String.eqb_neq.
  intros Hk. pose proof (array_index_index_key n) as Hi.
  rewrite Hk in Hi. vm_compute in Hi. discriminate Hi.
Qed.

(* ===================================================================== *)
(** * [setAtPath]: healing *)
(* ===================================================================== *)




(* ===================================================================== *)
(** * The merge policy of [commitEdit] *)
(* ===================================================================== *)

Section ModalFacts.
Context `{JsEngine}.

Lemma merged_guard (originalFull newValue : value) :
  truthy originalFull && typeof_object originalFull
    && negb (isArray originalFull)
    && truthy newValue && typeof_object newValue
    && negb (isArray newValue)
  = is_mapping originalFull && is_mapping newValue.
Proof.
  destruct originalFull; simpl; rewrite ?andb_false_r; try done;
    destruct newValue; simpl; rewrite ?andb_false_r; done.
Qed.

(** C4.  The committed value is the shallow merge exactly when the old
    and the proposed value are both mappings: then it is a mapping in
    which every key of the proposed value holds the proposed value's
    entry as it is, every other key of the old value holds the old
    entry, and there is no further key; in every other case it is the
    proposed value unchanged. *)
Theorem merged_policy (oldValue proposedValue : value) :
  (is_mapping oldValue && is_mapping proposedValue = true ->
   exists m, merged oldValue proposedValue = VObj m /\
     forall k, obj_lookup k m =
       match obj_lookup k (own_props proposedValue) with
       | Some v => Some v
       | None => obj_lookup k (own_props oldValue)
       end) /\
  (is_mapping oldValue && is_mapping proposedValue = false ->
   merged oldValue proposedValue = proposedValue).
Proof.
  unfold merged. rewrite merged_guard. split; intros ->; [|done].
  eexists; split; [done|].
  intros k. rewrite !obj_lookup_spread.
  destruct (obj_lookup k (own_props proposedValue)); [done|].
  now destruct (obj_lookup k (own_props oldValue)).
Qed.
End ModalFacts.

Lemma merged_policy_witness :
  let old := VObj [("a", VNum (int 1)); ("b", VNum (int 2))] in
  let new := VObj [("b", VNum (int 3)); ("c", VNum (int 4))] in
  is_mapping old && is_mapping new = true /\
  is_mapping (VArr [VNum (int 1)]) && is_mapping new = false /\
  merged old new =
    VObj [("a", VNum (int 1)); ("b", VNum (int 3)); ("c", VNum (int 4))] /\
  (exists m, merged old new = VObj m /\
     forall k, obj_lookup k m =
       match obj_lookup k (own_props new) with
       | Some v => Some v
       | None => obj_lookup k (own_props old)
       end) /\
  merged (VArr [VNum (int 1)]) new = new.
Proof.
  intros old new.
  split; [reflexivity|]. split; [reflexivity|]. split; [reflexivity|].
  split.
  - apply (proj1 (merged_policy old new)). reflexivity.
  - apply (proj2 (merged_policy (VArr [VNum (int 1)]) new)). reflexivity.
Defined.

(* ===================================================================== *)
(** * Running the helpers of the modal *)
(* ===================================================================== *)

Section RunFacts.
Context `{JsEngine}.

Lemma parse_run (text : string) (w : World) :
  parse text w =
  match JSON_parse text with
  | Some v => (Ok v, w)
  | None => (Throw SyntaxError, w)
  end.
Proof. unfold parse. now destruct (JSON_parse text). Qed.

Lemma readValueAtPath_try_run (json : string) (p : option path) (w : World) :
  readValueAtPath_try json p w =
  match JSON_parse json with
  | Some obj => (Ok (read_loop obj (default [] p)), w)
  | None => (Throw SyntaxError, w)
  end.
Proof.
  unfold readValueAtPath_try, mbind, M_bind. rewrite parse_run.
  destruct (JSON_parse json); [|done]. now destruct p as [[|]|].
Qed.

Lemma readValueAtPath_run (json : string) (p : option path) (w : World) :
  readValueAtPath json p w =
  match JSON_parse json with
  | Some obj => (Ok (read_loop obj (default [] p)), w)
  | None => (Ok VNull, log_error "Error retrieving value from JSON path:" w)
  end.
Proof.
  unfold readValueAtPath, try_catch. rewrite readValueAtPath_try_run.
  now destruct (JSON_parse json).
Qed.

Lemma writeJsonAtPath_try_run (json : string) (p : option path)
    (newValue : value) (w : World) :
  writeJsonAtPath_try json p newValue w =
  match JSON_parse json with
  | Some obj => (written obj p newValue, w)
  | None => (Throw SyntaxError, w)
  end.
Proof.
  unfold writeJsonAtPath_try, written, mbind, M_bind, lift.
  rewrite parse_run.
  destruct (JSON_parse json); [|done].
  destruct p as [[|s segs]|]; try done.
  now destruct (write_loop _ _ _).
Qed.

Lemma writeJsonAtPath_run (json : string) (p : option path)
    (newValue : value) (w : World) :
  writeJsonAtPath json p newValue w =
  match JSON_parse json with
  | Some obj =>
      match written obj p newValue with
      | Ok text => (Ok text, w)
      | Throw _ =>
          (Ok json, log_error "Error applying changes to JSON path:" w)
      end
  | None => (Ok json, log_error "Error applying changes to JSON path:" w)
  end.
Proof.
  unfold writeJsonAtPath, try_catch. rewrite writeJsonAtPath_try_run.
  destruct (JSON_parse json); [|done]. now destruct (written _ _ _).
Qed.

Lemma coerceInputValue_run (content : string) (w : World) :
  coerceInputValue content w =
  (Ok (if String.eqb (trim content) EmptyString then VStr EmptyString
       else match JSON_parse (trim content) with
            | Some v => v
            | None => VStr content
            end), w).
Proof.
  unfold coerceInputValue, try_catch.
  destruct (String.eqb _ _); [done|].
  rewrite parse_run. now destruct (JSON_parse _).
Qed.

(** The helpers touch the console only. *)
Lemma stores_log_error (msg : string) (w : World) :
  stores (log_error msg w) = stores w.
Proof. done. Qed.
End RunFacts.

(* ===================================================================== *)
(** * [coerceInputValue] *)
(* ===================================================================== *)

(** C7.  Input coercion: blank text (empty once trimmed) gives the empty
    string; otherwise, text whose trimmed form parses as JSON gives the
    parsed value; otherwise the raw text is accepted as a string value.
    The world is left as it was.  With the reference engine, [5] gives
    the number 5, the bare word [hello] the string [hello], and empty or
    blank text the empty string. *)
Theorem coerceInputValue_coerces :
  (forall (E : JsEngine) (content : string) (w : World),
      (trim content = EmptyString ->
       coerceInputValue content w = (Ok (VStr EmptyString), w)) /\
      (forall v, trim content <> EmptyString ->
                 JSON_parse (trim content) = Some v ->
                 coerceInputValue content w = (Ok v, w)) /\
      (trim content <> EmptyString ->
       JSON_parse (trim content) = None ->
       coerceInputValue content w = (Ok (VStr content), w))) /\
  (forall w : World,
      @coerceInputValue Reference.engine "5" w = (Ok (VNum (int 5)), w) /\
      @coerceInputValue Reference.engine "hello" w = (Ok (VStr "hello"), w) /\
      @coerceInputValue Reference.engine EmptyString w
        = (Ok (VStr EmptyString), w) /\
      @coerceInputValue Reference.engine "   " w = (Ok (VStr EmptyString), w)).
Proof.
  split.
  - intros E content w. rewrite coerceInputValue_run.
    destruct (String.eqb_spec (trim content) EmptyString) as [Heq|Hne].
    + split; [done|]. split; intros; congruence.
    + split; [congruence|]. split.
      * intros v _ ->. done.
      * intros _ ->. done.
  - intros w. repeat split.
Qed.

Lemma coerceInputValue_coerces_witness :
  @trim Reference.engine " " = EmptyString /\
  @trim Reference.engine " [1] " <> EmptyString /\
  @JSON_parse Reference.engine (@trim Reference.engine " [1] ")
    = Some (VArr [VNum (int 1)]) /\
  @trim Reference.engine " a b " <> EmptyString /\
  @JSON_parse Reference.engine (@trim Reference.engine " a b ") = None /\
  @coerceInputValue Reference.engine " " world0
    = (Ok (VStr EmptyString), world0) /\
  @coerceInputValue Reference.engine " [1] " world0
    = (Ok (VArr [VNum (int 1)]), world0) /\
  @coerceInputValue Reference.engine " a b " world0
    = (Ok (VStr " a b "), world0).
Proof.
  pose proof (proj1 coerceInputValue_coerces Reference.engine) as Hc.
  assert (H1 : @trim Reference.engine " " = EmptyString) by reflexivity.
  assert (H2 : @trim Reference.engine " [1] " <> EmptyString) by discriminate.
  assert (H3 : @JSON_parse Reference.engine (@trim Reference.engine " [1] ")
               = Some (VArr [VNum (int 1)])) by reflexivity.
  assert (H4 : @trim Reference.engine " a b " <> EmptyString) by discriminate.
  assert (H5 : @JSON_parse Reference.engine (@trim Reference.engine " a b ")
               = None) by reflexivity.
  split; [exact H1|]. split; [exact H2|]. split; [exact H3|].
  split; [exact H4|]. split; [exact H5|].
  split; [exact (proj1 (Hc " " world0) H1)|].
  split; [exact (proj1 (proj2 (Hc " [1] " world0)) _ H2 H3)|].
  exact (proj2 (proj2 (Hc " a b " world0)) H4 H5).
Defined.

(* ===================================================================== *)
(** * [readValueAtPath] *)
(* ===================================================================== *)

Lemma string_get_ge (str : string) (n : nat) :
  String.length str <= n -> String.get n str = None.
Proof.
  revert n. induction str as [|c tl IH]; intros n Hn; [done|].
  destruct n as [|n]; simpl in *; [lia|]. apply IH. lia.
Qed.

Lemma member_opt_no_slot (v : value) (s : segment) :
  has_slot v s = false -> member_opt v s = VUndefined.
Proof.
  destruct v as [| |b|n|str|xs|props];
    cbn [has_slot member_opt nullish get_own]; try done.
  - destruct (array_index (prop_key s)) as [n|]; [|done].
    intros Hn%Nat.ltb_ge. unfold str_get. now rewrite string_get_ge.
  - destruct (array_index (prop_key s)) as [n|]; [|done].
    intros Hn%Nat.ltb_ge. unfold arr_get. now rewrite lookup_ge_None_2.
  - intros Hn%bool_decide_eq_false.
    destruct (obj_lookup _ _) as [x|]; [|done]. exfalso. apply Hn. eauto.
Qed.

Lemma read_loop_undefined (segs : path) : read_loop VUndefined segs = VUndefined.
Proof. induction segs as [|s segs IH]; [done|]. apply IH. Qed.

Lemma read_loop_app (root : value) (pre post : path) :
  read_loop root (pre ++ post) = read_loop (read_loop root pre) post.
Proof. apply fold_left_app. Qed.

(** A read of the model is the read of the own slot. *)
Lemma member_opt_own_slot (v : value) (s : segment) (x : value) :
  own_slot v s = Some x -> member_opt v s = x.
Proof.
  destruct v as [| |b|n|str|xs|props];
    cbn [own_slot member_opt nullish get_own]; try done.
  - destruct (array_index (prop_key s)) as [n|]; cbn; [|done].
    unfold str_get. destruct (String.get n str); cbn; congruence.
  - destruct (array_index (prop_key s)) as [n|]; cbn; [|done].
    unfold arr_get. now intros ->.
  - now intros ->.
Qed.

Lemma member_opt_no_own_slot (v : value) (s : segment) :
  own_slot v s = None -> member_opt v s = VUndefined.
Proof.
  destruct v as [| |b|n|str|xs|props];
    cbn [own_slot member_opt nullish get_own]; try done.
  - destruct (array_index (prop_key s)) as [n|]; cbn; [|done].
    unfold str_get. now destruct (String.get n str).
  - destruct (array_index (prop_key s)) as [n|]; cbn; [|done].
    unfold arr_get. now intros ->.
  - now intros ->.
Qed.

Lemma member_opt_nullish (v : value) (s : segment) :
  nullish v = true -> member_opt v s = VUndefined.
Proof. unfold member_opt. now intros ->. Qed.

(** C8, as amended.  [readValueAtPath] never writes to a store.  On a
    document that parses it returns the root itself for no path and for
    the empty path (also when the root is [null]), and otherwise walks
    the segments from left to right.  As long as the walk has read slots
    only: a step at a segment that names an own slot of the current
    value (a key of an object, an index within an array or within a
    string) yields what the slot holds; at the first step where the
    current value is [null] or [undefined], or has no own slot for the
    segment and nothing else by that name either (no [length], no
    inherited member: the read is plain and finds no slot), the result
    is [undefined], whatever segments follow.  A boolean and a number
    have no own slot. *)
Theorem readValueAtPath_walks :
  (forall (E : JsEngine) (json : string) (p : option path) (w : World),
      stores (readValueAtPath json p w).2 = stores w) /\
  (forall (E : JsEngine) (json : string) (root : value) (w : World),
      JSON_parse json = Some root ->
      readValueAtPath json None w = (Ok root, w) /\
      readValueAtPath json (Some []) w = (Ok root, w)) /\
  (forall (E : JsEngine) (I : JsInheritance) (json : string)
          (root current : value) (pre : path) (s : segment) (w : World),
      JSON_parse json = Some root ->
      plain_walk root pre = true ->
      readValueAtPath json (Some pre) w = (Ok current, w) ->
      (forall x : value,
          plain_read current s = true ->
          own_slot current s = Some x ->
          readValueAtPath json (Some (pre ++ [s])) w = (Ok x, w)) /\
      (nullish current = true \/
       (plain_read current s = true /\ own_slot current s = None) ->
       forall post : path,
         readValueAtPath json (Some (pre ++ s :: post)) w
         = (Ok VUndefined, w))) /\
  (forall (v : value) (s : segment),
      is_container v = false -> (forall str, v <> VStr str) ->
      own_slot v s = None).
Proof.
  split; [|split; [|split]].
  - intros E json p w. rewrite readValueAtPath_run.
    now destruct (JSON_parse json).
  - intros E json root w Hroot.
    now rewrite !readValueAtPath_run, Hroot.
  - intros E I json root current pre s w Hroot _ Hpre.
    rewrite readValueAtPath_run, Hroot in Hpre.
    change (default [] (Some pre)) with pre in Hpre.
    injection Hpre as <-. split.
    + intros x _ Hx. rewrite readValueAtPath_run, Hroot.
      change (default [] (Some (pre ++ [s]))) with (pre ++ [s]).
      rewrite read_loop_app. cbn [read_loop fold_left].
      now rewrite (member_opt_own_slot _ _ _ Hx).
    + intros Hstop post. rewrite readValueAtPath_run, Hroot.
      change (default [] (Some (pre ++ s :: post))) with (pre ++ s :: post).
      rewrite read_loop_app, read_loop_cons.
      destruct Hstop as [Hnull|[_ Hnone]].
      * rewrite member_opt_nullish by done. now rewrite read_loop_undefined.
      * rewrite member_opt_no_own_slot by done.
        now rewrite read_loop_undefined.
  - intros v s Hc Hs. destruct v as [| |b|n|str|xs|props]; try done.
    now destruct (Hs str).
Qed.

Lemma readValueAtPath_walks_witness :
  let json := Reference.js "{'a':[10,null],'b':true}" in
  let read p := @readValueAtPath Reference.engine json (Some p) world0 in
  read ([SKey "a"] ++ [SIdx 0]) = (Ok (VNum (int 10)), world0) /\
  read ([SKey "a"; SIdx 1] ++ SKey "x" :: [SIdx 3]) = (Ok VUndefined, world0) /\
  read ([SKey "b"] ++ SKey "x" :: []) = (Ok VUndefined, world0) /\
  read ([] ++ SKey "c" :: [SKey "d"]) = (Ok VUndefined, world0).
Proof.
  intros json read.
  pose (root := VObj [("a", VArr [VNum (int 10); VNull]); ("b", VBool true)]).
  pose proof (proj1 (proj2 (proj2 readValueAtPath_walks)) Reference.engine
                ReferenceInheritance.inheritance json root) as Hwalk.
  assert (Hp : @JSON_parse Reference.engine json = Some root) by reflexivity.
  split; [|split; [|split]].
  - apply (proj1 (Hwalk (VArr [VNum (int 10); VNull]) [SKey "a"] (SIdx 0)
                    world0 Hp eq_refl eq_refl)); reflexivity.
  - apply (proj2 (Hwalk VNull [SKey "a"; SIdx 1] (SKey "x")
                    world0 Hp eq_refl eq_refl)).
    now left.
  - apply (proj2 (Hwalk (VBool true) [SKey "b"] (SKey "x")
                    world0 Hp eq_refl eq_refl)).
    right. split; reflexivity.
  - apply (proj2 (Hwalk root [] (SKey "c") world0 Hp eq_refl eq_refl)).
    right. split; reflexivity.
Defined.

(** C8 as it is stated fails on a string: a string is not a container,
    yet a numeric segment within its length reads the character there,
    an own slot of the string.  [readValueAtPath('"abc"', [0])] is
    ["a"], not [undefined]. *)
Lemma readValueAtPath_string_counterexample :
  @JSON_parse Reference.engine (Reference.js "'abc'") = Some (VStr "abc") /\
  is_container (VStr "abc") = false /\
  @readValueAtPath Reference.engine (Reference.js "'abc'") (Some [SIdx 0]) world0
    = (Ok (VStr "a"), world0) /\
  VStr "a" <> VUndefined /\
  ~ (forall (root : value) (pre : path) (s : segment) (post : path),
        is_container (read_loop root pre) = false ->
        read_loop root (pre ++ s :: post) = VUndefined).
Proof.
  split; [reflexivity|]. split; [reflexivity|]. split; [reflexivity|].
  split; [discriminate|].
  intros Hclaim.
  specialize (Hclaim (VStr "abc") [] (SIdx 0) [] eq_refl). discriminate Hclaim.
Qed.

(* ===================================================================== *)
(** * [writeJsonAtPath] *)
(* ===================================================================== *)

Lemma write_loop_cons (c : value) (s s' : segment) (rest : path) (v : value) :
  write_loop c (s :: s' :: rest) v =
  match member c s with
  | Throw e => Throw e
  | Ok next =>
      match write_loop next (s' :: rest) v with
      | Throw e => Throw e
      | Ok next' => Ok (put_own c s next')
      end
  end.
Proof. done. Qed.

Lemma get_own_non_container (c : value) (s : segment) :
  is_container c = false -> is_container (get_own c s) = false.
Proof.
  destruct c as [| |b|n|str|xs|props]; cbn [get_own is_container]; try done.
  intros _. destruct (array_index (prop_key s)) as [i|]; [|done].
  unfold str_get. now destruct (String.get i str).
Qed.

(** Below a value that is no container the loop cannot complete: the
    walk reads [undefined] or a character and the next access throws. *)
Lemma write_loop_non_container (c : value) (segs : path) (v : value) :
  segs <> [] -> is_container c = false ->
  write_loop c segs v = Throw TypeError.
Proof.
  revert c. induction segs as [|s [|s' rest] IH]; intros c Hne Hc; [done| |].
  - cbn [write_loop]. unfold assign. now rewrite Hc.
  - rewrite write_loop_cons. unfold member.
    destruct (nullish c); [done|]. cbv beta iota.
    rewrite IH; [done|done|]. now apply get_own_non_container.
Qed.

Lemma write_loop_stuck (obj : value) (pre : path) (s : segment) (post : path)
    (v : value) :
  is_container (read_loop obj pre) = false ->
  write_loop obj (pre ++ s :: post) v = Throw TypeError.
Proof.
  revert obj. induction pre as [|s0 pre IH]; intros obj Hc.
  - now apply write_loop_non_container.
  - rewrite read_loop_cons in Hc.
    change ((s0 :: pre) ++ s :: post) with (s0 :: (pre ++ s :: post)).
    destruct (pre ++ s :: post) as [|s' rest] eqn:Hrest;
      [now destruct pre|].
    rewrite write_loop_cons. unfold member.
    unfold member_opt in Hc.
    destruct (nullish obj); [done|]. cbv beta iota.
    rewrite IH; done.
Qed.

(** C9, on the paths whose accesses are plain.  The error branch of
    [writeJsonAtPath] is the identity on the document text: for a text
    that does not parse, and for a parsed document whose traversal
    reaches a value that is missing or no container before the path
    ends, every access of the traversal up to there being the access of
    a slot, the function returns the text it was given; no exception
    escapes, no healed structure is written, and the only effect is a
    message on the console.  At a segment that names an inherited member
    the program does otherwise: through [__proto__] the loop reaches
    [Object.prototype], the assignment succeeds there, and the document
    is returned re-rendered with nothing logged. *)
Theorem writeJsonAtPath_error_identity
    (E : JsEngine) (I : JsInheritance) (json : string) (p : option path)
    (newValue : value) (w : World) :
  (JSON_parse json = None ->
   writeJsonAtPath json p newValue w =
     (Ok json, log_error "Error applying changes to JSON path:" w)) /\
  (forall (obj : value) (pre : path) (s : segment) (post : path),
      JSON_parse json = Some obj ->
      p = Some (pre ++ s :: post) ->
      plain_write obj (pre ++ s :: post) = true ->
      is_container (read_loop obj pre) = false ->
      writeJsonAtPath json p newValue w =
        (Ok json, log_error "Error applying changes to JSON path:" w)).
Proof.
  rewrite writeJsonAtPath_run. split.
  - now intros ->.
  - intros obj pre s post -> -> _ Hc. unfold written.
    destruct (pre ++ s :: post) as [|s' rest] eqn:Hsegs; [now destruct pre|].
    rewrite <- Hsegs, write_loop_stuck; done.
Qed.

Lemma writeJsonAtPath_error_identity_witness :
  let bad := "{invalid" in
  let doc := Reference.js "{'a':{'b':null},'n':5}" in
  let obj := VObj [("a", VObj [("b", VNull)]); ("n", VNum (int 5))] in
  let I := ReferenceInheritance.inheritance in
  @JSON_parse Reference.engine bad = None /\
  @JSON_parse Reference.engine doc = Some obj /\
  plain_write obj ([SKey "a"; SKey "b"] ++ SKey "c" :: []) = true /\
  plain_write obj ([SKey "missing"] ++ SIdx 0 :: [SKey "x"]) = true /\
  plain_write obj ([SKey "n"] ++ SKey "x" :: []) = true /\
  (@writeJsonAtPath Reference.engine bad (Some [SKey "a"]) VNull world0).1
    = Ok bad /\
  (@writeJsonAtPath Reference.engine doc
     (Some ([SKey "a"; SKey "b"] ++ SKey "c" :: [])) (VBool true) world0).1
    = Ok doc /\
  (@writeJsonAtPath Reference.engine doc
     (Some ([SKey "missing"] ++ SIdx 0 :: [SKey "x"])) (VBool true) world0).1
    = Ok doc /\
  (@writeJsonAtPath Reference.engine doc
     (Some ([SKey "n"] ++ SKey "x" :: [])) (VBool true) world0).1
    = Ok doc.
Proof.
  intros bad doc obj I.
  assert (Hbad : @JSON_parse Reference.engine bad = None) by reflexivity.
  assert (Hdoc : @JSON_parse Reference.engine doc = Some obj) by reflexivity.
  split; [exact Hbad|]. split; [exact Hdoc|].
  split; [reflexivity|]. split; [reflexivity|]. split; [reflexivity|].
  split.
  { now rewrite (proj1 (writeJsonAtPath_error_identity Reference.engine I
                          bad (Some [SKey "a"]) VNull world0) Hbad). }
  split.
  { now rewrite (proj2 (writeJsonAtPath_error_identity Reference.engine I
                          doc _ (VBool true) world0)
                   obj [SKey "a"; SKey "b"] (SKey "c") [] Hdoc eq_refl
                   eq_refl eq_refl). }
  split.
  { now rewrite (proj2 (writeJsonAtPath_error_identity Reference.engine I
                          doc _ (VBool true) world0)
                   obj [SKey "missing"] (SIdx 0) [SKey "x"] Hdoc eq_refl
                   eq_refl eq_refl). }
  now rewrite (proj2 (writeJsonAtPath_error_identity Reference.engine I
                        doc _ (VBool true) world0)
                 obj [SKey "n"] (SKey "x") [] Hdoc eq_refl eq_refl eq_refl).
Defined.

(* ===================================================================== *)
(** * Totality of the helpers *)
(* ===================================================================== *)

(** C10.  [readValueAtPath], [writeJsonAtPath] and [coerceInputValue]
    return normally on every input: whenever the [try] block throws, be
    it at parsing or during the traversal, the exception is caught and
    the fallback is returned: [null] from [readValueAtPath], the text
    given from [writeJsonAtPath], the raw text from
    [coerceInputValue]. *)
Theorem helpers_never_throw
    (E : JsEngine) (json content : string) (p : option path) (newValue : value)
    (w : World) :
  ((exists r w', readValueAtPath json p w = (Ok r, w')) /\
   (forall e w', readValueAtPath_try json p w = (Throw e, w') ->
                 (readValueAtPath json p w).1 = Ok VNull)) /\
  ((exists r w', writeJsonAtPath json p newValue w = (Ok r, w')) /\
   (forall e w', writeJsonAtPath_try json p newValue w = (Throw e, w') ->
                 (writeJsonAtPath json p newValue w).1 = Ok json)) /\
  ((exists r w', coerceInputValue content w = (Ok r, w')) /\
   (forall e w', trim content <> EmptyString ->
                 parse (trim content) w = (Throw e, w') ->
                 (coerceInputValue content w).1 = Ok (VStr content))).
Proof.
  split; [|split].
  - rewrite readValueAtPath_run, readValueAtPath_try_run.
    destruct (JSON_parse json); split; eauto; intros e w' [=].
  - rewrite writeJsonAtPath_run, writeJsonAtPath_try_run.
    destruct (JSON_parse json) as [obj|]; [|split; eauto].
    destruct (written obj p newValue); split; eauto; intros e' w' [=].
  - rewrite coerceInputValue_run, parse_run. split; [eauto|].
    intros e w' Hne.
    destruct (String.eqb_spec (trim content) EmptyString); [done|].
    now destruct (JSON_parse (trim content)).
Qed.

Lemma helpers_never_throw_witness :
  let doc := Reference.js "{'a':null}" in
  @readValueAtPath_try Reference.engine "{invalid" None world0
    = (Throw SyntaxError, world0) /\
  @writeJsonAtPath_try Reference.engine doc (Some [SKey "a"; SKey "b"])
      VNull world0 = (Throw TypeError, world0) /\
  @trim Reference.engine "hello" <> EmptyString /\
  @parse Reference.engine (@trim Reference.engine "hello") world0
    = (Throw SyntaxError, world0) /\
  (@readValueAtPath Reference.engine "{invalid" None world0).1 = Ok VNull /\
  (@writeJsonAtPath Reference.engine doc (Some [SKey "a"; SKey "b"])
      VNull world0).1 = Ok doc /\
  (@coerceInputValue Reference.engine "hello" world0).1 = Ok (VStr "hello").
Proof.
  intros doc.
  pose proof (helpers_never_throw Reference.engine "{invalid" "hello" None
                VNull world0) as (Hread & _ & Hcoerce).
  pose proof (helpers_never_throw Reference.engine doc "hello"
                (Some [SKey "a"; SKey "b"]) VNull world0) as (_ & Hwrite & _).
  assert (H1 : @readValueAtPath_try Reference.engine "{invalid" None world0
               = (Throw SyntaxError, world0)) by reflexivity.
  assert (H2 : @writeJsonAtPath_try Reference.engine doc
                 (Some [SKey "a"; SKey "b"]) VNull world0
               = (Throw TypeError, world0)) by reflexivity.
  assert (H3 : @trim Reference.engine "hello" <> EmptyString) by discriminate.
  assert (H4 : @parse Reference.engine (@trim Reference.engine "hello") world0
               = (Throw SyntaxError, world0)) by reflexivity.
  split; [exact H1|]. split; [exact H2|]. split; [exact H3|]. split; [exact H4|].
  split; [exact (proj2 Hread _ _ H1)|].
  split; [exact (proj2 Hwrite _ _ H2)|].
  exact (proj2 Hcoerce _ _ H3 H4).
Defined.

(* ===================================================================== *)
(** * The reference engine reads what it writes *)
(* ===================================================================== *)

Section ReferenceFacts.
Import Reference.
Local Open Scope char_scope.





































Lemma ends_number_close (depth : nat) (r : ascii) (rest : string) :
  ends_number (emit_close false depth r rest) = true.
Proof. reflexivity. Qed.

Lemma ends_number_sep (depth : nat) (rest : string) :
  ends_number (emit_sep false depth rest) = true.
Proof. reflexivity. Qed.
















Lemma length_skip_ws (s : string) : String.length (skip_ws s) <= String.length s.
Proof.
  induction s as [|c tl IH]; [done|]. cbn. destruct (is_ws c); cbn; lia.
Qed.

Lemma length_span_digits (s : string) :
  String.length (span_digits s).2 <= String.length s.
Proof.
  induction s as [|c tl IH]; [done|]. cbn.
  destruct (is_digit c); [|cbn; lia].
  destruct (span_digits tl) as [ds rest]. cbn in *. lia.
Qed.

Lemma prepend_Some cs r str rest :
  prepend cs r = Some (str, rest) -> exists str', r = Some (str', rest).
Proof. destruct r as [[str' rest']|]; [|done]. intros [= _ <-]. eauto. Qed.

(** A string literal takes at least its closing quote. *)
Lemma length_parse_chars (n : nat) :
  forall s str rest,
    String.length s <= n -> parse_chars s = Some (str, rest) ->
    String.length rest < String.length s.
Proof.
  induction n as [|n IH]; intros s str rest Hn.
  - destruct s; [done|cbn in Hn; lia].
  - destruct s as [|c tl]; [done|]. cbn [parse_chars]. cbn in Hn.
    destruct (code c =? 34)%nat.
    { intros [= _ <-]. cbn. lia. }
    destruct (code c =? 92)%nat.
    + destruct tl as [|e tl']; [done|]. cbn in Hn.
      destruct (code e =? 117)%nat.
      * destruct tl' as [|h1 [|h2 [|h3 [|h4 tl'']]]]; try done.
        destruct (hex4 h1 h2 h3 h4); [|done].
        intros Hp. apply prepend_Some in Hp as [str' Hp].
        apply IH in Hp; cbn in *; lia.
      * destruct (unescape e); [|done].
        intros Hp. apply prepend_Some in Hp as [str' Hp].
        apply IH in Hp; cbn in *; lia.
    + destruct (code c <? 32)%nat; [done|].
      intros Hp. apply prepend_Some in Hp as [str' Hp].
      apply IH in Hp; cbn in *; lia.
Qed.

Lemma length_expect (lit : list ascii) (v v' : value) :
  forall s r, expect lit v s = Some (v', r) -> String.length r <= String.length s.
Proof.
  induction lit as [|c lit IH]; intros s r; cbn [expect].
  - now intros [= _ <-].
  - destruct s as [|c' tl]; [done|]. destruct (Ascii.eqb c c'); [|done].
    intros Hr. apply IH in Hr. cbn. lia.
Qed.

Lemma length_split_sign (s : string) :
  String.length (split_sign s).2 <= String.length s.
Proof.
  destruct s as [|c tl]; [done|]. cbn.
  destruct (code c =? 45)%nat; cbn; lia.
Qed.

Lemma length_parse_int_part (s : string) ip r :
  parse_int_part s = Some (ip, r) -> String.length r < String.length s.
Proof.
  unfold parse_int_part. destruct s as [|c tl]; [done|].
  destruct (is_digit c) eqn:Hc; [|done]. cbn [negb].
  destruct (code c =? 48)%nat.
  - intros [= _ <-]. cbn. lia.
  - pose proof (length_span_digits tl) as Hl.
    cbn [span_digits]. rewrite Hc.
    destruct (span_digits tl) as [ds rest]. intros [= _ <-]. cbn in *. lia.
Qed.

Lemma length_parse_frac_part (s : string) fp r :
  parse_frac_part s = Some (fp, r) -> String.length r <= String.length s.
Proof.
  unfold parse_frac_part. destruct s as [|c tl]; [now intros [= _ <-]|].
  destruct (code c =? 46)%nat; [|now intros [= _ <-]].
  pose proof (length_span_digits tl) as Hl.
  destruct (span_digits tl) as [[|d ds] rest]; [done|].
  intros [= _ <-]. cbn in *. lia.
Qed.

Lemma length_parse_exp_digits neg (s : string) e r :
  parse_exp_digits neg s = Some (e, r) -> String.length r <= String.length s.
Proof.
  unfold parse_exp_digits. pose proof (length_span_digits s) as Hl.
  destruct (span_digits s) as [[|d ds] rest]; [done|].
  intros [= _ <-]. exact Hl.
Qed.

Lemma length_parse_exp_part (s : string) e r :
  parse_exp_part s = Some (e, r) -> String.length r <= String.length s.
Proof.
  unfold parse_exp_part. destruct s as [|c tl]; [now intros [= _ <-]|].
  destruct (_ || _); [|now intros [= _ <-]].
  unfold parse_exp_sign. destruct tl as [|c' tl']; [done|].
  destruct (code c' =? 45)%nat;
    [intros He; apply length_parse_exp_digits in He; cbn in *; lia|].
  destruct (code c' =? 43)%nat;
    intros He; apply length_parse_exp_digits in He; cbn in *; lia.
Qed.

(** A number takes at least one digit. *)
Lemma length_parse_number (s : string) (n : number) (r : string) :
  parse_number s = Some (n, r) -> String.length r < String.length s.
Proof.
  unfold parse_number. pose proof (length_split_sign s) as Hsign.
  destruct (split_sign s) as [neg s1]. cbn [snd] in Hsign.
  destruct (parse_int_part s1) as [[ip s2]|] eqn:Hip; [|done].
  apply length_parse_int_part in Hip. cbn [mbind option_bind].
  destruct (parse_frac_part s2) as [[fp s3]|] eqn:Hfp; [|done].
  apply length_parse_frac_part in Hfp. cbn [mbind option_bind].
  destruct (parse_exp_part s3) as [[e s4]|] eqn:Hep; [|done].
  apply length_parse_exp_part in Hep. cbn [mbind option_bind].
  intros [= _ <-]. lia.
Qed.

(** Every parser takes something from its input. *)
Lemma length_parse_value (fuel : nat) :
  (forall s v r, parse_value fuel s = Some (v, r) ->
                 String.length r < String.length s) /\
  (forall acc s v r, parse_elements fuel acc s = Some (v, r) ->
                     String.length r < String.length s) /\
  (forall acc s v r, parse_members fuel acc s = Some (v, r) ->
                     String.length r < String.length s).
Proof.
  induction fuel as [|fuel (IHv & IHe & IHm)]; [done|].
  split; [|split].
  - intros s v r. cbn [parse_value].
    pose proof (length_skip_ws s) as Hs.
    destruct (skip_ws s) as [|c tl]; [done|]. cbn in Hs.
    assert (Hcl : forall b rest, closes b tl = Some rest ->
                                 String.length rest < String.length tl).
    { intros b rest. unfold closes. pose proof (length_skip_ws tl) as Ht.
      destruct (skip_ws tl) as [|c' tl']; [done|].
      destruct (code c' =? b)%nat; [|done]. intros [= <-]. cbn in Ht. lia. }
    destruct (code c =? 123)%nat.
    { destruct (closes 125 tl) as [rest|] eqn:Hc.
      - intros [= _ <-]. apply Hcl in Hc. lia.
      - intros Hm. apply IHm in Hm. lia. }
    destruct (code c =? 91)%nat.
    { destruct (closes 93 tl) as [rest|] eqn:Hc.
      - intros [= _ <-]. apply Hcl in Hc. lia.
      - intros Hm. apply IHe in Hm. lia. }
    destruct (code c =? 34)%nat.
    { destruct (parse_chars tl) as [[str rest]|] eqn:Hp; [|done].
      intros [= _ <-]. apply (length_parse_chars _ _ _ _ (le_n _)) in Hp. lia. }
    destruct (code c =? 116)%nat.
    { intros Hv. apply length_expect in Hv. lia. }
    destruct (code c =? 102)%nat.
    { intros Hv. apply length_expect in Hv. lia. }
    destruct (code c =? 110)%nat.
    { intros Hv. apply length_expect in Hv. lia. }
    destruct (parse_number (String c tl)) as [[n rest]|] eqn:Hp; [|done].
    intros [= _ <-]. apply length_parse_number in Hp. cbn in Hp. lia.
  - intros acc s v r. cbn [parse_elements].
    destruct (parse_value fuel s) as [[v0 rest]|] eqn:Hv; [|done].
    apply IHv in Hv. pose proof (length_skip_ws rest) as Hr.
    destruct (skip_ws rest) as [|c rest']; [done|]. cbn in Hr.
    destruct (code c =? 44)%nat; [intros He; apply IHe in He; lia|].
    destruct (code c =? 93)%nat; [|done]. intros [= _ <-]. lia.
  - intros acc s v r. cbn [parse_members].
    pose proof (length_skip_ws s) as Hs.
    destruct (skip_ws s) as [|q tl]; [done|]. cbn in Hs.
    destruct (negb (code q =? 34)%nat); [done|].
    destruct (parse_chars tl) as [[k rest]|] eqn:Hk; [|done].
    apply (length_parse_chars _ _ _ _ (le_n _)) in Hk.
    pose proof (length_skip_ws rest) as Hr.
    destruct (skip_ws rest) as [|c rest']; [done|]. cbn in Hr.
    destruct (negb (code c =? 58)%nat); [done|].
    destruct (parse_value fuel rest') as [[v0 rest'']|] eqn:Hv; [|done].
    apply IHv in Hv. pose proof (length_skip_ws rest'') as Hr''.
    destruct (skip_ws rest'') as [|d r0]; [done|]. cbn in Hr''.
    destruct (code d =? 44)%nat; [intros Hm; apply IHm in Hm; lia|].
    destruct (code d =? 125)%nat; [|done]. intros [= _ <-]. lia.
Qed.

(** Beyond twice the length of the input, more fuel changes nothing:
    [parse_value] never stops for lack of fuel. *)
Lemma parse_value_fuel (f1 : nat) :
  forall f2,
    (forall s, 2 * String.length s + 1 <= f1 -> 2 * String.length s + 1 <= f2 ->
               parse_value f1 s = parse_value f2 s) /\
    (forall acc s, 2 * String.length s + 2 <= f1 ->
                   2 * String.length s + 2 <= f2 ->
                   parse_elements f1 acc s = parse_elements f2 acc s) /\
    (forall acc s, 2 * String.length s + 2 <= f1 ->
                   2 * String.length s + 2 <= f2 ->
                   parse_members f1 acc s = parse_members f2 acc s).
Proof.
  induction f1 as [|f1 IH]; intros f2.
  { repeat split; intros; lia. }
  destruct f2 as [|f2].
  { repeat split; intros; lia. }
  destruct (IH f2) as (IHv & IHe & IHm).
  split; [|split].
  - intros s H1 H2. cbn [parse_value].
    pose proof (length_skip_ws s) as Hs.
    destruct (skip_ws s) as [|c tl]; [done|]. cbn in Hs.
    rewrite (IHm [] tl), (IHe [] tl) by lia. done.
  - intros acc s H1 H2. cbn [parse_elements].
    rewrite (IHv s) by lia.
    destruct (parse_value f2 s) as [[v0 rest]|] eqn:Hv; [|done].
    apply (proj1 (length_parse_value f2)) in Hv.
    pose proof (length_skip_ws rest) as Hr.
    destruct (skip_ws rest) as [|c rest']; [done|]. cbn in Hr.
    rewrite (IHe (acc ++ [v0]) rest') by lia. done.
  - intros acc s H1 H2. cbn [parse_members].
    pose proof (length_skip_ws s) as Hs.
    destruct (skip_ws s) as [|q tl]; [done|]. cbn in Hs.
    destruct (negb (code q =? 34)%nat); [done|].
    destruct (parse_chars tl) as [[k rest]|] eqn:Hk; [|done].
    apply (length_parse_chars _ _ _ _ (le_n _)) in Hk.
    pose proof (length_skip_ws rest) as Hr.
    destruct (skip_ws rest) as [|c rest']; [done|]. cbn in Hr.
    destruct (negb (code c =? 58)%nat); [done|].
    rewrite (IHv rest') by lia.
    destruct (parse_value f2 rest') as [[v0 rest'']|] eqn:Hv; [|done].
    apply (proj1 (length_parse_value f2)) in Hv.
    pose proof (length_skip_ws rest'') as Hr''.
    destruct (skip_ws rest'') as [|d r0]; [done|]. cbn in Hr''.
    rewrite (IHm (obj_define k v0 acc) r0) by lia. done.
Qed.

(** [parse_text] is the parser at any sufficient fuel: where it gives
    [None] the text is no JSON. *)
Theorem parse_text_fuel (s : string) (fuel : nat) :
  2 * String.length s + 2 <= fuel ->
  parse_text s =
  match parse_value fuel s with
  | Some (v, rest) =>
      match skip_ws rest with
      | EmptyString => Some v
      | _ => None
      end
  | None => None
  end.
Proof.
  intros Hf. unfold parse_text.
  now rewrite (proj1 (parse_value_fuel _ fuel) s) by lia.
Qed.

Lemma expect_value (lit : list ascii) (v v' : value) (s r : string) :
  expect lit v s = Some (v', r) -> v' = v.
Proof.
  revert s. induction lit as [|c lit IH]; intros s; cbn [expect].
  - now intros [= <- _].
  - destruct s as [|c' tl]; [done|]. destruct (Ascii.eqb c c'); [apply IH|done].
Qed.


End ReferenceFacts.

(* ===================================================================== *)
(** * [commitEdit] and [handleNodeSave] *)
(* ===================================================================== *)

Section CommitFacts.
Context {E : JsEngine}.

(** [commitEdit] always reaches the stores: it pushes the text that
    [writeJsonAtPath] returned, and its own [catch] is never taken. *)
Lemma commitEdit_run (nodeData : option NodeData) (w : World) :
  commitEdit nodeData w =
  match JSON_parse (useJson w) with
  | None =>
      (Ok tt,
       published (useJson w) (draft w)
         (log_error "Error applying changes to JSON path:"
            (log_error "Error retrieving value from JSON path:" w)))
  | Some obj =>
      match written obj (path_of nodeData)
              (merged (read_loop obj (default [] (path_of nodeData)))
                 (coerced (draft w))) with
      | Ok text => (Ok tt, published text (draft w) w)
      | Throw _ =>
          (Ok tt,
           published (useJson w) (draft w)
             (log_error "Error applying changes to JSON path:" w))
      end
  end.
Proof.
  unfold commitEdit, try_catch, mbind, M_bind, gets.
  rewrite coerceInputValue_run. fold (coerced (draft w)).
  rewrite readValueAtPath_run.
  destruct (JSON_parse (useJson w)) as [obj|] eqn:Hdoc.
  - rewrite writeJsonAtPath_run, Hdoc.
    destruct (written obj _ _) as [text|e]; cbn; rewrite parse_run.
    + unfold published. now destruct (JSON_parse text).
    + unfold published. cbn. now rewrite Hdoc.
  - rewrite writeJsonAtPath_run. cbn. rewrite Hdoc. cbn. rewrite parse_run.
    unfold published. cbn. now rewrite Hdoc.
Qed.

Lemma handleNodeSave_run (p : path) (v : value) (w : World) :
  handleNodeSave p v w =
  match JSON_parse (contents (useFile w)) with
  | Some currentJson =>
      (Ok tt,
       with_file {| contents := JSON_stringify (setAtPath currentJson p v);
                    hasChanges := true |} w)
  | None => (Ok tt, log_error "Failed to apply node edit:" w)
  end.
Proof.
  unfold handleNodeSave, try_catch, mbind, M_bind, gets.
  rewrite parse_run. now destruct (JSON_parse _).
Qed.



End CommitFacts.




(** C1 fails in [commitEdit].  When the text of the parsed-JSON store
    is not valid JSON, [readValueAtPath] and [writeJsonAtPath] swallow
    the parse errors, so the [catch] of [commitEdit] is not reached: no
    alert is raised and the handler goes on to write that text to the
    parsed-JSON store and to the text-buffer store, which it marks
    changed, hands the raw text to the graph store, and leaves edit
    mode. *)
Theorem commitEdit_invalid_document_writes
    (E : JsEngine) (nodeData : option NodeData) (w : World) :
  JSON_parse (useJson w) = None ->
  let w' := (commitEdit nodeData w).2 in
  (commitEdit nodeData w).1 = Ok tt /\
  alerts w' = alerts w /\
  useJson w' = useJson w /\
  useFile w' = {| contents := useJson w; hasChanges := true |} /\
  useGraph w' = GraphText (useJson w) /\
  editing w' = false /\
  baseline w' = draft w.
Proof.
  intros Hdoc. rewrite commitEdit_run, Hdoc. cbn. now rewrite Hdoc.
Qed.

Lemma commitEdit_invalid_document_writes_witness :
  let w := {| useJson := "{invalid";
              useFile := {| contents := "{}"; hasChanges := false |};
              useGraph := GraphValue (VObj []);
              editing := true; draft := "5"; baseline := EmptyString;
              console := []; alerts := [] |} in
  let w' := (@commitEdit Reference.engine None w).2 in
  @JSON_parse Reference.engine (useJson w) = None /\
  (@commitEdit Reference.engine None w).1 = Ok tt /\
  alerts w' = [] /\
  useFile w' = {| contents := "{invalid"; hasChanges := true |} /\
  useGraph w' = GraphText "{invalid" /\
  stores w' <> stores w.
Proof.
  intros w w'.
  assert (Hdoc : @JSON_parse Reference.engine (useJson w) = None) by reflexivity.
  destruct (commitEdit_invalid_document_writes Reference.engine None w Hdoc)
    as (Hok & Halert & Hjson & Hfile & Hgraph & _).
  split; [exact Hdoc|]. split; [exact Hok|]. split; [exact Halert|].
  split; [exact Hfile|]. split; [exact Hgraph|].
  intros Heq. apply (f_equal (fun s => hasChanges s.1.2)) in Heq.
  vm_compute in Heq. discriminate Heq.
Defined.

(** The sibling handler does abort: when the text of the text-buffer
    store does not parse, [handleNodeSave] writes to no store and reports
    the failure on the console. *)
Lemma handleNodeSave_invalid_document
    (E : JsEngine) (p : path) (v : value) (w : World) :
  JSON_parse (contents (useFile w)) = None ->
  handleNodeSave p v w = (Ok tt, log_error "Failed to apply node edit:" w) /\
  stores (handleNodeSave p v w).2 = stores w.
Proof. intros Hdoc. rewrite handleNodeSave_run, Hdoc. done. Qed.

(* ===================================================================== *)
(** * [setAtPath] on the store: sharing and frame *)
(* ===================================================================== *)

Section HeapFacts.
Import Heap.
Implicit Types (h g : heap) (c : cell) (x v root : hval) (s p q : segment).

Lemma cell_get_key c s s' :
  prop_key s = prop_key s' -> cell_get c s = cell_get c s'.
Proof. intros Hk. unfold cell_get. now rewrite Hk. Qed.

Lemma cell_get_put_ne c s s' x :
  prop_key s <> prop_key s' -> cell_get (cell_put s x c) s' = cell_get c s'.
Proof.
  intros Hne. destruct c as [xs|props]; cbn [cell_put cell_get].
  - destruct (array_index (prop_key s)) as [n|] eqn:Hn; cbn [cell_get]; [|done].
    destruct (array_index (prop_key s')) as [n'|] eqn:Hn'; [|done].
    apply arr_get_set_ne. intros ->. apply Hne.
    eapply array_index_inj; eauto.
  - now rewrite obj_lookup_define_ne.
Qed.

Lemma cell_get_put_eq c s x :
  cell_get (cell_put s x c) s = if cell_fits c s then x else HUndefined.
Proof.
  destruct c as [xs|props]; cbn [cell_put cell_get cell_fits].
  - destruct (array_index (prop_key s)) as [n|] eqn:Hn; cbn [cell_get].
    + rewrite Hn, arr_get_set_eq.
      now rewrite bool_decide_eq_true_2 by eauto.
    + rewrite Hn. rewrite bool_decide_eq_false_2; [done|].
      intros [? [=]].
  - now rewrite obj_lookup_define_eq.
Qed.

Lemma cell_get_unfit c s :
  cell_fits c s = false -> cell_get c s = HUndefined.
Proof.
  destruct c as [xs|props]; cbn [cell_fits cell_get]; [|done].
  intros Hf%bool_decide_eq_false.
  destruct (array_index (prop_key s)); [|done]. exfalso. apply Hf. eauto.
Qed.

Lemma cell_fits_key c s s' :
  prop_key s = prop_key s' -> cell_fits c s = cell_fits c s'.
Proof. intros Hk. unfold cell_fits. now rewrite Hk. Qed.

(** The clone holds what the original holds. *)
Lemma cell_get_clone h root head s :
  cell_get (clone h root head) s = own h root s.
Proof.
  assert (Hfresh : cell_get (fresh_cell head) s = HUndefined).
  { unfold fresh_cell. destruct (typeof_number head); cbn [cell_get]; [|done].
    now destruct (array_index (prop_key s)). }
  destruct root as [| |b|n|str|l]; cbn [clone own]; try done.
  destruct (h !! l) as [[xs|props]|]; [done| |done].
  cbn [cell_get]. rewrite obj_lookup_spread.
  now destruct (obj_lookup (prop_key s) props).
Qed.

Lemma own_fresh h c l s :
  l = length h -> own (h ++ [c]) (HRef l) s = cell_get c s.
Proof.
  intros ->. cbn [own]. now rewrite list_lookup_middle.
Qed.

Lemma setAtPath_cons_heap h root head rest v :
  Heap.setAtPath h root (head :: rest) v =
  let h1 := h ++ [clone h root head] in
  let '(r, h2) := Heap.setAtPath h1 (own h root head) rest v in
  (HRef (length h), alter (cell_put head r) (length h) h2).
Proof.
  cbn [Heap.setAtPath]. rewrite own_fresh, cell_get_clone by done.
  now destruct rest.
Qed.

(** [setAtPath] writes to fresh cells only, one per segment. *)
Lemma setAtPath_extends (tokens : path) h root v r h' :
  Heap.setAtPath h root tokens v = (r, h') ->
  length h' = length h + length tokens /\
  forall l, l < length h -> h' !! l = h !! l.
Proof.
  revert h root r h'. induction tokens as [|head rest IH];
    intros h root r h' Hset.
  - injection Hset as <- <-. split; [cbn; lia|done].
  - rewrite setAtPath_cons_heap in Hset. cbv zeta in Hset.
    destruct (Heap.setAtPath _ _ rest v) as [r' h2] eqn:Hrec.
    injection Hset as <- <-.
    apply IH in Hrec as [Hlen Hold].
    rewrite length_app in Hlen, Hold. cbn [length] in *.
    split; [rewrite length_alter; lia|].
    intros l Hl. rewrite list_lookup_alter_ne by lia.
    rewrite Hold by lia. now rewrite lookup_app_l.
Qed.
Lemma own_key h x s s' : prop_key s = prop_key s' -> own h x s = own h x s'.
Proof.
  intros Hk. destruct x as [| |b|n|str|l]; cbn [own]; try done.
  destruct (h !! l); [|done]. now apply cell_get_key.
Qed.

Lemma subtree_cons h x s (position : path) :
  subtree h x (s :: position) = subtree h (own h x s) position.
Proof. done. Qed.

Lemma subtree_undefined h (position : path) :
  subtree h HUndefined position = HUndefined.
Proof. induction position as [|s position IH]; [done|]. apply IH. Qed.

Lemma cell_get_closed n c s :
  cell_closed n c = true -> val_closed n (cell_get c s) = true.
Proof.
  destruct c as [xs|props]; cbn [cell_closed cell_get]; intros Hc.
  - destruct (array_index (prop_key s)) as [i|]; [|done].
    unfold arr_get. destruct (xs !! i) as [x|] eqn:Hx; [|done].
    rewrite forallb_forall in Hc. apply Hc.
    apply list_elem_of_In, list_elem_of_lookup. eauto.
  - induction props as [|[k x] tl IH]; [done|].
    cbn in Hc. apply andb_prop in Hc as [Hx Htl].
    cbn [obj_lookup]. destruct (String.eqb (prop_key s) k); [done|].
    now apply IH.
Qed.

Lemma lookup_closed n h l c :
  closed_below n h = true -> l < n -> h !! l = Some c ->
  cell_closed n c = true.
Proof.
  unfold closed_below. rewrite forallb_forall. intros Hcl Hl Hc.
  apply Hcl, list_elem_of_In, list_elem_of_lookup.
  exists l. now rewrite lookup_take_lt.
Qed.

Lemma own_closed n h x s :
  closed_below n h = true -> val_closed n x = true ->
  val_closed n (own h x s) = true.
Proof.
  intros Hcl Hx. destruct x as [| |b|k|str|l]; cbn [own]; try done.
  cbn in Hx. apply Nat.ltb_lt in Hx.
  destruct (h !! l) as [c|] eqn:Hc; [|done].
  eapply cell_get_closed, lookup_closed; eauto.
Qed.

(** What is read from a closed value lies within the closed part of
    the store. *)
Lemma subtree_footprint n h g x (position : path) :
  closed_below n h = true -> val_closed n x = true ->
  (forall l, l < n -> g !! l = h !! l) ->
  subtree g x position = subtree h x position.
Proof.
  intros Hcl Hx Hagree. revert x Hx.
  induction position as [|s position IH]; intros x Hx; [done|].
  rewrite !subtree_cons.
  assert (Hown : own g x s = own h x s).
  { destruct x as [| |b|k|str|l]; cbn [own]; try done.
    cbn in Hx. apply Nat.ltb_lt in Hx. now rewrite Hagree. }
  rewrite Hown. apply IH. now apply own_closed.
Qed.

Lemma closed_below_app n h c :
  n <= length h -> closed_below n (h ++ [c]) = closed_below n h.
Proof. intros Hn. unfold closed_below. now rewrite take_app_le. Qed.

(** The frame of [setAtPath]: off the path, the result holds what the
    original held.  The statement allows later writes to the cells
    between [n] and the first fresh cell, which the reads never meet. *)
Lemma setAtPath_frame (tokens : path) :
  forall n h root (position : path) v r h' g,
    n <= length h ->
    closed_below n h = true -> val_closed n root = true ->
    Heap.setAtPath h root tokens v = (r, h') ->
    off_path tokens position = true ->
    (forall l, l < n \/ length h <= l -> g !! l = h' !! l) ->
    subtree g r position = subtree h root position.
Proof.
  induction tokens as [|p tokens IH];
    intros n h root position v r h' g Hn Hcl Hroot Hset Hoff Hg; [done|].
  destruct position as [|q position]; [done|].
  cbn [off_path] in Hoff.
  rewrite setAtPath_cons_heap in Hset. cbv zeta in Hset.
  destruct (Heap.setAtPath _ _ tokens v) as [r' h2] eqn:Hrec.
  injection Hset as <- <-.
  pose proof (setAtPath_extends _ _ _ _ _ _ Hrec) as [Hlen2 Hold2].
  rewrite length_app in Hlen2, Hold2. cbn [length] in Hlen2, Hold2.
  (* the cell of the clone, as [g] sees it *)
  assert (Hcell : g !! length h
                  = Some (cell_put p r' (clone h root p))).
  { rewrite Hg by lia. rewrite list_lookup_alter_eq, Hold2 by lia.
    now rewrite list_lookup_middle. }
  (* below [n], [g] is the original store *)
  assert (Hbelow : forall l, l < n -> g !! l = h !! l).
  { intros l Hl. rewrite Hg by lia.
    rewrite list_lookup_alter_ne, Hold2 by lia. apply lookup_app_l. lia. }
  rewrite !subtree_cons. cbn [own]. rewrite Hcell.
  destruct (String.eqb_spec (prop_key p) (prop_key q)) as [Hk|Hk].
  - rewrite <- (cell_get_key _ p q), cell_get_put_eq by done.
    rewrite <- (own_key h root p q) by done.
    destruct (cell_fits (clone h root p) p) eqn:Hfit.
    + rewrite (IH n (h ++ [clone h root p]) (own h root p) position v r' h2 g);
        try done.
      * apply subtree_footprint with (n := n); try done.
        -- now apply own_closed.
        -- intros l Hl. apply lookup_app_l. lia.
      * rewrite length_app. cbn. lia.
      * now rewrite closed_below_app.
      * now apply own_closed.
      * intros l Hl. rewrite length_app in Hl. cbn [length] in Hl.
        rewrite Hg by lia. apply list_lookup_alter_ne. lia.
    + rewrite subtree_undefined.
      rewrite <- cell_get_clone with (head := p), cell_get_unfit by done.
      now rewrite subtree_undefined.
  - rewrite cell_get_put_ne, cell_get_clone by done.
    apply subtree_footprint with (n := n); try done.
    now apply own_closed.
Qed.
Lemma compatible_app h c root (tokens : path) n :
  n <= length h -> closed_below n h = true -> val_closed n root = true ->
  Heap.compatible (h ++ [c]) root tokens = Heap.compatible h root tokens.
Proof.
  intros Hn Hcl. revert root.
  induction tokens as [|head rest IH]; intros root Hroot; [done|].
  cbn [Heap.compatible].
  assert (Hown : forall s, own (h ++ [c]) root s = own h root s).
  { intros s. apply (subtree_footprint n h (h ++ [c]) root [s]); try done.
    intros l Hl. apply lookup_app_l. lia. }
  assert (Hclone : clone (h ++ [c]) root head = clone h root head).
  { destruct root as [| |b|k|str|l]; cbn [clone]; try done.
    cbn in Hroot. apply Nat.ltb_lt in Hroot.
    now rewrite lookup_app_l by lia. }
  rewrite Hclone, Hown, IH; [done|]. now apply own_closed.
Qed.

(** The spine: the containers above the target are the fresh cells, in
    order, and the target holds the value itself. *)
Lemma setAtPath_spine (tokens : path) :
  forall n h root v r h' g,
    n <= length h ->
    closed_below n h = true -> val_closed n root = true ->
    Heap.setAtPath h root tokens v = (r, h') ->
    Heap.compatible h root tokens = true ->
    (forall l, length h <= l -> g !! l = h' !! l) ->
    subtree g r tokens = v /\
    forall i, i < length tokens ->
              subtree g r (take i tokens) = HRef (length h + i).
Proof.
  induction tokens as [|p tokens IH];
    intros n h root v r h' g Hn Hcl Hroot Hset Hcompat Hg.
  - injection Hset as <- <-. split; [done|]. cbn. lia.
  - cbn [Heap.compatible] in Hcompat.
    apply andb_prop in Hcompat as [Hfit Hcompat].
    rewrite setAtPath_cons_heap in Hset. cbv zeta in Hset.
    destruct (Heap.setAtPath _ _ tokens v) as [r' h2] eqn:Hrec.
    injection Hset as <- <-.
    pose proof (setAtPath_extends _ _ _ _ _ _ Hrec) as [Hlen2 Hold2].
    rewrite length_app in Hlen2, Hold2. cbn [length] in Hlen2, Hold2.
    assert (Hcell : g !! length h
                    = Some (cell_put p r' (clone h root p))).
    { rewrite Hg by lia. rewrite list_lookup_alter_eq, Hold2 by lia.
      now rewrite list_lookup_middle. }
    destruct (IH n (h ++ [clone h root p]) (own h root p) v r' h2 g)
      as [Hend Hspine]; try done.
    + rewrite length_app. cbn. lia.
    + now rewrite closed_below_app.
    + now apply own_closed.
    + rewrite (compatible_app h _ _ _ n); try done. now apply own_closed.
    + intros l Hl. rewrite length_app in Hl. cbn [length] in Hl.
      rewrite Hg by lia. apply list_lookup_alter_ne. lia.
    + assert (Hstep : own g (HRef (length h)) p = r').
      { cbn [own]. now rewrite Hcell, cell_get_put_eq, Hfit. }
      split.
      * now rewrite subtree_cons, Hstep.
      * intros [|i] Hi; [cbn; f_equal; lia|].
        cbn [take]. rewrite subtree_cons, Hstep, Hspine by (cbn in Hi; lia).
        rewrite length_app. cbn. f_equal. lia.
Qed.
End HeapFacts.

(** C2, as amended.  [setAtPath] copies the path and shares the rest.
    No cell of the store it is given is written: the document and all
    its substructures are as before.  It allocates one fresh container
    per segment and nothing else.  In a store without dangling
    references, for a path of plain keys that the document is compatible
    with: every position that leaves the path (neither above, at, nor
    below the target) holds in the result the very value, a primitive or
    the same reference, that the original document holds there; the
    containers from the root down to the target's parent are exactly the
    fresh cells; the target holds the given value itself, and a position
    below the target what the given value holds there. *)
Theorem setAtPath_path_copying
    (h : list Heap.cell) (D : Heap.hval) (P : path) (V r : Heap.hval)
    (h' : list Heap.cell) :
  Heap.setAtPath h D P V = (r, h') ->
  (forall l c, h !! l = Some c -> h' !! l = Some c) /\
  length h' = length h + length P /\
  (Heap.heap_closed h = true -> Heap.val_closed (length h) D = true ->
   plain_path P = true -> Heap.compatible h D P = true ->
   (forall Q, Heap.off_path P Q = true ->
              Heap.subtree h' r Q = Heap.subtree h D Q) /\
   (forall i, i < length P ->
              Heap.subtree h' r (take i P) = Heap.HRef (length h + i)) /\
   Heap.subtree h' r P = V /\
   (forall Q, Heap.subtree h' r (P ++ Q) = Heap.subtree h' V Q)).
Proof.
  intros Hset.
  pose proof (setAtPath_extends _ _ _ _ _ _ Hset) as [Hlen Hold].
  split; [|split; [done|]].
  - intros l c Hc. rewrite Hold; [done|]. now apply lookup_lt_Some in Hc.
  - intros Hcl HD _ Hcompat.
    destruct (setAtPath_spine P (length h) h D V r h' h') as [Hend Hspine];
      try done.
    split; [|split; [exact Hspine|split; [exact Hend|]]].
    + intros Q Hoff.
      now apply (setAtPath_frame P (length h) h D Q V r h' h').
    + intros Q. unfold Heap.subtree in *. now rewrite fold_left_app, Hend.
Qed.

Lemma setAtPath_path_copying_witness :
  let h := [Heap.CObj [("a", Heap.HRef 1); ("b", Heap.HRef 2)];
            Heap.CArr [Heap.HNum (int 1)];
            Heap.CObj [("c", Heap.HNull)]] in
  let P := [SKey "a"; SIdx 0] in
  let h' := h ++ [Heap.CObj [("a", Heap.HRef 4); ("b", Heap.HRef 2)];
                  Heap.CArr [Heap.HRef 2]] in
  Heap.setAtPath h (Heap.HRef 0) P (Heap.HRef 2) = (Heap.HRef 3, h') /\
  Heap.heap_closed h = true /\
  Heap.val_closed (length h) (Heap.HRef 0) = true /\
  plain_path P = true /\
  Heap.compatible h (Heap.HRef 0) P = true /\
  Heap.off_path P [SKey "b"; SKey "c"] = true /\
  h' !! 0 = Some (Heap.CObj [("a", Heap.HRef 1); ("b", Heap.HRef 2)]) /\
  Heap.subtree h' (Heap.HRef 3) [SKey "b"; SKey "c"]
    = Heap.subtree h (Heap.HRef 0) [SKey "b"; SKey "c"] /\
  Heap.subtree h' (Heap.HRef 3) (take 1 P) = Heap.HRef (length h + 1) /\
  Heap.subtree h' (Heap.HRef 3) P = Heap.HRef 2 /\
  Heap.subtree h' (Heap.HRef 3) (P ++ [SKey "c"])
    = Heap.subtree h' (Heap.HRef 2) [SKey "c"].
Proof.
  intros h P h'.
  assert (Hset : Heap.setAtPath h (Heap.HRef 0) P (Heap.HRef 2)
                 = (Heap.HRef 3, h')) by reflexivity.
  destruct (setAtPath_path_copying _ _ _ _ _ _ Hset) as (Hkeep & _ & Hshare).
  destruct (Hshare eq_refl eq_refl eq_refl eq_refl)
    as (Hframe & Hfresh & Hend & Hbelow).
  split; [exact Hset|]. split; [reflexivity|]. split; [reflexivity|].
  split; [reflexivity|]. split; [reflexivity|]. split; [reflexivity|].
  split; [exact (Hkeep 0 _ eq_refl)|].
  split; [exact (Hframe [SKey "b"; SKey "c"] eq_refl)|].
  split; [apply (Hfresh 1); cbn; lia|].
  split; [exact Hend|].
  exact (Hbelow [SKey "c"]).
Defined.

(** C2 as it is stated fails below the target.  The position [a.b] is
    not above or at the target of the path [a], yet after
    [setAtPath({"a":{"b":1}}, ["a"], 5)] nothing is found there, where
    the original document holds 1: below the target the result holds
    what the given value holds. *)
Lemma setAtPath_below_target_counterexample :
  let h := [Heap.CObj [("a", Heap.HRef 1)];
            Heap.CObj [("b", Heap.HNum (int 1))]] in
  let P := [SKey "a"] in
  let Q := [SKey "a"; SKey "b"] in
  let h' := h ++ [Heap.CObj [("a", Heap.HNum (int 5))]] in
  Heap.setAtPath h (Heap.HRef 0) P (Heap.HNum (int 5)) = (Heap.HRef 2, h') /\
  Heap.heap_closed h = true /\
  plain_path P = true /\ Heap.compatible h (Heap.HRef 0) P = true /\
  above_or_at P Q = false /\
  Heap.subtree h (Heap.HRef 0) Q = Heap.HNum (int 1) /\
  Heap.subtree h' (Heap.HRef 2) Q = Heap.HUndefined /\
  ~ (forall (h0 : list Heap.cell) (D : Heap.hval) (P0 Q0 : path)
            (V r : Heap.hval) (h1 : list Heap.cell),
        Heap.setAtPath h0 D P0 V = (r, h1) ->
        above_or_at P0 Q0 = false ->
        Heap.subtree h1 r Q0 = Heap.subtree h0 D Q0).
Proof.
  intros h P Q h'.
  assert (Hset : Heap.setAtPath h (Heap.HRef 0) P (Heap.HNum (int 5))
                 = (Heap.HRef 2, h')) by reflexivity.
  split; [exact Hset|]. repeat (split; [reflexivity|]).
  intros Hclaim.
  specialize (Hclaim h (Heap.HRef 0) P Q _ _ _ Hset eq_refl).
  discriminate Hclaim.
Qed.

(* ===================================================================== *)
(** * The two readings of [setAtPath] agree *)
(* ===================================================================== *)

(** The container operations preserve any relation between the slots. *)
Section Related.
Context {A B : Type} (R : A -> B -> Prop) (ua : A) (ub : B) (Hu : R ua ub).

Lemma obj_lookup_related k ps qs :
  Forall2 (entry_related R) ps qs ->
  option_Forall2 R (obj_lookup k ps) (obj_lookup k qs).
Proof.
  induction 1 as [|[k1 x] [k2 y] ps qs [Hk Hxy] _ IH]; cbn in *; [constructor|].
  subst k2. destruct (String.eqb k k1); [now constructor|done].
Qed.

Lemma obj_replace_related k x y ps qs :
  R x y -> Forall2 (entry_related R) ps qs ->
  Forall2 (entry_related R) (obj_replace k x ps) (obj_replace k y qs).
Proof.
  intros Hxy.
  induction 1 as [|[k1 x1] [k2 y1] ps qs [Hk H1] Htl IH]; cbn in *; [constructor|].
  subst k2. destruct (String.eqb k k1); constructor; done.
Qed.

Lemma obj_insert_index_related n k x y ps qs :
  R x y -> Forall2 (entry_related R) ps qs ->
  Forall2 (entry_related R) (obj_insert_index n k x ps) (obj_insert_index n k y qs).
Proof.
  intros Hxy.
  induction 1 as [|[k1 x1] [k2 y1] ps qs [Hk H1] Htl IH];
    cbn [obj_insert_index fst snd] in *.
  - repeat constructor; done.
  - subst k2. destruct (array_index k1) as [n1|].
    + destruct (n1 <? n)%nat; repeat constructor; done.
    + repeat constructor; done.
Qed.

Lemma obj_define_related k x y ps qs :
  R x y -> Forall2 (entry_related R) ps qs ->
  Forall2 (entry_related R) (obj_define k x ps) (obj_define k y qs).
Proof.
  intros Hxy Hall. unfold obj_define.
  destruct (obj_lookup_related k ps qs Hall) as [x0 y0 _|].
  - now apply obj_replace_related.
  - destruct (array_index k) as [n|].
    + now apply obj_insert_index_related.
    + apply Forall2_app; [done|]. repeat constructor; done.
Qed.

Lemma spread_related src src' acc acc' :
  Forall2 (entry_related R) src src' -> Forall2 (entry_related R) acc acc' ->
  Forall2 (entry_related R) (spread ua src acc) (spread ub src' acc').
Proof.
  intros Hsrc. unfold spread.
  assert (Hkeys : map fst src = map fst src').
  { induction Hsrc as [|[k1 x1] [k2 y1] ps qs [Hk _] _ IH]; cbn in *;
      [done|congruence]. }
  rewrite <- Hkeys. generalize (map fst src) as keys. clear Hkeys.
  intros keys. revert acc acc'.
  induction keys as [|k keys IH]; intros acc acc' Hacc; cbn; [done|].
  apply IH, obj_define_related; [|done].
  now destruct (obj_lookup_related k src src' Hsrc).
Qed.

Lemma arr_get_related n xs ys :
  Forall2 R xs ys -> R (arr_get ua xs n) (arr_get ub ys n).
Proof.
  intros Hall. unfold arr_get.
  apply Forall2_lookup with (i := n) in Hall. now destruct Hall.
Qed.

Lemma arr_set_related n x y xs ys :
  R x y -> Forall2 R xs ys ->
  Forall2 R (arr_set ua xs n x) (arr_set ub ys n y).
Proof.
  intros Hxy Hall. unfold arr_set.
  rewrite <- (Forall2_length _ _ _ Hall).
  destruct (n <? length xs)%nat.
  - now apply Forall2_insert.
  - apply Forall2_app; [done|]. apply Forall2_app.
    + now apply Forall2_replicate.
    + repeat constructor; done.
Qed.
End Related.

Section Refinement.
(* The tree reading, named apart from the store's. *)
Local Abbreviation tree_clone := clone (only parsing).
Local Abbreviation tree_setAtPath := setAtPath (only parsing).
Import Heap.
Implicit Types (h g : list cell) (c : cell) (x v root : hval) (t : value).

Lemma cell_related_impl (R R' : hval -> value -> Prop) c t :
  (forall x u, R x u -> R' x u) -> cell_related R c t -> cell_related R' c t.
Proof.
  intros Himpl.
  destruct c as [xs|props], t as [| |b|k|str|vs|vprops]; cbn; try done.
  - intros Hall. eapply Forall2_impl; eauto.
  - intros Hall. eapply Forall2_impl; [exact Hall|].
    intros [k1 x1] [k2 u1] [Hk Hr]. split; eauto.
Qed.

Lemma denotes_cell h l c t :
  h !! l = Some c -> cell_related (denotes h) c t -> denotes h (HRef l) t.
Proof.
  intros Hl.
  destruct c as [xs|props], t as [| |b|k|str|vs|vprops]; cbn; try done.
  - now apply denotes_arr.
  - now apply denotes_obj.
Qed.

Lemma cell_get_related (R : hval -> value -> Prop) c t s :
  R HUndefined VUndefined -> cell_related R c t ->
  R (cell_get c s) (get_own t s).
Proof.
  intros Hu.
  destruct c as [xs|props], t as [| |b|k|str|vs|vprops];
    cbn [cell_related cell_get get_own]; try done.
  - intros Hall. destruct (array_index (prop_key s)); [|done].
    now apply arr_get_related.
  - intros Hall.
    now destruct (obj_lookup_related R (prop_key s) _ _ Hall).
Qed.

Lemma cell_put_related (R : hval -> value -> Prop) c t s x u :
  R HUndefined VUndefined -> R x u -> cell_related R c t ->
  cell_related R (cell_put s x c) (put_own t s u).
Proof.
  intros Hu Hxu.
  destruct c as [xs|props], t as [| |b|k|str|vs|vprops];
    cbn [cell_related cell_put put_own]; try done.
  - intros Hall. destruct (array_index (prop_key s)); [|done].
    now apply arr_set_related.
  - intros Hall. now apply obj_define_related.
Qed.

Lemma cell_denotes_below n h c t :
  cell_closed n c = true -> cell_related (denotes h) c t ->
  cell_related (denotes_below n h) c t.
Proof.
  destruct c as [xs|props], t as [| |b|k|str|vs|vprops];
    cbn [cell_related cell_closed]; try done.
  - intros Hcl Hall. induction Hall as [|x u xs vs Hxu _ IH]; [constructor|].
    cbn in Hcl. apply andb_prop in Hcl as [Hx Hxs].
    constructor; [done|]. now apply IH.
  - intros Hcl Hall.
    induction Hall as [|[k1 x] [k2 u] ps qs [Hk Hxu] _ IH]; [constructor|].
    cbn in Hcl. apply andb_prop in Hcl as [Hx Hxs].
    constructor; [done|]. now apply IH.
Qed.

(** The clone stands for the tree's clone. *)
Lemma clone_related n h root t head :
  closed_below n h = true -> val_closed n root = true ->
  denotes h root t ->
  cell_related (denotes_below n h) (Heap.clone h root head)
    (tree_clone t head).
Proof.
  intros Hcl Hroot Hden.
  assert (Hfresh : cell_related (denotes_below n h) (fresh_cell head)
                     (fresh_container head)).
  { unfold fresh_cell, fresh_container.
    destruct (typeof_number head); constructor. }
  inversion Hden as [| |b|k|str|l xs vs Hl Hall|l props vprops Hl Hall]; subst;
    cbn [Heap.clone]; unfold tree_clone;
    cbn [isArray truthy typeof_object andb];
    rewrite ?andb_false_r; try done.
  - rewrite Hl. cbn in Hroot. apply Nat.ltb_lt in Hroot.
    apply (cell_denotes_below n h (CArr xs) (VArr vs)); [|done].
    eapply lookup_closed; eauto.
  - rewrite Hl. cbn in Hroot. apply Nat.ltb_lt in Hroot.
    unfold clone_object. cbn [own_props cell_related].
    apply spread_related; [split; [constructor|done]| |constructor].
    apply (cell_denotes_below n h (CObj props) (VObj vprops)); [|done].
    eapply lookup_closed; eauto.
Qed.

(** What a tree is read from lies in the closed part of the store. *)
Lemma denotes_footprint_closed n h g :
  closed_below n h = true ->
  (forall l, l < n -> g !! l = h !! l) ->
  forall x t, denotes h x t -> val_closed n x = true -> denotes g x t.
Proof.
  intros Hcl Hagree. fix IH 3. intros x t Hden Hx.
  destruct Hden as [| |b|k|str|l xs vs Hl Hall|l props vprops Hl Hall];
    try constructor.
  - cbn in Hx. apply Nat.ltb_lt in Hx.
    apply denotes_arr with xs; [now rewrite Hagree|].
    pose proof (lookup_closed n h l _ Hcl Hx Hl) as Hc. cbn in Hc.
    clear Hl. revert xs vs Hall Hc. fix IHl 3. intros xs vs Hall Hc.
    destruct Hall as [|x u xs vs Hxu Hall]; [constructor|].
    cbn in Hc. apply andb_prop in Hc as [Hcx Hcxs].
    constructor; [now apply IH|now apply IHl].
  - cbn in Hx. apply Nat.ltb_lt in Hx.
    apply denotes_obj with props; [now rewrite Hagree|].
    pose proof (lookup_closed n h l _ Hcl Hx Hl) as Hc. cbn in Hc.
    clear Hl. revert props vprops Hall Hc. fix IHl 3.
    intros props vprops Hall Hc.
    destruct Hall as [|[k1 x] [k2 u] ps qs [Hk Hxu] Hall]; [constructor|].
    cbn in Hc. apply andb_prop in Hc as [Hcx Hcxs].
    constructor; [split; [done|now apply IH]|now apply IHl].
Qed.

Lemma denotes_footprint n h g x t :
  closed_below n h = true ->
  (forall l, l < n -> g !! l = h !! l) ->
  denotes_below n h x t -> denotes g x t.
Proof. intros Hcl Hagree [Hden Hx]. eapply denotes_footprint_closed; eauto. Qed.
Lemma denotes_below_footprint n h g x t :
  closed_below n h = true ->
  (forall l, l < n -> g !! l = h !! l) ->
  denotes_below n h x t -> denotes_below n g x t.
Proof.
  intros Hcl Hagree Hden. split; [|apply Hden].
  eapply denotes_footprint; eauto.
Qed.

Lemma setAtPath_refines_gen (tokens : path) :
  forall n h root t v tv r h' g,
    n <= length h -> closed_below n h = true ->
    denotes_below n h root t -> denotes_below n h v tv ->
    Heap.setAtPath h root tokens v = (r, h') ->
    (forall l, l < n \/ length h <= l -> g !! l = h' !! l) ->
    denotes g r (tree_setAtPath t tokens tv).
Proof.
  induction tokens as [|p tokens IH];
    intros n h root t v tv r h' g Hn Hcl Hroot Hv Hset Hg.
  - injection Hset as <- <-.
    apply (denotes_footprint n h g); [done| |done].
    intros l Hl. apply Hg. lia.
  - rewrite setAtPath_cons_heap in Hset. cbv zeta in Hset.
    destruct (Heap.setAtPath _ _ tokens v) as [r' h2] eqn:Hrec.
    injection Hset as <- <-.
    pose proof (setAtPath_extends _ _ _ _ _ _ Hrec) as [Hlen2 Hold2].
    rewrite length_app in Hlen2, Hold2. cbn [length] in Hlen2, Hold2.
    assert (Hcell : g !! length h
                    = Some (cell_put p r' (Heap.clone h root p))).
    { rewrite Hg by lia. rewrite list_lookup_alter_eq, Hold2 by lia.
      now rewrite list_lookup_middle. }
    assert (Hbelow : forall l, l < n -> g !! l = h !! l).
    { intros l Hl. rewrite Hg by lia.
      rewrite list_lookup_alter_ne, Hold2 by lia. apply lookup_app_l. lia. }
    assert (Hgrow : forall l, l < n ->
                      (h ++ [Heap.clone h root p]) !! l = h !! l).
    { intros l Hl. apply lookup_app_l. lia. }
    pose proof (clone_related n h root t p Hcl (proj2 Hroot) (proj1 Hroot))
      as Hclone.
    rewrite setAtPath_cons.
    apply denotes_cell with (c := cell_put p r' (Heap.clone h root p));
      [done|].
    apply cell_put_related; [constructor| |].
    + apply (IH n (h ++ [Heap.clone h root p]) (own h root p)
               (get_own (tree_clone t p) p) v tv r' h2 g).
      * rewrite length_app. cbn. lia.
      * now rewrite closed_below_app.
      * apply (denotes_below_footprint n h); [done|done|].
        rewrite <- cell_get_clone with (head := p).
        apply cell_get_related; [now split; [constructor|]|done].
      * now apply (denotes_below_footprint n h).
      * done.
      * intros l Hl. rewrite length_app in Hl. cbn [length] in Hl.
        rewrite Hg by lia. apply list_lookup_alter_ne. lia.
    + eapply cell_related_impl; [|exact Hclone].
      intros x u Hxu. now apply (denotes_footprint n h g).
Qed.

(** The store-based [setAtPath] computes a representation of what the
    tree-based [setAtPath] computes. *)
Lemma setAtPath_refines h root t v tv (tokens : path) r h' :
  heap_closed h = true ->
  val_closed (length h) root = true -> val_closed (length h) v = true ->
  denotes h root t -> denotes h v tv ->
  Heap.setAtPath h root tokens v = (r, h') ->
  denotes h' r (tree_setAtPath t tokens tv).
Proof.
  intros Hcl Hroot Hv Ht Htv Hset.
  now apply (setAtPath_refines_gen tokens (length h) h root t v tv r h' h').
Qed.
End Refinement.

(* ===================================================================== *)
(** * Objects in the engine's key order *)
(* ===================================================================== *)

Section OrderFacts.
Context {A : Type} (undef : A).
Implicit Types (k : string) (v : A) (props : list (string * A)).

Lemma ascending_lower lo lo' ks :
  lo' <= lo -> ascending lo ks = true -> ascending lo' ks = true.
Proof.
  destruct ks as [|k tl]; [done|]. cbn [ascending].
  destruct (array_index k) as [n|]; [|done].
  intros Hle [Hlo Htl]%andb_prop. apply Nat.leb_le in Hlo.
  apply andb_true_intro. split; [apply Nat.leb_le; lia|done].
Qed.

(** An integer-like key of an ordered list is at least the bound. *)
Lemma ascending_bound lo ks k n :
  ascending lo ks = true -> k ∈ ks -> array_index k = Some n -> lo <= n.
Proof.
  revert lo. induction ks as [|k0 tl IH]; intros lo Hasc Hin Hk.
  - inversion Hin.
  - cbn [ascending] in Hasc.
    destruct (array_index k0) as [n0|] eqn:Hk0.
    + apply andb_prop in Hasc as [Hlo Htl]. apply Nat.leb_le in Hlo.
      inversion Hin; subst.
      * rewrite Hk in Hk0. injection Hk0 as ->. done.
      * specialize (IH _ Htl H1 Hk). lia.
    + apply andb_prop in Hasc as [Hall _].
      inversion Hin; subst; [congruence|].
      rewrite forallb_forall in Hall.
      assert (Hk' : bool_decide (array_index k = None) = true).
      { apply Hall. now apply list_elem_of_In. }
      apply bool_decide_eq_true in Hk'. congruence.
Qed.

Lemma ascending_NoDup lo ks : ascending lo ks = true -> NoDup ks.
Proof.
  revert lo. induction ks as [|k tl IH]; intros lo Hasc; [constructor|].
  cbn [ascending] in Hasc.
  destruct (array_index k) as [n|] eqn:Hk.
  - apply andb_prop in Hasc as [_ Htl].
    constructor; [|now apply (IH (S n))].
    intros Hin. pose proof (ascending_bound _ _ _ _ Htl Hin Hk). lia.
  - apply andb_prop in Hasc as [_ Hnd]. now apply bool_decide_eq_true in Hnd.
Qed.

(** Before an integer-like key stand smaller integer-like keys only. *)
Lemma ascending_before lo ks1 k ks2 n :
  ascending lo (ks1 ++ k :: ks2) = true -> array_index k = Some n ->
  Forall (fun k' => exists n', array_index k' = Some n' /\ n' < n) ks1.
Proof.
  revert lo. induction ks1 as [|k1 tl IH]; intros lo Hasc Hk; [constructor|].
  cbn [app ascending] in Hasc.
  destruct (array_index k1) as [n1|] eqn:Hk1.
  - apply andb_prop in Hasc as [_ Htl].
    constructor; [|now apply (IH (S n1))].
    exists n1. split; [done|].
    assert (Hin : k ∈ tl ++ k :: ks2).
    { apply list_elem_of_In, in_or_app. right. now left. }
    pose proof (ascending_bound _ _ _ _ Htl Hin Hk). lia.
  - apply andb_prop in Hasc as [Hall _].
    rewrite forallb_forall in Hall.
    assert (Hk' : bool_decide (array_index k = None) = true).
    { apply Hall, in_or_app. right. now left. }
    apply bool_decide_eq_true in Hk'. congruence.
Qed.

Lemma ascending_names ks :
  Forall (fun k => array_index k = None) ks -> NoDup ks ->
  forall lo, ascending lo ks = true.
Proof.
  intros Hall Hnd lo. destruct ks as [|k tl]; [done|]. cbn [ascending].
  inversion Hall as [|? ? Hk Htl]; subst. rewrite Hk.
  apply andb_true_intro. split; [|now apply bool_decide_eq_true].
  apply forallb_forall. intros k' Hin. apply bool_decide_eq_true.
  rewrite Forall_forall in Htl. apply Htl. now apply list_elem_of_In.
Qed.

(** After a key that is not integer-like come such keys only. *)
Lemma ascending_after lo ks1 k ks2 :
  ascending lo (ks1 ++ k :: ks2) = true -> array_index k = None ->
  Forall (fun k' => array_index k' = None) ks2.
Proof.
  revert lo. induction ks1 as [|k1 tl IH]; intros lo Hasc Hk.
  - cbn [app ascending] in Hasc. rewrite Hk in Hasc.
    apply andb_prop in Hasc as [Hall _].
    rewrite forallb_forall in Hall. apply Forall_forall.
    intros k' Hin. eapply bool_decide_eq_true_1, Hall.
    now apply list_elem_of_In.
  - cbn [app ascending] in Hasc.
    destruct (array_index k1) as [n1|] eqn:Hk1.
    + apply andb_prop in Hasc as [_ Htl]. now apply (IH (S n1)).
    + apply andb_prop in Hasc as [Hall _].
      rewrite forallb_forall in Hall. apply Forall_forall.
      intros k' Hin. eapply bool_decide_eq_true_1, Hall.
      apply in_or_app. right. right. now apply list_elem_of_In.
Qed.

Lemma keys_replace k v props :
  map fst (obj_replace k v props) = map fst props.
Proof.
  induction props as [|[k' v'] tl IH]; [done|]. cbn [obj_replace].
  destruct (String.eqb k k'); [done|]. cbn [map fst]. now rewrite IH.
Qed.

Lemma obj_lookup_None k props :
  obj_lookup k props = None <-> k ∉ map fst props.
Proof.
  rewrite obj_lookup_In. split.
  - intros -> [? [=]].
  - intros Hn. destruct (obj_lookup k props); [|done]. exfalso. eauto.
Qed.

Lemma ascending_insert_index lo n k v props :
  ascending lo (map fst props) = true ->
  obj_lookup k props = None -> array_index k = Some n ->
  ascending (Nat.min lo n) (map fst (obj_insert_index n k v props)) = true.
Proof.
  revert lo. induction props as [|[k' v'] tl IH]; intros lo Hasc Hnone Hk.
  - cbn. rewrite Hk. rewrite andb_true_r. apply Nat.leb_le. lia.
  - cbn [obj_lookup] in Hnone.
    destruct (String.eqb_spec k k') as [->|Hne]; [done|].
    cbn [map fst ascending] in Hasc. cbn [obj_insert_index].
    destruct (array_index k') as [n'|] eqn:Hk'.
    + apply andb_prop in Hasc as [Hlo Htl]. apply Nat.leb_le in Hlo.
      destruct (n' <? n)%nat eqn:Hlt.
      * apply Nat.ltb_lt in Hlt. cbn [map fst ascending]. rewrite Hk'.
        apply andb_true_intro. split; [apply Nat.leb_le; lia|].
        specialize (IH (S n') Htl Hnone Hk).
        now replace (Nat.min (S n') n) with (S n') in IH by lia.
      * apply Nat.ltb_ge in Hlt.
        assert (n <> n').
        { intros ->. apply Hne. eapply array_index_inj; eauto. }
        cbn [map fst ascending]. rewrite Hk, Hk'.
        repeat (apply andb_true_intro; split); try (apply Nat.leb_le; lia).
        done.
    + cbn [map fst ascending]. rewrite Hk, Hk'.
      apply andb_true_intro. split; [apply Nat.leb_le; lia|done].
Qed.

Lemma ascending_append lo k ks :
  ascending lo ks = true -> k ∉ ks -> array_index k = None ->
  ascending lo (ks ++ [k]) = true.
Proof.
  revert lo. induction ks as [|k0 tl IH]; intros lo Hasc Hnin Hk.
  - cbn. rewrite Hk. cbn. apply bool_decide_eq_true.
    apply NoDup_singleton.
  - cbn [app ascending] in *.
    destruct (array_index k0) as [n0|] eqn:Hk0.
    + apply andb_prop in Hasc as [Hlo Htl].
      apply andb_true_intro. split; [done|].
      apply IH; [done| |done]. intros Hin. apply Hnin. now right.
    + apply andb_prop in Hasc as [Hall Hnd].
      apply bool_decide_eq_true in Hnd.
      apply andb_true_intro. split.
      * rewrite forallb_app, Hall. cbn. rewrite andb_true_r.
        now apply bool_decide_eq_true.
      * apply bool_decide_eq_true.
        change (NoDup ((k0 :: tl) ++ [k])).
        apply NoDup_app. split; [done|]. split; [|apply NoDup_singleton].
        intros x Hx Hx'. apply list_elem_of_singleton in Hx' as ->. done.
Qed.

(** Defining a property keeps the engine's order. *)
Lemma engine_order_define k v props :
  engine_order props = true -> engine_order (obj_define k v props) = true.
Proof.
  unfold engine_order, obj_define. intros Hasc.
  destruct (obj_lookup k props) as [x|] eqn:Hk.
  - now rewrite keys_replace.
  - destruct (array_index k) as [n|] eqn:Hi.
    + now apply (ascending_insert_index 0 n k v props).
    + rewrite map_app. apply ascending_append; [done| |done].
      now apply obj_lookup_None.
Qed.

Lemma engine_order_fold (f : string -> A) (keys : list string) acc :
  engine_order acc = true ->
  engine_order (fold_left (fun acc k => obj_define k (f k) acc) keys acc)
  = true.
Proof.
  revert acc. induction keys as [|k keys IH]; intros acc Hacc; [done|].
  cbn [fold_left]. apply IH. now apply engine_order_define.
Qed.

(** A spread yields an object in the engine's order. *)
Lemma engine_order_spread src acc :
  engine_order acc = true -> engine_order (spread undef src acc) = true.
Proof. apply engine_order_fold. Qed.

Lemma obj_insert_index_last n k v props :
  Forall (fun k' => exists n', array_index k' = Some n' /\ n' < n)
    (map fst props) ->
  obj_insert_index n k v props = props ++ [(k, v)].
Proof.
  induction props as [|[k' v'] tl IH]; [done|].
  cbn [map fst]. intros Hall.
  inversion Hall as [|? ? (n' & Hk' & Hlt) Htl]; subst.
  cbn [obj_insert_index]. rewrite Hk'.
  apply Nat.ltb_lt in Hlt. rewrite Hlt. cbn [app]. now rewrite IH.
Qed.

Lemma obj_lookup_middle k v pre post :
  k ∉ map fst pre -> obj_lookup k (pre ++ (k, v) :: post) = Some v.
Proof.
  intros Hnin. rewrite obj_lookup_app.
  apply obj_lookup_None in Hnin. rewrite Hnin. cbn.
  now rewrite String.eqb_refl.
Qed.

Lemma spread_prefix pre post :
  engine_order (pre ++ post) = true ->
  fold_left
    (fun acc k =>
       obj_define k (default undef (obj_lookup k (pre ++ post))) acc)
    (map fst post) pre
  = pre ++ post.
Proof.
  revert pre. induction post as [|[k v] post IH]; intros pre Hord.
  - cbn. now rewrite app_nil_r.
  - cbn [map fst fold_left].
    unfold engine_order in Hord. rewrite map_app in Hord.
    cbn [map fst] in Hord.
    pose proof (ascending_NoDup _ _ Hord) as Hnd.
    apply NoDup_app in Hnd as (_ & Hdisj & _).
    assert (Hnin : k ∉ map fst pre).
    { intros Hin. apply (Hdisj _ Hin). left. }
    rewrite obj_lookup_middle by done.
    change (default undef (Some v)) with v.
    assert (Hdef : obj_define k v pre = pre ++ [(k, v)]).
    { unfold obj_define. apply obj_lookup_None in Hnin. rewrite Hnin.
      destruct (array_index k) as [n|] eqn:Hk; [|done].
      apply obj_insert_index_last.
      eapply ascending_before; eauto. }
    rewrite Hdef.
    replace (pre ++ (k, v) :: post) with ((pre ++ [(k, v)]) ++ post)
      by now rewrite <- app_assoc.
    apply IH. unfold engine_order.
    now rewrite <- app_assoc, map_app.
Qed.

(** Spreading an object in the engine's order copies it as it is. *)
Lemma spread_engine_order props :
  engine_order props = true -> spread undef props [] = props.
Proof. intros Hord. apply (spread_prefix [] props Hord). Qed.

Lemma obj_replace_replace k v v' props :
  obj_replace k v' (obj_replace k v props) = obj_replace k v' props.
Proof.
  induction props as [|[k0 v0] tl IH]; [done|]. cbn [obj_replace].
  destruct (String.eqb_spec k k0) as [->|Hne]; cbn [obj_replace].
  - now rewrite String.eqb_refl.
  - destruct (String.eqb_spec k k0); [done|]. now rewrite IH.
Qed.

Lemma obj_replace_insert_index n k v v' props :
  obj_lookup k props = None ->
  obj_replace k v' (obj_insert_index n k v props)
  = obj_insert_index n k v' props.
Proof.
  induction props as [|[k0 v0] tl IH]; intros Hnone.
  - cbn. now rewrite String.eqb_refl.
  - cbn [obj_lookup] in Hnone.
    destruct (String.eqb_spec k k0) as [->|Hne]; [done|].
    cbn [obj_insert_index].
    destruct (array_index k0) as [n0|].
    + destruct (n0 <? n)%nat; cbn [obj_replace].
      * destruct (String.eqb_spec k k0); [done|]. now rewrite IH.
      * now rewrite String.eqb_refl.
    + cbn [obj_replace]. now rewrite String.eqb_refl.
Qed.

Lemma obj_replace_append k v v' props :
  obj_lookup k props = None ->
  obj_replace k v' (props ++ [(k, v)]) = props ++ [(k, v')].
Proof.
  induction props as [|[k0 v0] tl IH]; intros Hnone.
  - cbn. now rewrite String.eqb_refl.
  - cbn [obj_lookup] in Hnone.
    destruct (String.eqb_spec k k0) as [->|Hne]; [done|].
    cbn [app obj_replace].
    destruct (String.eqb_spec k k0); [done|]. now rewrite IH.
Qed.

(** Of two definitions of one key the second stands. *)
Lemma obj_define_define k v v' props :
  obj_define k v' (obj_define k v props) = obj_define k v' props.
Proof.
  unfold obj_define at 1. rewrite obj_lookup_define_eq.
  unfold obj_define.
  destruct (obj_lookup k props) as [x|] eqn:Hk.
  - apply obj_replace_replace.
  - destruct (array_index k) as [n|].
    + now apply obj_replace_insert_index.
    + now apply obj_replace_append.
Qed.

Lemma obj_replace_same k v props :
  obj_lookup k props = Some v -> obj_replace k v props = props.
Proof.
  induction props as [|[k0 v0] tl IH]; [done|]. cbn [obj_lookup obj_replace].
  destruct (String.eqb_spec k k0) as [->|Hne].
  - now intros [= ->].
  - intros Hk. now rewrite IH.
Qed.

(** Defining a key with the value it has changes nothing. *)
Lemma obj_define_same k v props :
  obj_lookup k props = Some v -> obj_define k v props = props.
Proof.
  intros Hk. unfold obj_define. rewrite Hk. now apply obj_replace_same.
Qed.

Lemma arr_set_set (xs : list A) n v v' :
  arr_set undef (arr_set undef xs n v) n v' = arr_set undef xs n v'.
Proof.
  unfold arr_set.
  destruct (n <? length xs)%nat eqn:Hlt.
  - rewrite length_insert, Hlt. apply list_insert_insert_eq.
  - apply Nat.ltb_ge in Hlt.
    rewrite !length_app, length_replicate. cbn [length].
    replace (n <? length xs + (n - length xs + 1))%nat with true
      by (symmetry; apply Nat.ltb_lt; lia).
    rewrite insert_app_r_alt by lia.
    rewrite insert_app_r_alt by (rewrite length_replicate; lia).
    rewrite length_replicate.
    now replace (n - length xs - (n - length xs)) with 0 by lia.
Qed.

Lemma arr_set_same (xs : list A) n v :
  xs !! n = Some v -> arr_set undef xs n v = xs.
Proof.
  intros Hn. unfold arr_set.
  pose proof (lookup_lt_Some _ _ _ Hn) as Hlt.
  apply Nat.ltb_lt in Hlt. rewrite Hlt. now apply list_insert_id.
Qed.
End OrderFacts.

(* ===================================================================== *)
(** * [setAtPath]: writing twice, writing back *)
(* ===================================================================== *)

Lemma own_order_clone (root : value) (head : segment) :
  own_order (clone root head) = true.
Proof.
  unfold clone.
  destruct root; cbn; rewrite ?andb_false_r; try done;
    try (now destruct head).
  now apply engine_order_spread.
Qed.

Lemma own_order_put_own (c : value) (s : segment) (x : value) :
  own_order c = true -> own_order (put_own c s x) = true.
Proof.
  destruct c; cbn; try done.
  - now destruct (array_index _).
  - apply engine_order_define.
Qed.

(** A container whose keys are in order is cloned as it is. *)
Lemma clone_own_order (c : value) (head : segment) :
  is_container c = true -> own_order c = true -> clone c head = c.
Proof.
  destruct c; try done; intros _ Hord.
  unfold clone, clone_object.
  cbn [isArray truthy typeof_object andb own_props].
  now rewrite spread_engine_order.
Qed.

Lemma put_own_put_own (c : value) (s : segment) (x x' : value) :
  put_own (put_own c s x) s x' = put_own c s x'.
Proof.
  destruct c; cbn; try done.
  - destruct (array_index (prop_key s)) as [n|] eqn:Hn; cbn; rewrite Hn.
    + now rewrite arr_set_set.
    + done.
  - now rewrite obj_define_define.
Qed.

Lemma put_own_unfit (c : value) (s : segment) (x : value) :
  fits c s = false -> put_own c s x = c.
Proof.
  destruct c; cbn; try done.
  intros Hfit%bool_decide_eq_false.
  destruct (array_index (prop_key s)); [|done].
  exfalso. apply Hfit. eauto.
Qed.

Lemma setAtPath_twice (D : value) (P : path) (V V' : value) :
  setAtPath (setAtPath D P V) P V' = setAtPath D P V'.
Proof.
  revert D. induction P as [|head rest IH]; intros D; [done|].
  rewrite !setAtPath_cons.
  set (c := clone D head).
  set (X := setAtPath (get_own c head) rest V).
  assert (Hc : is_container c = true) by apply clone_container.
  assert (Ho : own_order c = true) by apply own_order_clone.
  rewrite (clone_own_order (put_own c head X))
    by (rewrite ?put_own_container; auto using own_order_put_own).
  rewrite put_own_put_own.
  destruct (fits c head) eqn:Hfit.
  - rewrite get_own_put_own_eq by done. unfold X. now rewrite IH.
  - now rewrite !put_own_unfit.
Qed.

Lemma put_own_same (c : value) (s : segment) :
  is_container c = true -> has_slot c s = true ->
  put_own c s (get_own c s) = c.
Proof.
  destruct c as [| | | | |xs|props]; try done; intros _; cbn.
  - destruct (array_index (prop_key s)) as [n|]; [|done].
    intros Hn%Nat.ltb_lt. unfold arr_get.
    destruct (lookup_lt_is_Some_2 xs n Hn) as [x Hx]. rewrite Hx. cbn.
    now rewrite arr_set_same.
  - intros [x Hx]%bool_decide_eq_true. rewrite Hx. cbn.
    now rewrite obj_define_same.
Qed.

Lemma well_kept_own_order (v : value) :
  well_kept v = true -> own_order v = true.
Proof. destruct v; try done. cbn. now intros [? _]%andb_prop. Qed.

Lemma obj_lookup_elem {A : Type} (k : string) (v : A)
    (props : list (string * A)) :
  obj_lookup k props = Some v -> In (k, v) props.
Proof.
  induction props as [|[k0 v0] tl IH]; [done|]. cbn [obj_lookup].
  destruct (String.eqb_spec k k0) as [->|Hne].
  - intros [= ->]. now left.
  - intros Hk. right. now apply IH.
Qed.

Lemma well_kept_get_own (v : value) (s : segment) :
  well_kept v = true -> well_kept (get_own v s) = true.
Proof.
  destruct v as [| | | |str|xs|props]; try done; cbn.
  - intros _. destruct (array_index _) as [n|]; [|done].
    unfold str_get. now destruct (String.get n str).
  - intros Hall. destruct (array_index _) as [n|]; [|done].
    unfold arr_get. destruct (xs !! n) as [x|] eqn:Hx; [|done]. cbn.
    rewrite forallb_forall in Hall. apply Hall.
    apply list_elem_of_In. eapply list_elem_of_lookup_2; eauto.
  - intros [_ Hall]%andb_prop.
    destruct (obj_lookup _ _) as [x|] eqn:Hx; [|done]. cbn.
    rewrite forallb_forall in Hall.
    apply (Hall _ (obj_lookup_elem _ _ _ Hx)).
Qed.

Lemma setAtPath_same (D : value) (P : path) :
  well_kept D = true -> present D P = true ->
  setAtPath D P (read_loop D P) = D.
Proof.
  revert D. induction P as [|head rest IH]; intros D Hk Hp; [done|].
  cbn [present] in Hp.
  apply andb_prop in Hp as [[Hc Hs]%andb_prop Hrest].
  rewrite setAtPath_cons, read_loop_cons, member_opt_container by done.
  rewrite clone_own_order by auto using well_kept_own_order.
  rewrite IH by auto using well_kept_get_own.
  now apply put_own_same.
Qed.

(* ===================================================================== *)
(** * The two writers *)
(* ===================================================================== *)

(** The loop of [writeJsonAtPath] completes exactly when the parents of
    the target exist. *)
Lemma write_loop_reachable (D : value) (P : path) (V : value) :
  P <> [] ->
  reachable D P = true <-> exists t, write_loop D P V = Ok t.
Proof.
  revert D. induction P as [|s [|s' rest] IH]; intros D Hne; [done| |].
  - cbn [reachable write_loop]. unfold assign.
    destruct (is_container D); split; eauto; try done.
    now intros [t [=]].
  - rewrite write_loop_cons.
    change (reachable D (s :: s' :: rest))
      with (is_container D && reachable (get_own D s) (s' :: rest)).
    destruct (is_container D) eqn:Hc.
    + assert (Hn : nullish D = false) by now destruct D.
      unfold member. rewrite Hn. cbn [andb].
      rewrite (IH (get_own D s)) by done.
      split.
      * intros [t ->]. eauto.
      * intros [t Ht].
        destruct (write_loop (get_own D s) (s' :: rest) V); [eauto|done].
    + cbn [andb]. split; [done|]. intros [t Ht].
      rewrite <- write_loop_cons in Ht.
      now rewrite write_loop_non_container in Ht.
Qed.

(** Where the loop of [writeJsonAtPath] completes on a value that the
    engine has built, it gives what [setAtPath] gives. *)
Lemma write_loop_setAtPath (D : value) (P : path) (V t : value) :
  P <> [] -> well_kept D = true ->
  write_loop D P V = Ok t -> t = setAtPath D P V.
Proof.
  revert D t. induction P as [|s [|s' rest] IH]; intros D t Hne Hk; [done| |].
  - cbn [write_loop setAtPath]. unfold assign.
    destruct (is_container D) eqn:Hc; [|done]. intros [= <-].
    now rewrite clone_own_order by auto using well_kept_own_order.
  - rewrite write_loop_cons, setAtPath_cons.
    destruct (is_container D) eqn:Hc.
    + assert (Hn : nullish D = false) by now destruct D.
      unfold member. rewrite Hn.
      rewrite clone_own_order by auto using well_kept_own_order.
      destruct (write_loop (get_own D s) (s' :: rest) V) as [t'|] eqn:Ht;
        [|done].
      intros [= <-]. f_equal.
      apply IH; auto using well_kept_get_own.
    + intros Ht. rewrite <- write_loop_cons in Ht.
      now rewrite write_loop_non_container in Ht.
Qed.

Lemma present_reachable (D : value) (P : path) :
  present D P = true -> reachable D P = true.
Proof.
  revert D. induction P as [|s [|s' rest] IH]; intros D; [done| |].
  - cbn. now intros [[? _]%andb_prop _]%andb_prop.
  - change (present D (s :: s' :: rest))
      with (is_container D && has_slot D s
            && present (get_own D s) (s' :: rest)).
    change (reachable D (s :: s' :: rest))
      with (is_container D && reachable (get_own D s) (s' :: rest)).
    intros [[-> _]%andb_prop Hrest]%andb_prop. now apply IH.
Qed.

Lemma well_kept_read_loop (D : value) (P : path) :
  well_kept D = true -> well_kept (read_loop D P) = true.
Proof.
  revert D. induction P as [|s rest IH]; intros D Hk; [done|].
  rewrite read_loop_cons. apply IH. unfold member_opt.
  destruct (nullish D); [done|]. now apply well_kept_get_own.
Qed.

(** Reading below the path after [setAtPath] reads the value set. *)
Lemma read_loop_setAtPath (D : value) (P Q : path) (V : value) :
  compatible D P = true ->
  read_loop (setAtPath D P V) (P ++ Q) = read_loop V Q.
Proof.
  revert D. induction P as [|head rest IH]; intros D Hc; [done|].
  cbn [compatible] in Hc. apply andb_prop in Hc as [Hfit Hrest].
  cbn [app]. rewrite setAtPath_cons, read_loop_cons.
  rewrite member_opt_container
    by (rewrite put_own_container; apply clone_container).
  rewrite get_own_put_own_eq
    by (apply clone_container || now apply fits_clone).
  apply IH. now rewrite get_own_clone.
Qed.

(** Reading below the path after the loop of [writeJsonAtPath] reads the
    value written. *)
Lemma read_loop_write_loop (D : value) (P Q : path) (V t : value) :
  P <> [] -> compatible D P = true -> write_loop D P V = Ok t ->
  read_loop t (P ++ Q) = read_loop V Q.
Proof.
  revert D t. induction P as [|s [|s' rest] IH]; intros D t Hne Hc; [done| |].
  - cbn [write_loop]. unfold assign.
    destruct (is_container D) eqn:HD; [|done]. intros [= <-].
    cbn [compatible] in Hc. apply andb_prop in Hc as [Hfit _].
    cbn [app]. rewrite read_loop_cons.
    rewrite member_opt_container by now rewrite put_own_container.
    now rewrite get_own_put_own_eq.
  - rewrite write_loop_cons.
    destruct (is_container D) eqn:HD.
    + assert (Hn : nullish D = false) by now destruct D.
      unfold member. rewrite Hn.
      destruct (write_loop (get_own D s) (s' :: rest) V) as [t'|] eqn:Ht;
        [|done].
      intros [= <-].
      change (compatible D (s :: s' :: rest))
        with (fits D s
              && compatible (if is_container D then get_own D s
                             else VUndefined) (s' :: rest)) in Hc.
      rewrite HD in Hc. apply andb_prop in Hc as [Hfit Hrest].
      change ((s :: s' :: rest) ++ Q) with (s :: ((s' :: rest) ++ Q)).
      rewrite read_loop_cons.
      rewrite member_opt_container by now rewrite put_own_container.
      rewrite get_own_put_own_eq by done.
      now apply (IH (get_own D s)).
    + intros Ht. rewrite <- write_loop_cons in Ht.
      now rewrite write_loop_non_container in Ht.
Qed.

(** Spreading an object over itself changes nothing. *)
Lemma spread_self_keys {A : Type} (undef : A) (src : list (string * A))
    (keys : list string) :
  Forall (fun k => is_Some (obj_lookup k src)) keys ->
  fold_left
    (fun acc k => obj_define k (default undef (obj_lookup k src)) acc)
    keys src = src.
Proof.
  induction keys as [|k keys IH]; [done|].
  intros Hall. inversion Hall as [|? ? [v Hk] Hrest]; subst.
  cbn [fold_left]. rewrite Hk. change (default undef (Some v)) with v.
  rewrite obj_define_same by done. now apply IH.
Qed.

Lemma spread_self {A : Type} (undef : A) (src : list (string * A)) :
  spread undef src src = src.
Proof.
  apply spread_self_keys. apply Forall_forall. intros k Hin.
  now apply obj_lookup_In.
Qed.

(** Merging a value that the engine has built with itself gives it
    back. *)
Lemma merged_self (v : value) : own_order v = true -> merged v v = v.
Proof.
  intros Hord. unfold merged.
  destruct v as [| |b|n|s|xs|props]; cbn [truthy typeof_object isArray];
    rewrite ?andb_false_r, ?andb_false_l; try done.
  cbn [negb andb own_props].
  rewrite spread_engine_order by done. now rewrite spread_self.
Qed.

Section WriterFacts.
Context {E : JsEngine}.

(** What [writeJsonAtPath] writes where the parents of the target
    exist. *)
Lemma written_reachable (D : value) (p : option path) (V : value) :
  reachable D (default [] p) = true ->
  exists t, written D p V = Ok (JSON_stringify t) /\
            (forall Q, compatible D (default [] p) = true ->
                       read_loop t (default [] p ++ Q) = read_loop V Q) /\
            (well_kept D = true -> t = setAtPath D (default [] p) V).
Proof.
  intros Hr. unfold written.
  destruct p as [[|s segs]|]; cbn [default] in *.
  - exists V. done.
  - destruct (proj1 (write_loop_reachable D (s :: segs) V ltac:(done)) Hr)
      as [t Ht].
    exists t. rewrite Ht. split; [done|]. split.
    + intros Q Hc. now apply (read_loop_write_loop D (s :: segs) Q V t).
    + intros Hk. now apply write_loop_setAtPath.
  - exists V. done.
Qed.
End WriterFacts.

(** X1.  The last write wins: on a document that is compatible with
    the path, a path of plain keys, setting a value at the path and then
    another at the same path gives what setting the second alone gives.
    So it is with the listener on a document that the engine has built:
    where the text that the first save wrote reads back as the value it
    rendered, a second save at the same path leaves the text-buffer
    store as if only it had happened. *)
Theorem setAtPath_last_write_wins :
  (forall (D : value) (P : path) (V V' : value),
      plain_path P = true -> compatible D P = true ->
      setAtPath (setAtPath D P V) P V' = setAtPath D P V') /\
  (forall (E : JsEngine) (P : path) (V V' D : value) (w : World),
      JSON_parse (contents (useFile w)) = Some D ->
      well_kept D = true ->
      plain_path P = true -> compatible D P = true ->
      JSON_parse (JSON_stringify (setAtPath D P V))
        = Some (setAtPath D P V) ->
      handleNodeSave P V' (handleNodeSave P V w).2 = handleNodeSave P V' w).
Proof.
  split; [intros D P V V' _ _; apply setAtPath_twice|].
  intros E P V V' D w HD _ _ _ Hround.
  rewrite (handleNodeSave_run P V w), HD. cbn [snd].
  rewrite !handleNodeSave_run. cbn [useFile with_file contents].
  now rewrite Hround, HD, setAtPath_twice.
Qed.

Lemma setAtPath_last_write_wins_witness :
  let doc := Reference.js "{'a':[1,{'b':2}],'c':null}" in
  let w := editing_world doc EmptyString (GraphValue VNull) in
  let P := [SKey "a"; SIdx 1; SKey "b"] in
  @handleNodeSave Reference.engine P (VBool true)
    (@handleNodeSave Reference.engine P (VStr "x") w).2
  = @handleNodeSave Reference.engine P (VBool true) w.
Proof.
  intros doc w P.
  apply (proj2 setAtPath_last_write_wins Reference.engine P (VStr "x")
           (VBool true)
           (VObj [("a", VArr [VNum (int 1); VObj [("b", VNum (int 2))]]);
                  ("c", VNull)]) w); vm_compute; reflexivity.
Defined.

(** X2.  Writing back what is read changes nothing: on a document that
    the engine has built, setting at an existing path the value read
    there gives the document itself; the listener then stores the
    rendering of the same document. *)
Theorem setAtPath_write_back :
  (forall (D : value) (P : path),
      well_kept D = true -> present D P = true ->
      setAtPath D P (read_loop D P) = D) /\
  (forall (E : JsEngine) (P : path) (D : value) (w : World),
      JSON_parse (contents (useFile w)) = Some D ->
      well_kept D = true -> present D P = true ->
      handleNodeSave P (read_loop D P) w =
      (Ok tt,
       with_file {| contents := JSON_stringify D; hasChanges := true |} w)).
Proof.
  split; [exact setAtPath_same|].
  intros E P D w HD Hk Hp.
  now rewrite handleNodeSave_run, HD, setAtPath_same.
Qed.

Lemma setAtPath_write_back_witness :
  let D := VObj [("0", VNull); ("a", VArr [VNum (int 1); VObj [("b", VStr "x")]])] in
  let P := [SKey "a"; SIdx 1; SKey "b"] in
  well_kept D = true /\ present D P = true /\
  setAtPath D P (read_loop D P) = D.
Proof.
  intros D P. split; [reflexivity|]. split; [reflexivity|].
  apply (proj1 setAtPath_write_back D P); reflexivity.
Defined.

(** X3.  The two writers agree.  On a document that the engine has
    built, and a path of plain keys that the document is compatible with
    and the parents of whose target exist, [writeJsonAtPath] returns,
    logging nothing, the rendering of [setAtPath]'s result, which is the
    text that [handleNodeSave] puts in the text-buffer store. *)
Theorem writers_agree
    (E : JsEngine) (P : path) (V D : value) (w : World) :
  JSON_parse (contents (useFile w)) = Some D ->
  well_kept D = true -> reachable D P = true ->
  plain_path P = true -> compatible D P = true ->
  writeJsonAtPath (contents (useFile w)) (Some P) V w
    = (Ok (JSON_stringify (setAtPath D P V)), w) /\
  handleNodeSave P V w =
    (Ok tt,
     with_file {| contents := JSON_stringify (setAtPath D P V);
                  hasChanges := true |} w).
Proof.
  intros HD Hk Hr _ _. split; [|now rewrite handleNodeSave_run, HD].
  rewrite writeJsonAtPath_run, HD.
  destruct (written_reachable D (Some P) V Hr) as (t & -> & _ & Ht).
  now rewrite (Ht Hk).
Qed.

Lemma writers_agree_witness :
  let doc := Reference.js "{'a':[1,{'b':2}],'c':null}" in
  let w := editing_world doc EmptyString (GraphValue VNull) in
  let P := [SKey "a"; SIdx 1; SKey "z"] in
  let text := Reference.js "{
  'a': [
    1,
    {
      'b': 2,
      'z': true
    }
  ],
  'c': null
}" in
  @writeJsonAtPath Reference.engine doc (Some P) (VBool true) w = (Ok text, w) /\
  @handleNodeSave Reference.engine P (VBool true) w =
    (Ok tt, with_file {| contents := text; hasChanges := true |} w).
Proof.
  intros doc w P text.
  apply (writers_agree Reference.engine P (VBool true)
           (VObj [("a", VArr [VNum (int 1); VObj [("b", VNum (int 2))]]);
                  ("c", VNull)]) w); vm_compute; reflexivity.
Defined.

(** X4.  A write is read back.  Where the document parses and the loop
    of [writeJsonAtPath] completes on a non-empty path of plain keys
    that meets arrays at indices only, the function returns the
    rendering of the document written and logs nothing; if that text
    reads back as the document rendered, [readValueAtPath] on it
    returns, at the path, the value written. *)
Theorem writeJsonAtPath_then_read
    (E : JsEngine) (json : string) (P : path) (V D t : value) (w w0 : World) :
  P <> [] -> JSON_parse json = Some D -> write_loop D P V = Ok t ->
  plain_path P = true -> compatible D P = true ->
  JSON_parse (JSON_stringify t) = Some t ->
  writeJsonAtPath json (Some P) V w = (Ok (JSON_stringify t), w) /\
  readValueAtPath (JSON_stringify t) (Some P) w0 = (Ok V, w0).
Proof.
  intros Hne HD Ht _ Hc Hround. split.
  - rewrite writeJsonAtPath_run, HD. unfold written.
    destruct P as [|s segs]; [done|]. now rewrite Ht.
  - rewrite readValueAtPath_run, Hround.
    change (default [] (Some P)) with P.
    pose proof (read_loop_write_loop D P [] V t Hne Hc Ht) as Hread.
    rewrite app_nil_r in Hread. now rewrite Hread.
Qed.

Lemma writeJsonAtPath_then_read_witness :
  let doc := Reference.js "{'a':[1,{'b':2}],'c':null}" in
  let P := [SKey "a"; SIdx 0] in
  let V := VObj [("k", VStr "v")] in
  let text := Reference.js "{
  'a': [
    {
      'k': 'v'
    },
    {
      'b': 2
    }
  ],
  'c': null
}" in
  @writeJsonAtPath Reference.engine doc (Some P) V world0 = (Ok text, world0) /\
  @readValueAtPath Reference.engine text (Some P) world0 = (Ok V, world0).
Proof.
  intros doc P V text.
  apply (writeJsonAtPath_then_read Reference.engine doc P V
           (VObj [("a", VArr [VNum (int 1); VObj [("b", VNum (int 2))]]);
                  ("c", VNull)])
           (VObj [("a", VArr [V; VObj [("b", VNum (int 2))]]);
                  ("c", VNull)]) world0 world0);
    try (vm_compute; reflexivity).
  done.
Defined.

(** X5.  A saved edit is read back.  After [handleNodeSave] on a
    document that parses, that the engine has built and that the path, a
    path of plain keys, meets at indices wherever it meets an array,
    with a text that reads back as the document rendered,
    [readValueAtPath] on the new contents of the text-buffer store
    returns the value saved at the path; missing parents have been
    created. *)
Theorem handleNodeSave_then_read
    (E : JsEngine) (P : path) (V D : value) (w w0 : World) :
  JSON_parse (contents (useFile w)) = Some D ->
  well_kept D = true ->
  plain_path P = true -> compatible D P = true ->
  JSON_parse (JSON_stringify (setAtPath D P V)) = Some (setAtPath D P V) ->
  readValueAtPath (contents (useFile (handleNodeSave P V w).2)) (Some P) w0
  = (Ok V, w0).
Proof.
  intros HD _ _ Hc Hround.
  rewrite handleNodeSave_run, HD. cbn [snd useFile with_file contents].
  rewrite readValueAtPath_run, Hround.
  change (default [] (Some P)) with P.
  pose proof (read_loop_setAtPath D P [] V Hc) as Hread.
  rewrite app_nil_r in Hread. now rewrite Hread.
Qed.

Lemma handleNodeSave_then_read_witness :
  let doc := Reference.js "{'a':[1,{'b':2}],'c':null}" in
  let w := editing_world doc EmptyString (GraphValue VNull) in
  let P := [SKey "c"; SKey "d"; SIdx 0] in
  @readValueAtPath Reference.engine
    (contents (useFile (@handleNodeSave Reference.engine P
                          (VArr [VStr "x"]) w).2))
    (Some P) world0
  = (Ok (VArr [VStr "x"]), world0).
Proof.
  intros doc w P.
  apply (handleNodeSave_then_read Reference.engine P (VArr [VStr "x"])
           (VObj [("a", VArr [VNum (int 1); VObj [("b", VNum (int 2))]]);
                  ("c", VNull)]) w world0); vm_compute; reflexivity.
Defined.

(** X6.  A save at an existing place writes the merged value there.  On
    a document that the engine has built, at a path of plain keys that
    the document is compatible with and the parents of whose target
    exist, the keys of the value the draft denotes being plain,
    [commitEdit] logs nothing and pushes to the parsed-JSON store and to
    the text-buffer store the rendering of the document with the merged
    value set at the path; where that text reads back as the document
    rendered, the graph store receives this document, and
    [readValueAtPath] on the new text returns the merged value at the
    node's path. *)
Theorem commitEdit_writes_merged
    (E : JsEngine) (nodeData : option NodeData) (w w0 : World) (D : value) :
  let P := default [] (path_of nodeData) in
  let m := merged (read_loop D P) (coerced (draft w)) in
  let t := setAtPath D P m in
  let w' := (commitEdit nodeData w).2 in
  JSON_parse (useJson w) = Some D ->
  well_kept D = true -> reachable D P = true ->
  plain_path P = true -> compatible D P = true ->
  forallb (fun kv => plain_key kv.1) (own_props (coerced (draft w))) = true ->
  (useJson w' = JSON_stringify t /\
   useFile w' = {| contents := JSON_stringify t; hasChanges := true |} /\
   console w' = console w) /\
  (JSON_parse (JSON_stringify t) = Some t ->
   useGraph w' = GraphValue t /\
   readValueAtPath (useJson w') (path_of nodeData) w0 = (Ok m, w0)).
Proof.
  intros P m t w' HD Hk Hr _ Hc _. subst w'.
  rewrite commitEdit_run, HD. fold P. fold m.
  destruct (written_reachable D (path_of nodeData) m Hr)
    as (t' & -> & Hread & Ht).
  rewrite (Ht Hk). fold P. fold t.
  split; [done|]. intros Hround.
  cbn [snd published useJson useGraph with_baseline with_editing with_graph
         with_file with_json].
  rewrite Hround. split; [done|].
  rewrite readValueAtPath_run, Hround.
  specialize (Hread [] Hc). rewrite app_nil_r in Hread.
  rewrite (Ht Hk) in Hread. fold P in Hread. fold t in Hread.
  fold P. now rewrite Hread.
Qed.

Lemma commitEdit_writes_merged_witness :
  let doc := Reference.js "{'user':{'name':'Alice','age':30}}" in
  let w := editing_world doc (Reference.js "{'age':31,'city':'Oslo'}")
             (GraphValue VNull) in
  let nd := Some {| node_path := Some [SKey "user"] |} in
  let m := VObj [("name", VStr "Alice"); ("age", VNum (int 31));
                 ("city", VStr "Oslo")] in
  let w' := (@commitEdit Reference.engine nd w).2 in
  useGraph w' = GraphValue (VObj [("user", m)]) /\
  @readValueAtPath Reference.engine (useJson w') (Some [SKey "user"]) world0
  = (Ok m, world0).
Proof.
  intros doc w nd m w'.
  pose proof (commitEdit_writes_merged Reference.engine nd w world0
                (VObj [("user", VObj [("name", VStr "Alice");
                                      ("age", VNum (int 30))])])) as H.
  cbv zeta in H.
  destruct H as [_ H]; [vm_compute; reflexivity..|].
  apply H. vm_compute. reflexivity.
Defined.

(** X7.  Saving the value a node has changes no value.  On a document
    that the engine has built, if the draft denotes the value found at
    the node's path, which exists, [commitEdit] logs nothing and pushes
    the rendering of the document itself to the parsed-JSON store and to
    the text-buffer store. *)
Theorem commitEdit_same_value
    (E : JsEngine) (nodeData : option NodeData) (w : World) (D : value) :
  let P := default [] (path_of nodeData) in
  let w' := (commitEdit nodeData w).2 in
  JSON_parse (useJson w) = Some D ->
  well_kept D = true -> present D P = true ->
  coerced (draft w) = read_loop D P ->
  useJson w' = JSON_stringify D /\
  useFile w' = {| contents := JSON_stringify D; hasChanges := true |} /\
  console w' = console w.
Proof.
  intros P w' HD Hk Hp Hdraft. subst w'.
  rewrite commitEdit_run, HD. fold P. rewrite Hdraft.
  rewrite merged_self
    by (apply well_kept_own_order; now apply well_kept_read_loop).
  destruct (written_reachable D (path_of nodeData) (read_loop D P)
              (present_reachable _ _ Hp)) as (t' & -> & _ & Ht).
  rewrite (Ht Hk). fold P. now rewrite setAtPath_same.
Qed.

Lemma commitEdit_same_value_witness :
  let doc := Reference.js "{'user':{'name':'Alice','age':30}}" in
  let w := editing_world doc (Reference.js " {'name' : 'Alice', 'age' : 3e1} ")
             (GraphValue VNull) in
  let nd := Some {| node_path := Some [SKey "user"] |} in
  let w' := (@commitEdit Reference.engine nd w).2 in
  let D := VObj [("user", VObj [("name", VStr "Alice");
                                ("age", VNum (int 30))])] in
  useJson w' = @JSON_stringify Reference.engine D /\
  useFile w' = {| contents := @JSON_stringify Reference.engine D;
                  hasChanges := true |} /\
  console w' = console w.
Proof.
  intros doc w nd w' D.
  apply (commitEdit_same_value Reference.engine nd w D);
    vm_compute; reflexivity.
Defined.

(** X11.  A save below a missing parent is dropped without notice.  On
    a document that parses, at a path a parent of whose target is
    missing or no container, every access of the traversal up to there
    being the access of a slot, [commitEdit] ends normally and shows no
    alert; it leaves the text of the parsed-JSON store as it was, copies
    it to the text-buffer store marked as changed, gives the graph store
    the document as it was, logs the failure of [writeJsonAtPath] on the
    console, and leaves edit mode with the draft as the new baseline, as
    after a save that was applied. *)
Theorem commitEdit_unreachable
    (E : JsEngine) (I : JsInheritance) (nodeData : option NodeData)
    (w : World) (D : value) :
  let P := default [] (path_of nodeData) in
  let w' := (commitEdit nodeData w).2 in
  JSON_parse (useJson w) = Some D -> reachable D P = false ->
  plain_write D P = true ->
  (commitEdit nodeData w).1 = Ok tt /\
  useJson w' = useJson w /\
  useFile w' = {| contents := useJson w; hasChanges := true |} /\
  useGraph w' = GraphValue D /\
  console w' = console w ++ ["Error applying changes to JSON path:"] /\
  alerts w' = alerts w /\
  editing w' = false /\ draft w' = draft w /\ baseline w' = draft w.
Proof.
  intros P w' HD Hr _. subst w'.
  rewrite commitEdit_run, HD. fold P.
  assert (Hw : exists e, written D (path_of nodeData)
                           (merged (read_loop D P) (coerced (draft w)))
                         = Throw e).
  { unfold written. subst P.
    destruct (path_of nodeData) as [[|s segs]|]; try done.
    change (default [] (Some (s :: segs))) with (s :: segs) in *.
    destruct (write_loop D (s :: segs) _) as [t|e] eqn:Ht; [|eauto].
    exfalso.
    assert (Hex : exists t, write_loop D (s :: segs)
                              (merged (read_loop D (s :: segs))
                                 (coerced (draft w))) = Ok t) by eauto.
    apply write_loop_reachable in Hex; [congruence|done]. }
  destruct Hw as [e ->].
  cbn. now rewrite HD.
Qed.

Lemma commitEdit_unreachable_witness :
  let doc := Reference.js "{'user':{'name':'Alice'}}" in
  let w := editing_world doc "31" (GraphValue VNull) in
  let nd := Some {| node_path := Some [SKey "user"; SKey "address"; SKey "zip"] |} in
  let w' := (@commitEdit Reference.engine nd w).2 in
  useJson w' = doc /\
  useFile w' = {| contents := doc; hasChanges := true |} /\
  useGraph w' = GraphValue (VObj [("user", VObj [("name", VStr "Alice")])]) /\
  console w' = ["Error applying changes to JSON path:"] /\
  alerts w' = [] /\ editing w' = false /\ baseline w' = "31".
Proof.
  intros doc w nd w'.
  destruct (commitEdit_unreachable Reference.engine
              ReferenceInheritance.inheritance nd w
              (VObj [("user", VObj [("name", VStr "Alice")])]))
    as (_ & Hj & Hf & Hg & Hc & Ha & He & _ & Hb);
    [vm_compute; reflexivity..|].
  repeat split; assumption.
Defined.

(* ===================================================================== *)
(** * What the reference engine parses is in the engine's order *)
(* ===================================================================== *)

Lemma obj_replace_elem {A : Type} (k : string) (v : A)
    (props : list (string * A)) (kv : string * A) :
  In kv (obj_replace k v props) -> kv.2 = v \/ In kv props.
Proof.
  induction props as [|[k0 v0] tl IH]; cbn [obj_replace]; [done|].
  destruct (String.eqb k k0); cbn [In].
  - intros [<-|Hin]; [now left|right; now right].
  - intros [<-|Hin]; [right; now left|].
    destruct (IH Hin); [now left|right; now right].
Qed.

Lemma obj_insert_index_elem {A : Type} (n : nat) (k : string) (v : A)
    (props : list (string * A)) (kv : string * A) :
  In kv (obj_insert_index n k v props) -> kv.2 = v \/ In kv props.
Proof.
  induction props as [|[k0 v0] tl IH]; cbn [obj_insert_index].
  - intros [<-|[]]. now left.
  - destruct (array_index k0) as [n0|]; [destruct (n0 <? n)%nat|]; cbn [In].
    + intros [<-|Hin]; [right; now left|].
      destruct (IH Hin); [now left|right; now right].
    + intros [<-|Hin]; [now left|now right].
    + intros [<-|Hin]; [now left|now right].
Qed.

(** An entry of the object after a definition is the value defined or
    an entry of the object before. *)
Lemma obj_define_elem {A : Type} (k : string) (v : A)
    (props : list (string * A)) (kv : string * A) :
  In kv (obj_define k v props) -> kv.2 = v \/ In kv props.
Proof.
  unfold obj_define. destruct (obj_lookup k props).
  - apply obj_replace_elem.
  - destruct (array_index k).
    + apply obj_insert_index_elem.
    + intros [Hin|[<-|[]]]%in_app_or; [now right|now left].
Qed.

Lemma well_kept_obj_define (k : string) (v : value)
    (props : list (string * value)) :
  well_kept (VObj props) = true -> well_kept v = true ->
  well_kept (VObj (obj_define k v props)) = true.
Proof.
  cbn [well_kept]. intros [Hord Hall]%andb_prop Hv.
  apply andb_true_intro. split; [now apply engine_order_define|].
  rewrite forallb_forall in Hall. apply forallb_forall.
  intros kv [->|Hin]%obj_define_elem; [done|now apply Hall].
Qed.

Section ReferenceOrder.
Import Reference.

Lemma parse_value_well_kept (fuel : nat) :
  (forall s v r, parse_value fuel s = Some (v, r) -> well_kept v = true) /\
  (forall acc s v r, forallb well_kept acc = true ->
                     parse_elements fuel acc s = Some (v, r) ->
                     well_kept v = true) /\
  (forall acc s v r, well_kept (VObj acc) = true ->
                     parse_members fuel acc s = Some (v, r) ->
                     well_kept v = true).
Proof.
  induction fuel as [|fuel (IHv & IHe & IHm)]; [done|].
  split; [|split].
  - intros s v r. cbn [parse_value].
    destruct (skip_ws s) as [|c tl]; [done|].
    destruct (code c =? 123)%nat.
    { destruct (closes 125 tl); [now intros [= <- _]|now apply IHm]. }
    destruct (code c =? 91)%nat.
    { destruct (closes 93 tl); [now intros [= <- _]|now apply IHe]. }
    destruct (code c =? 34)%nat.
    { destruct (parse_chars tl) as [[str rest]|]; [|done].
      now intros [= <- _]. }
    destruct (code c =? 116)%nat.
    { intros Hv. now rewrite (expect_value _ _ _ _ _ Hv). }
    destruct (code c =? 102)%nat.
    { intros Hv. now rewrite (expect_value _ _ _ _ _ Hv). }
    destruct (code c =? 110)%nat.
    { intros Hv. now rewrite (expect_value _ _ _ _ _ Hv). }
    destruct (parse_number (String c tl)) as [[n rest]|]; [|done].
    now intros [= <- _].
  - intros acc s v r Hacc. cbn [parse_elements].
    destruct (parse_value fuel s) as [[v0 rest]|] eqn:Hv0; [|done].
    apply IHv in Hv0.
    assert (Hacc' : forallb well_kept (acc ++ [v0]) = true).
    { rewrite forallb_app, Hacc. cbn. now rewrite Hv0. }
    destruct (skip_ws rest) as [|c rest']; [done|].
    destruct (code c =? 44)%nat; [now apply IHe|].
    destruct (code c =? 93)%nat; [|done]. now intros [= <- _].
  - intros acc s v r Hacc. cbn [parse_members].
    destruct (skip_ws s) as [|q tl]; [done|].
    destruct (negb (code q =? 34)%nat); [done|].
    destruct (parse_chars tl) as [[k rest]|]; [|done].
    destruct (skip_ws rest) as [|c rest']; [done|].
    destruct (negb (code c =? 58)%nat); [done|].
    destruct (parse_value fuel rest') as [[v0 rest'']|] eqn:Hv0; [|done].
    apply IHv in Hv0.
    pose proof (well_kept_obj_define k v0 acc Hacc Hv0) as Hacc'.
    destruct (skip_ws rest'') as [|d r0]; [done|].
    destruct (code d =? 44)%nat; [now apply IHm|].
    destruct (code d =? 125)%nat; [|done]. now intros [= <- _].
Qed.

(** Every document that the reference engine parses has its keys in the
    engine's order. *)
Lemma reference_well_kept (s : string) (v : value) :
  @JSON_parse Reference.engine s = Some v -> well_kept v = true.
Proof.
  cbn. unfold parse_text.
  destruct (parse_value _ s) as [[v0 r]|] eqn:Hp; [|done].
  destruct (skip_ws r); [|done]. intros [= <-].
  now apply (proj1 (parse_value_well_kept _)) in Hp.
Qed.
End ReferenceOrder.

(* ===================================================================== *)
(** * [jsonPathToString] *)
(* ===================================================================== *)

Lemma string_app_cons (x : ascii) (a b : string) :
  String x a +:+ b = String x (a +:+ b).
Proof. done. Qed.

Lemma string_app_nil (b : string) : EmptyString +:+ b = b.
Proof. done. Qed.

Lemma string_app_assoc (a b c : string) : (a +:+ b) +:+ c = a +:+ (b +:+ c).
Proof.
  induction a as [|x a IH]; [done|].
  rewrite !string_app_cons. now f_equal.
Qed.

Ltac string_norm :=
  repeat (rewrite string_app_assoc || rewrite string_app_cons
          || rewrite string_app_nil).

(** A text is cut at the first occurrence of a character in one way. *)
Lemma append_until (c : ascii) (a a' b b' : string) :
  mentions c a = false -> mentions c a' = false ->
  a +:+ String c b = a' +:+ String c b' -> a = a' /\ b = b'.
Proof.
  revert a'. induction a as [|x a IH]; intros [|x' a'];
    rewrite ?string_app_cons, ?string_app_nil; cbn [mentions].
  - intros _ _ [= ->]. done.
  - intros _ [Hx _]%orb_false_elim [= -> _].
    now rewrite Ascii.eqb_refl in Hx.
  - intros [Hx _]%orb_false_elim _ [= <- _].
    now rewrite Ascii.eqb_refl in Hx.
  - intros [_ Ha]%orb_false_elim [_ Ha']%orb_false_elim [= -> Heq].
    destruct (IH a' Ha Ha' Heq) as [-> ->]. done.
Qed.

Lemma concat_bracketed (x : string) (xs : list string) :
  "[" +:+ String.concat "][" (x :: xs) +:+ "]" = bracketed (x :: xs).
Proof.
  revert x. induction xs as [|y ys IH]; intros x.
  - cbn [String.concat bracketed]. now string_norm.
  - change (String.concat "][" (x :: y :: ys))
      with (x +:+ "][" +:+ String.concat "][" (y :: ys)).
    change (bracketed (x :: y :: ys))
      with ("[" +:+ x +:+ "]" +:+ bracketed (y :: ys)).
    rewrite <- IH. now string_norm.
Qed.

Lemma jsonPathToString_bracketed (p : path) :
  jsonPathToString (Some p) = "$" +:+ bracketed (map segment_text p).
Proof.
  destruct p as [|s p]; [done|]. unfold jsonPathToString, join.
  rewrite map_map.
  set (f := fun x : segment => prop_key _).
  assert (Hf : map f (s :: p) = map segment_text (s :: p)).
  { apply map_ext. now intros [k|n]. }
  rewrite Hf. cbn [map]. rewrite <- concat_bracketed. now string_norm.
Qed.

Lemma index_key_digits (c : ascii) (n : nat) :
  (forall d : nat, d < 10 -> Ascii.eqb c (ascii_of_nat (48 + d)) = false) ->
  mentions c (index_key n) = false.
Proof.
  intros Hc. unfold index_key.
  induction (Nat.to_uint n) as [|d IH|d IH|d IH|d IH|d IH|d IH|d IH|d IH|d IH|d IH];
    cbn [NilEmpty.string_of_uint mentions]; [done|..]; rewrite IH, orb_false_r.
  - apply (Hc 0); lia.
  - apply (Hc 1); lia.
  - apply (Hc 2); lia.
  - apply (Hc 3); lia.
  - apply (Hc 4); lia.
  - apply (Hc 5); lia.
  - apply (Hc 6); lia.
  - apply (Hc 7); lia.
  - apply (Hc 8); lia.
  - apply (Hc 9); lia.
Qed.

Lemma index_key_nonempty (n : nat) : index_key n <> EmptyString.
Proof.
  unfold index_key. rewrite <- unorm_to_uint.
  pose proof (unorm_nonnil (Nat.to_uint n)) as Hnn.
  now destruct (unorm (Nat.to_uint n)).
Qed.

Lemma index_key_inj (n n' : nat) : index_key n = index_key n' -> n = n'.
Proof.
  intros Heq. apply (f_equal array_index) in Heq.
  rewrite !array_index_index_key in Heq. now injection Heq.
Qed.

Lemma not_digit_char (c : ascii) :
  (nat_of_ascii c <? 48)%nat || (57 <? nat_of_ascii c)%nat = true ->
  forall d : nat, d < 10 -> Ascii.eqb c (ascii_of_nat (48 + d)) = false.
Proof.
  intros Hc d Hd. apply Ascii.eqb_neq. intros ->.
  rewrite nat_ascii_embedding in Hc by lia.
  apply orb_prop in Hc as [Hc%Nat.ltb_lt|Hc%Nat.ltb_lt]; lia.
Qed.

(** The text of a segment ends where its bracket closes. *)
Lemma segment_text_split (s s' : segment) (r r' : string) :
  quote_free s = true -> quote_free s' = true ->
  segment_text s +:+ "]" +:+ r = segment_text s' +:+ "]" +:+ r' ->
  s = s' /\ r = r'.
Proof.
  assert (Hbr : forall n, mentions "]" (index_key n) = false).
  { intros n. apply index_key_digits. now apply not_digit_char. }
  assert (Hq : forall n, mentions quote_char (index_key n) = false).
  { intros n. apply index_key_digits. now apply not_digit_char. }
  destruct s as [k|n], s' as [k'|n']; cbn [quote_free segment_text];
    intros Hs Hs'.
  - unfold quoted. string_norm. intros [= Heq].
    apply negb_true_iff in Hs, Hs'.
    destruct (append_until _ _ _ _ _ Hs Hs' Heq) as [-> Hr].
    now injection Hr as ->.
  - unfold quoted. string_norm. intros Heq. exfalso.
    pose proof (index_key_nonempty n') as Hne. specialize (Hq n').
    destruct (index_key n') as [|c tl]; [done|].
    rewrite string_app_cons in Heq. injection Heq as <- _.
    cbn [mentions] in Hq. now rewrite Ascii.eqb_refl in Hq.
  - unfold quoted. string_norm. intros Heq. exfalso.
    pose proof (index_key_nonempty n) as Hne. specialize (Hq n).
    destruct (index_key n) as [|c tl]; [done|].
    rewrite string_app_cons in Heq. injection Heq as -> _.
    cbn [mentions] in Hq. now rewrite Ascii.eqb_refl in Hq.
  - string_norm. intros Heq.
    destruct (append_until _ _ _ _ _ (Hbr n) (Hbr n') Heq) as [Hn ->].
    apply index_key_inj in Hn as ->. done.
Qed.

Lemma bracketed_inj (p q : path) :
  forallb quote_free p = true -> forallb quote_free q = true ->
  bracketed (map segment_text p) = bracketed (map segment_text q) -> p = q.
Proof.
  revert q. induction p as [|s p IH]; intros [|s' q]; cbn [forallb map];
    try done.
  intros [Hs Hp]%andb_prop [Hs' Hq]%andb_prop.
  cbn [bracketed]. string_norm. intros [= Heq].
  destruct (segment_text_split _ _ _ _ Hs Hs' Heq) as [-> Hrest].
  f_equal. now apply IH.
Qed.

(** X8.  The path shown identifies the path.  [jsonPathToString] writes
    [$] for no path and for the empty one, and otherwise [$] followed by
    every segment in brackets, a key between double quotes and an index
    as its numeral; on paths whose keys hold no double quote, different
    paths are written differently (so an index and the key spelled like
    it are told apart).  A key is not escaped: a key that holds [ "][" ]
    is written like two keys. *)
Theorem jsonPathToString_injective :
  jsonPathToString None = "$" /\
  (forall p : path,
      jsonPathToString (Some p) = "$" +:+ bracketed (map segment_text p)) /\
  (forall p q : path,
      forallb quote_free p = true -> forallb quote_free q = true ->
      jsonPathToString (Some p) = jsonPathToString (Some q) -> p = q) /\
  (forall k k' : string,
      jsonPathToString
        (Some [SKey (k +:+ String quote_char "][" +:+ String quote_char k')])
      = jsonPathToString (Some [SKey k; SKey k'])).
Proof.
  split; [done|]. split; [apply jsonPathToString_bracketed|]. split.
  - intros p q Hp Hq. rewrite !jsonPathToString_bracketed.
    string_norm. intros [= Heq]. now apply bracketed_inj.
  - intros k k'. rewrite !jsonPathToString_bracketed.
    cbn [map segment_text bracketed]. unfold quoted. now string_norm.
Qed.

Lemma jsonPathToString_injective_witness :
  let p := [SKey "a"; SIdx 0] in
  let q := [SKey "a"; SKey "0"] in
  forallb quote_free p = true /\ forallb quote_free q = true /\
  jsonPathToString (Some p) = Reference.js "$['a'][0]" /\
  jsonPathToString (Some q) = Reference.js "$['a']['0']" /\
  jsonPathToString (Some p) <> jsonPathToString (Some q).
Proof.
  intros p q. repeat (split; [reflexivity|]).
  intros Heq.
  pose proof (proj1 (proj2 (proj2 jsonPathToString_injective)) p q
                eq_refl eq_refl Heq) as Hpq.
  discriminate Hpq.
Defined.

(* ===================================================================== *)
(** * [normalizeNodeData] *)
(* ===================================================================== *)

Lemma engine_order_rows_object (rows : list NodeRow)
    (obj : list (string * value)) :
  engine_order obj = true -> engine_order (rows_object rows obj) = true.
Proof.
  revert obj. induction rows as [|row rows IH]; intros obj Hord; [done|].
  cbn [rows_object fold_left]. apply IH.
  destruct (key_of row); [|done]. now apply engine_order_define.
Qed.

(** Of the rows with one key the last gives the value. *)
Lemma obj_lookup_rows_object (k : string) (rows : list NodeRow)
    (obj : list (string * value)) :
  obj_lookup k (rows_object rows obj) =
  match obj_lookup k (reverse (keyed rows)) with
  | Some v => Some v
  | None => obj_lookup k obj
  end.
Proof.
  revert obj. induction rows as [|row rows IH]; intros obj; [done|].
  cbn [rows_object fold_left]. fold (rows_object rows). rewrite IH.
  unfold keyed. cbn [omap list_omap]. fold (keyed rows).
  destruct (key_of row) as [k'|]; cbn [mbind option_bind]; [|done].
  rewrite reverse_cons, obj_lookup_app.
  destruct (obj_lookup k (reverse (keyed rows))); [done|].
  cbn [obj_lookup].
  destruct (String.eqb_spec k k') as [->|Hne].
  - apply obj_lookup_define_eq.
  - apply obj_lookup_define_ne. congruence.
Qed.

(** X9.  The text of a node's rows.  For no rows [normalizeNodeData]
    gives [{}]; for a single row without a key (its key [null] or empty)
    the compact rendering of that row's value; in every other case,
    where the keys of the rows are plain, the rendering of an object,
    its keys in the engine's order, that holds under each key the value
    of the last row with that key and has no other key: rows without a
    key are left out, so that several rows none of which has a key give
    the empty object. *)
Theorem normalizeNodeData_rows (E : JsEngine) (T : JsText) :
  normalizeNodeData None = "{}" /\
  normalizeNodeData (Some []) = "{}" /\
  (forall row : NodeRow,
      key_of row = None ->
      normalizeNodeData (Some [row]) = JSON_stringify_flat (row_value row)) /\
  (forall rows : list NodeRow,
      (2 <= length rows \/ exists row, rows = [row] /\ is_Some (key_of row)) ->
      forallb (fun kv => plain_key kv.1) (keyed rows) = true ->
      exists obj,
        normalizeNodeData (Some rows) = JSON_stringify (VObj obj) /\
        engine_order obj = true /\
        (forall k, obj_lookup k obj = obj_lookup k (reverse (keyed rows))) /\
        (keyed rows = [] -> obj = [])).
Proof.
  split; [done|]. split; [done|]. split.
  - intros row Hk. unfold normalizeNodeData. cbn [length Nat.eqb andb].
    rewrite Hk. now rewrite bool_decide_eq_false_2 by (intros [? [=]]).
  - intros rows Hrows _. exists (rows_object rows []).
    split; [|split; [|split]].
    + unfold normalizeNodeData.
      destruct rows as [|row0 rest]; [destruct Hrows as [?|(?&?&?)]; [cbn in *; lia|done]|].
      fold (rows_object (row0 :: rest) []).
      destruct Hrows as [Hlen|(row & [= -> ->] & Hkey)].
      * destruct rest; [cbn in Hlen; lia|]. done.
      * cbn [length Nat.eqb andb]. now rewrite bool_decide_eq_true_2.
    + now apply engine_order_rows_object.
    + intros k. rewrite obj_lookup_rows_object.
      now destruct (obj_lookup k (reverse (keyed rows))).
    + intros Hnone.
      assert (Hall : forall k, obj_lookup k (rows_object rows []) = None).
      { intros k. now rewrite obj_lookup_rows_object, Hnone. }
      destruct (rows_object rows []) as [|[k v] tl]; [done|].
      specialize (Hall k). cbn in Hall. now rewrite String.eqb_refl in Hall.
Qed.

Lemma normalizeNodeData_rows_witness :
  let rows := [ {| row_key := Some "id"; row_value := VNum (int 1) |};
                {| row_key := None; row_value := VBool true |};
                {| row_key := Some "id"; row_value := VStr "x" |};
                {| row_key := Some "7"; row_value := VNull |} ] in
  exists obj,
    @normalizeNodeData Reference.engine ReferenceText.text (Some rows)
    = @JSON_stringify Reference.engine (VObj obj) /\
    engine_order obj = true /\
    (forall k, obj_lookup k obj = obj_lookup k (reverse (keyed rows))) /\
    (keyed rows = [] -> obj = []).
Proof.
  intros rows.
  apply (proj2 (proj2 (proj2 (normalizeNodeData_rows Reference.engine
                                ReferenceText.text))) rows).
  - left. cbn. lia.
  - reflexivity.
Defined.

(* ===================================================================== *)
(** * The modal as a machine *)
(* ===================================================================== *)

Section ModalMachine.
Context {E : JsEngine} {T : JsText}.

Lemma refreshContents_run (nodeData : option NodeData)
    (text : option (list NodeRow)) (w : World) :
  refreshContents nodeData text w =
  match nodeData with
  | None => (Ok tt, w)
  | Some node =>
      let r := readValueAtPath (useJson w) (node_path node) w in
      match r.1 with
      | Ok full =>
          (Ok tt,
           with_baseline (initialText full text)
             (with_draft (initialText full text) r.2))
      | Throw e => (Throw e, r.2)
      end
  end.
Proof.
  destruct nodeData as [node|]; [|done].
  unfold refreshContents, mbind, M_bind, gets. cbv zeta.
  now destruct (readValueAtPath (useJson w) (node_path node) w) as [[full|e] w1].
Qed.

(** What an event leaves: the handler ends normally; no alert is shown;
    outside edit mode the draft is the baseline, if it was so before;
    and the stores are as they were unless the event is a click on
    Save. *)
Lemma handle_keeps (e : event) (w : World) :
  let w' := (handle e w).2 in
  (handle e w).1 = Ok tt /\
  alerts w' = alerts w /\
  ((editing w = false -> draft w = baseline w) ->
   editing w' = false -> draft w' = baseline w') /\
  (no_save [e] = true -> stores w' = stores w).
Proof.
  destruct e as [nodeData text| | |nodeData|text|key]; cbn [handle].
  - rewrite refreshContents_run. destruct nodeData as [node|]; [|done].
    cbv zeta. rewrite readValueAtPath_run.
    destruct (JSON_parse (useJson w)); cbn; repeat split; done.
  - destruct (editing w) eqn:He; cbn; repeat split; auto; congruence.
  - destruct (editing w) eqn:He; cbn; repeat split; auto.
  - destruct (editing w && _) eqn:Hg; [|cbn; repeat split; auto].
    rewrite commitEdit_run.
    destruct (JSON_parse (useJson w)) as [obj|];
      [destruct (written obj _ _)|]; cbn; repeat split; done.
  - destruct (editing w) eqn:He; cbn; repeat split; auto; congruence.
  - destruct (editing w) eqn:He; [|cbn; repeat split; auto]. unfold onKey.
    destruct (String.eqb key "Escape"); cbn; repeat split; auto; congruence.
Qed.

Lemma run_cons (e : event) (events : list event) (w : World) :
  run (e :: events) w = run events (handle e w).2.
Proof. done. Qed.
End ModalMachine.

(** X10.  The modal as the user drives it.  Whatever events reach it,
    in any order: every handler ends normally and no alert is ever
    shown; if the draft was the baseline outside edit mode at the
    start, as when the modal is mounted, it is so at the end: what the
    modal displays outside edit mode is the text last loaded or saved;
    and unless Save was clicked among the events, the three stores are
    as they were. *)
Theorem modal_invariant
    (E : JsEngine) (T : JsText) (events : list event) (w : World) :
  (editing w = false -> draft w = baseline w) ->
  let w' := run events w in
  (forall e w0, (handle e w0).1 = Ok tt) /\
  (editing w' = false -> draft w' = baseline w') /\
  alerts w' = alerts w /\
  (no_save events = true -> stores w' = stores w).
Proof.
  intros Hinv. cbv zeta.
  split; [intros e w0; apply (handle_keeps e w0)|].
  revert w Hinv. induction events as [|e events IH]; intros w Hinv; [done|].
  rewrite run_cons.
  destruct (handle_keeps e w) as (_ & Ha & Hi & Hs). cbv zeta in *.
  destruct (IH (handle e w).2 (Hi Hinv)) as (Hi' & Ha' & Hs').
  split; [done|]. split; [congruence|].
  intros Hno. cbn [no_save forallb] in Hno.
  apply andb_prop in Hno as [He Hrest].
  rewrite (Hs' Hrest). apply Hs. cbn [no_save forallb]. now rewrite He.
Qed.

Lemma modal_invariant_witness :
  let doc := Reference.js "{'user':{'name':'Alice','age':30}}" in
  let node := Some {| node_path := Some [SKey "user"; SKey "age"] |} in
  let w := with_json doc world0 in
  let events := [NodeShown node None; EditClicked; DraftChanged "31";
                 KeyDown "Escape"; SaveClicked node] in
  let w' := @run Reference.engine ReferenceText.text events w in
  (editing w' = false -> draft w' = baseline w') /\
  alerts w' = alerts w /\
  draft w' = "30" /\ stores w' = stores w.
Proof.
  intros doc node w events w'.
  destruct (modal_invariant Reference.engine ReferenceText.text events w)
    as (_ & Hi & Ha & _); [done|].
  split; [exact Hi|]. split; [exact Ha|]. vm_compute. done.
Defined.

(* ===================================================================== *)
(** * An edit is local *)
(* ===================================================================== *)

Lemma get_own_key (c : value) (s s' : segment) :
  prop_key s = prop_key s' -> get_own c s = get_own c s'.
Proof. intros Hk. unfold get_own. now rewrite Hk. Qed.

Lemma reachable_cons (D : value) (s : segment) (rest : path) :
  reachable D (s :: rest) = true ->
  is_container D = true /\
  (rest <> [] -> reachable (get_own D s) rest = true).
Proof.
  destruct rest as [|s' rest]; cbn [reachable]; [done|].
  now intros [-> ->]%andb_prop.
Qed.

(** Off the path, [setAtPath] leaves what is read as it was. *)
Lemma read_loop_setAtPath_off (D : value) (P Q : path) (V : value) :
  reachable D P = true -> Heap.off_path P Q = true ->
  read_loop (setAtPath D P V) Q = read_loop D Q.
Proof.
  revert D Q. induction P as [|p P IH]; intros D [|q Q] Hr Hoff; try done.
  destruct (reachable_cons _ _ _ Hr) as [HD Hrest].
  cbn [Heap.off_path] in Hoff.
  rewrite setAtPath_cons, !read_loop_cons.
  rewrite member_opt_container
    by (rewrite put_own_container; apply clone_container).
  rewrite (member_opt_container D) by done.
  destruct (String.eqb_spec (prop_key p) (prop_key q)) as [Hk|Hk].
  - assert (HP : P <> []) by now destruct P.
    rewrite <- (get_own_key _ p q Hk), <- (get_own_key D p q Hk).
    destruct (fits (clone D p) p) eqn:Hfit.
    + rewrite get_own_put_own_eq by (apply clone_container || done).
      rewrite get_own_clone, HD. now apply IH; [apply Hrest|].
    + rewrite put_own_unfit by done. now rewrite get_own_clone, HD.
  - now rewrite get_own_put_own_ne, get_own_clone, HD.
Qed.

(** X12.  An edit is local.  Where the parents of the target exist and
    the path, a path of plain keys, meets arrays at indices only,
    [setAtPath] leaves what is read at a position that leaves the path
    (neither above, at, nor below the target) as it was, the read being
    one of slots.  So do the two save handlers, where the text written
    reads back as the document rendered: after [handleNodeSave], and
    after [commitEdit] on a document that the engine has built,
    [readValueAtPath] returns at such a position what it returned
    before. *)
Theorem edits_are_local :
  (forall (I : JsInheritance) (D : value) (P Q : path) (V : value),
      reachable D P = true ->
      plain_path P = true -> compatible D P = true ->
      Heap.off_path P Q = true -> plain_walk D Q = true ->
      read_loop (setAtPath D P V) Q = read_loop D Q) /\
  (forall (E : JsEngine) (I : JsInheritance) (P Q : path) (V D : value)
          (w w0 : World),
      JSON_parse (contents (useFile w)) = Some D ->
      reachable D P = true ->
      plain_path P = true -> compatible D P = true ->
      Heap.off_path P Q = true -> plain_walk D Q = true ->
      JSON_parse (JSON_stringify (setAtPath D P V))
        = Some (setAtPath D P V) ->
      readValueAtPath (contents (useFile (handleNodeSave P V w).2))
        (Some Q) w0
      = readValueAtPath (contents (useFile w)) (Some Q) w0) /\
  (forall (E : JsEngine) (I : JsInheritance) (nodeData : option NodeData)
          (Q : path) (D : value) (w w0 : World),
      let P := default [] (path_of nodeData) in
      let m := merged (read_loop D P) (coerced (draft w)) in
      JSON_parse (useJson w) = Some D ->
      well_kept D = true ->
      reachable D P = true ->
      plain_path P = true -> compatible D P = true ->
      Heap.off_path P Q = true -> plain_walk D Q = true ->
      JSON_parse (JSON_stringify (setAtPath D P m))
        = Some (setAtPath D P m) ->
      readValueAtPath (useJson (commitEdit nodeData w).2) (Some Q) w0
      = readValueAtPath (useJson w) (Some Q) w0).
Proof.
  split; [intros I D P Q V Hr _ _ Hoff _; now apply read_loop_setAtPath_off|].
  split.
  - intros E I P Q V D w w0 HD Hr _ _ Hoff _ Hround.
    rewrite handleNodeSave_run, HD. cbn [snd useFile with_file contents].
    rewrite !readValueAtPath_run, Hround, HD.
    change (default [] (Some Q)) with Q.
    now rewrite read_loop_setAtPath_off.
  - intros E I nodeData Q D w w0 P m HD Hk Hr _ _ Hoff _ Hround.
    rewrite commitEdit_run, HD. fold P. fold m.
    destruct (written_reachable D (path_of nodeData) m Hr)
      as (t & -> & _ & Ht).
    rewrite (Ht Hk). fold P.
    cbn [snd published useJson with_baseline with_editing with_graph
           with_file with_json].
    rewrite !readValueAtPath_run, Hround, HD.
    change (default [] (Some Q)) with Q.
    now rewrite read_loop_setAtPath_off.
Qed.

Lemma edits_are_local_witness :
  let doc := Reference.js "{'user':{'name':'Alice','age':30},'tags':['a','b']}" in
  let w := editing_world doc "31" (GraphValue VNull) in
  let nd := Some {| node_path := Some [SKey "user"; SKey "age"] |} in
  let Q := [SKey "user"; SKey "name"] in
  @readValueAtPath Reference.engine
    (contents (useFile (@handleNodeSave Reference.engine
                          [SKey "tags"; SIdx 0] VNull w).2))
    (Some Q) world0
  = (Ok (VStr "Alice"), world0) /\
  @readValueAtPath Reference.engine
    (useJson (@commitEdit Reference.engine nd w).2) (Some Q) world0
  = (Ok (VStr "Alice"), world0).
Proof.
  intros doc w nd Q.
  pose (D := VObj [("user", VObj [("name", VStr "Alice");
                                  ("age", VNum (int 30))]);
                   ("tags", VArr [VStr "a"; VStr "b"])]).
  destruct edits_are_local as (_ & Hsave & Hcommit).
  split.
  - etransitivity;
      [apply (Hsave Reference.engine ReferenceInheritance.inheritance
                [SKey "tags"; SIdx 0] Q VNull D w world0)|];
      vm_compute; reflexivity.
  - etransitivity;
      [apply (Hcommit Reference.engine ReferenceInheritance.inheritance
                nd Q D w world0)|];
      vm_compute; reflexivity.
Defined.
